(** * gopi-frame/env: environment loading, typed accessors and [${...}] expansion

    A shallow embedding of [env.go].  Go strings are byte sequences
    ([list ascii]); the process environment is a finite map from keys to
    values; a Go run-time panic is an explicit outcome ([Panic]); Go's
    [(T, error)] results are pairs whose second component is [None] for
    [nil].  The functions of the Go standard library that [env.go] calls
    ([strings.TrimSpace], [os.Expand], [strings.Split], ...) are modelled
    in their own modules, named after the Go packages. *)

From Stdlib Require Import ZArith Zbitwise Ascii String List Lia Bool.
From stdpp Require Import base option list gmap strings.

Local Open Scope Z_scope.

(** ** Go strings, bytes and panics *)

Abbreviation gostring := (list ascii).

(** A Go string literal. *)
Definition str (s : string) : gostring := list_ascii_of_string s.

(** [len(s)], a Go [int]. *)
Definition len (s : gostring) : Z := Z.of_nat (length s).

(** The numeric value of a byte. *)
Definition byte_val (c : ascii) : Z := Z.of_N (N_of_ascii c).

(** [c == 'x'] on bytes. *)
Definition byte_eqb (c d : ascii) : bool := Ascii.eqb c d.

(** The Go [error] values this package can see.  [nil] is [None]. *)
Inductive num_err := ErrSyntax | ErrRange.

Inductive err :=
| SyscallError (call : gostring) (errno : gostring)   (* os.NewSyscallError *)
| ErrorString (msg : gostring)                        (* errors.New *)
| NumError (func num : gostring) (e : num_err)        (* *strconv.NumError *)
| ForeignError (msg : gostring).                      (* godotenv, encoding/json, ... *)

Definition error := option err.

(** What a [panic] carries: a run-time error or an [error] value. *)
Inductive panic_value :=
| IndexOutOfRange (i n : Z)            (* index out of range [i] with length n *)
| SliceOutOfRange (lo hi n : Z)        (* slice bounds out of range *)
| PanicError (e : err).                (* panic(err) *)

(** The outcome of a Go call that may panic. *)
Inductive Res (A : Type) :=
| Ret (a : A)
| Panic (p : panic_value).
Arguments Ret {A} a.
Arguments Panic {A} p.

#[global] Instance Res_ret : MRet Res := fun A a => Ret a.
#[global] Instance Res_bind : MBind Res := fun A B k m =>
  match m with
  | Ret a => k a
  | Panic p => Panic p
  end.

(** [s[i]]: panics when [i] is not in [0, len(s))]. *)
Definition index (s : gostring) (i : Z) : Res ascii :=
  if (0 <=? i) && (i <? len s) then
    match s !! Z.to_nat i with
    | Some c => Ret c
    | None => Panic (IndexOutOfRange i (len s))
    end
  else Panic (IndexOutOfRange i (len s)).

(** [s[lo:hi]]: panics unless [0 <= lo <= hi <= len(s)]. *)
Definition slice (s : gostring) (lo hi : Z) : Res gostring :=
  if (0 <=? lo) && (lo <=? hi) && (hi <=? len s) then
    Ret (take (Z.to_nat (hi - lo)) (drop (Z.to_nat lo) s))
  else Panic (SliceOutOfRange lo hi (len s)).

(** [s[lo:]]. *)
Definition slice_from (s : gostring) (lo : Z) : Res gostring :=
  slice s lo (len s).

(** A byte read at an offset already checked against [len(s)]. *)
Definition byte_at (s : gostring) (i : nat) : Z :=
  byte_val (nth i s zero).

(** ** Package [unicode/utf8] *)

Module utf8.

Definition RuneError : Z := 0xFFFD.
Definition RuneSelf : Z := 0x80.
Definition UTFMax : Z := 4.

Definition maskx : Z := 0x3F.
Definition mask2 : Z := 0x1F.
Definition mask3 : Z := 0x0F.
Definition mask4 : Z := 0x07.

Definition locb : Z := 0x80.
Definition hicb : Z := 0xBF.

(* Codes of the [first] table: the low three bits are the sequence
   length, the high four bits index [acceptRanges]. *)
Definition xx : Z := 0xF1.  (* invalid: size 1 *)
Definition as_ : Z := 0xF0. (* ASCII: size 1 *)
Definition s1 : Z := 0x02.
Definition s2 : Z := 0x13.
Definition s3 : Z := 0x03.
Definition s4 : Z := 0x23.
Definition s5 : Z := 0x34.
Definition s6 : Z := 0x04.
Definition s7 : Z := 0x44.

(** The table [first], by ranges of the leading byte. *)
Definition first (b : Z) : Z :=
  if b <? 0x80 then as_
  else if b <? 0xC2 then xx
  else if b <? 0xE0 then s1
  else if b =? 0xE0 then s2
  else if b <? 0xED then s3
  else if b =? 0xED then s4
  else if b <? 0xF0 then s3
  else if b =? 0xF0 then s5
  else if b <? 0xF4 then s6
  else if b =? 0xF4 then s7
  else xx.

(** [acceptRanges[k]] as [(lo, hi)]; the unlisted entries of the array
    are zero. *)
Definition acceptRanges (k : Z) : Z * Z :=
  match k with
  | 0 => (locb, hicb)
  | 1 => (0xA0, hicb)
  | 2 => (locb, 0x9F)
  | 3 => (0x90, hicb)
  | 4 => (locb, 0x8F)
  | _ => (0, 0)
  end.

(** [utf8.DecodeRuneInString]: the first rune of [s] and its width. *)
Definition DecodeRuneInString (s : gostring) : Z * Z :=
  let n := len s in
  if n <? 1 then (RuneError, 0)
  else
    let s0 := byte_at s 0 in
    let x := first s0 in
    if as_ <=? x then
      (if Z.odd x then RuneError else s0, 1)
    else
      let sz := Z.land x 7 in
      let accept := acceptRanges (Z.shiftr x 4) in
      if n <? sz then (RuneError, 1)
      else
        let b1 := byte_at s 1 in
        if (b1 <? fst accept) || (snd accept <? b1) then (RuneError, 1)
        else if sz <=? 2 then
          (Z.lor (Z.shiftl (Z.land s0 mask2) 6) (Z.land b1 maskx), 2)
        else
          let b2 := byte_at s 2 in
          if (b2 <? locb) || (hicb <? b2) then (RuneError, 1)
          else if sz <=? 3 then
            (Z.lor (Z.lor (Z.shiftl (Z.land s0 mask3) 12)
                          (Z.shiftl (Z.land b1 maskx) 6))
                   (Z.land b2 maskx), 3)
          else
            let b3 := byte_at s 3 in
            if (b3 <? locb) || (hicb <? b3) then (RuneError, 1)
            else
              (Z.lor (Z.lor (Z.lor (Z.shiftl (Z.land s0 mask4) 18)
                                   (Z.shiftl (Z.land b1 maskx) 12))
                            (Z.shiftl (Z.land b2 maskx) 6))
                     (Z.land b3 maskx), 4).

(** [utf8.RuneStart]. *)
Definition RuneStart (b : Z) : bool :=
  negb (Z.land b 0xC0 =? 0x80).

(** The backward scan of [DecodeLastRuneInString]:
    [for start--; start >= lim; start-- { if RuneStart(s[start]) { break } }]. *)
Fixpoint last_rune_start (fuel : nat) (s : gostring) (start lim : Z) : Z :=
  match fuel with
  | O => start
  | S fuel' =>
      if lim <=? start then
        if RuneStart (byte_at s (Z.to_nat start)) then start
        else last_rune_start fuel' s (start - 1) lim
      else start
  end.

(** [utf8.DecodeLastRuneInString]. *)
Definition DecodeLastRuneInString (s : gostring) : Z * Z :=
  let end_ := len s in
  if end_ =? 0 then (RuneError, 0)
  else
    let start := end_ - 1 in
    let r := byte_at s (Z.to_nat start) in
    if r <? RuneSelf then (r, 1)
    else
      let lim := Z.max (end_ - UTFMax) 0 in
      let start := last_rune_start 4 s (start - 1) lim in
      let start := Z.max start 0 in
      let '(r, size) :=
        DecodeRuneInString (take (Z.to_nat (end_ - start)) (drop (Z.to_nat start) s)) in
      if start + size =? end_ then (r, size) else (RuneError, 1).

End utf8.

(** ** Package [unicode] *)

Module unicode.

Definition MaxLatin1 : Z := 0xFF.

(** [unicode.IsSpace]: the Latin-1 spaces, then the rest of the
    [White_Space] table. *)
Definition IsSpace (r : Z) : bool :=
  if (0 <=? r) && (r <=? MaxLatin1) then
    (r =? 9) || (r =? 10) || (r =? 11) || (r =? 12) || (r =? 13)
    || (r =? 32) || (r =? 0x85) || (r =? 0xA0)
  else
    (r =? 0x1680) || ((0x2000 <=? r) && (r <=? 0x200a))
    || ((0x2028 <=? r) && (r <=? 0x2029))
    || (r =? 0x202f) || (r =? 0x205f) || (r =? 0x3000).

End unicode.

(** ** Ranging over a string

    [for i, r := range s { body }] visits the runes of [s]: [i] is the
    byte offset of the rune and [r] its value ([utf8.RuneError], of width
    one, at a byte that starts no valid encoding).  The body may panic. *)

Fixpoint range_string_from {St : Type} (fuel : nat) (s : gostring) (i : Z)
    (body : Z -> Z -> St -> Res St) (st : St) : Res St :=
  match fuel with
  | O => Ret st
  | S fuel' =>
      if i <? len s then
        let '(r, w) := utf8.DecodeRuneInString (drop (Z.to_nat i) s) in
        st' ← body i r st;
        range_string_from fuel' s (i + w) body st'
      else Ret st
  end.

Definition range_string {St : Type} (s : gostring)
    (body : Z -> Z -> St -> Res St) (st : St) : Res St :=
  range_string_from (length s) s 0 body st.

(** ** Package [strings] *)

Module strings.

(** [asciiSpace[c] == 1]. *)
Definition asciiSpace (c : Z) : bool :=
  (c =? 9) || (c =? 10) || (c =? 11) || (c =? 12) || (c =? 13) || (c =? 32).

(** [indexFunc(s, f, truth)]: offset of the first rune [r] with
    [f(r) == truth], or -1. *)
Fixpoint indexFunc_from (fuel : nat) (s : gostring) (i : Z)
    (f : Z -> bool) (truth : bool) : Z :=
  match fuel with
  | O => -1
  | S fuel' =>
      if i <? len s then
        let '(r, w) := utf8.DecodeRuneInString (drop (Z.to_nat i) s) in
        if Bool.eqb (f r) truth then i
        else indexFunc_from fuel' s (i + w) f truth
      else -1
  end.

Definition indexFunc (s : gostring) (f : Z -> bool) (truth : bool) : Z :=
  indexFunc_from (length s) s 0 f truth.

(** [lastIndexFunc(s, f, truth)]. *)
Fixpoint lastIndexFunc_from (fuel : nat) (s : gostring) (i : Z)
    (f : Z -> bool) (truth : bool) : Z :=
  match fuel with
  | O => -1
  | S fuel' =>
      if 0 <? i then
        let '(r, size) := utf8.DecodeLastRuneInString (take (Z.to_nat i) s) in
        let i := i - size in
        if Bool.eqb (f r) truth then i
        else lastIndexFunc_from fuel' s i f truth
      else -1
  end.

Definition lastIndexFunc (s : gostring) (f : Z -> bool) (truth : bool) : Z :=
  lastIndexFunc_from (length s) s (len s) f truth.

Definition TrimLeftFunc (s : gostring) (f : Z -> bool) : gostring :=
  let i := indexFunc s f false in
  if i =? -1 then [] else drop (Z.to_nat i) s.

Definition TrimRightFunc (s : gostring) (f : Z -> bool) : gostring :=
  let i := lastIndexFunc s f false in
  let i :=
    if (0 <=? i) && (utf8.RuneSelf <=? byte_at s (Z.to_nat i)) then
      i + snd (utf8.DecodeRuneInString (drop (Z.to_nat i) s))
    else i + 1 in
  take (Z.to_nat i) s.

Definition TrimFunc (s : gostring) (f : Z -> bool) : gostring :=
  TrimRightFunc (TrimLeftFunc s f) f.

(** The first loop of [TrimSpace]: the offset of the first ASCII
    non-space ([inl]), or the result of the Unicode-aware path when a
    byte outside ASCII is met ([inr]). *)
Fixpoint TrimSpace_start (fuel : nat) (s : gostring) (start : Z) : Z + gostring :=
  match fuel with
  | O => inl start
  | S fuel' =>
      if start <? len s then
        let c := byte_at s (Z.to_nat start) in
        if utf8.RuneSelf <=? c then
          inr (TrimFunc (drop (Z.to_nat start) s) unicode.IsSpace)
        else if negb (asciiSpace c) then inl start
        else TrimSpace_start fuel' s (start + 1)
      else inl start
  end.

(** The second loop of [TrimSpace], from the end. *)
Fixpoint TrimSpace_stop (fuel : nat) (s : gostring) (start stop : Z) : Z + gostring :=
  match fuel with
  | O => inl stop
  | S fuel' =>
      if start <? stop then
        let c := byte_at s (Z.to_nat (stop - 1)) in
        if utf8.RuneSelf <=? c then
          inr (TrimRightFunc
                 (take (Z.to_nat (stop - start)) (drop (Z.to_nat start) s))
                 unicode.IsSpace)
        else if negb (asciiSpace c) then inl stop
        else TrimSpace_stop fuel' s start (stop - 1)
      else inl stop
  end.

(** [strings.TrimSpace]: [s] without its leading and trailing white
    space, as Unicode defines it. *)
Definition TrimSpace (s : gostring) : gostring :=
  match TrimSpace_start (length s) s 0 with
  | inr r => r
  | inl start =>
      match TrimSpace_stop (length s) s start (len s) with
      | inr r => r
      | inl stop => take (Z.to_nat (stop - start)) (drop (Z.to_nat start) s)
      end
  end.

(** [strings.Join(elems, sep)]. *)
Fixpoint Join (elems : list gostring) (sep : gostring) : gostring :=
  match elems with
  | [] => []
  | x :: rest =>
      match rest with
      | [] => x
      | _ :: _ => x ++ sep ++ Join rest sep
      end
  end.

(** [strings.Split(s, sep)] for a one-byte separator, which is what
    every call of this package passes: the substrings of [s] between
    the occurrences of [sep]; one more than there are separators. *)
Fixpoint Split (s : gostring) (sep : ascii) : list gostring :=
  match s with
  | [] => [[]]
  | c :: s' =>
      if byte_eqb c sep then [] :: Split s' sep
      else
        match Split s' sep with
        | x :: xs => (c :: x) :: xs
        | [] => [[c]]
        end
  end.

(** [strings.SplitN(s, sep, 2)] for a one-byte separator: [s] cut at
    the first [sep], or [s] alone when there is none. *)
Fixpoint SplitN2 (s : gostring) (sep : ascii) : list gostring :=
  match s with
  | [] => [[]]
  | c :: s' =>
      if byte_eqb c sep then [[]; s']
      else
        match SplitN2 s' sep with
        | x :: xs => (c :: x) :: xs
        | [] => [[c]]
        end
  end.

(** [strings.HasPrefix]. *)
Fixpoint HasPrefix (s prefix : gostring) : bool :=
  match prefix, s with
  | [], _ => true
  | p :: prefix', c :: s' => byte_eqb p c && HasPrefix s' prefix'
  | _ :: _, [] => false
  end.

(** [strings.Contains]. *)
Fixpoint Contains (s substr : gostring) : bool :=
  HasPrefix s substr
  || match s with
     | [] => false
     | _ :: s' => Contains s' substr
     end.

(** [strings.ReplaceAll(s, old, new)] for a non-empty [old]: the
    occurrences of [old] are replaced from the left and do not
    overlap.  [skip] counts the bytes of a replaced occurrence still to
    be passed over. *)
Fixpoint ReplaceAll_from (s : gostring) (skip : nat) (old new : gostring) : gostring :=
  match s with
  | [] => []
  | c :: s' =>
      match skip with
      | S k => ReplaceAll_from s' k old new
      | O =>
          if HasPrefix s old then new ++ ReplaceAll_from s' (length old - 1) old new
          else c :: ReplaceAll_from s' 0 old new
      end
  end.

Definition ReplaceAll (s old new : gostring) : gostring :=
  ReplaceAll_from s 0 old new.

End strings.

(** ** Package [os]: the process environment and [os.Expand] *)

(** The process environment: the value of every variable that is set. *)
Abbreviation Env := (gmap gostring gostring).

Module os.

(** [os.LookupEnv]: the value of [key] when it is set.  The empty
    name is never found. *)
Definition LookupEnv (env : Env) (key : gostring) : option gostring :=
  if len key =? 0 then None else env !! key.

(** [os.Getenv]: the value, or the empty string when unset. *)
Definition Getenv (env : Env) (key : gostring) : gostring :=
  match LookupEnv env key with
  | Some v => v
  | None => []
  end.

Definition has_byte (c : ascii) (s : gostring) : bool :=
  existsb (byte_eqb c) s.

(** [os.Setenv]: refuses an empty key, a key with ['='] or NUL and a
    value with NUL; otherwise the variable is set. *)
Definition Setenv (key value : gostring) (env : Env) : Env * error :=
  if (len key =? 0)
     || has_byte "="%char key || has_byte zero key
     || has_byte zero value
  then (env, Some (SyscallError (str "setenv") (str "invalid argument")))
  else (<[key := value]> env, None).

(** [os.Environ]: one ["key=value"] string per variable. *)
Definition Environ (env : Env) : list gostring :=
  (fun kv : gostring * gostring => kv.1 ++ str "=" ++ kv.2) <$> map_to_list env.

(** [isShellSpecialVar]. *)
Definition isShellSpecialVar (c : ascii) : bool :=
  match c with
  | "*" | "#" | "$" | "@" | "!" | "?" | "-"
  | "0" | "1" | "2" | "3" | "4" | "5" | "6" | "7" | "8" | "9" => true
  | _ => false
  end%char.

(** [isAlphaNum]: an ASCII letter, a digit or an underscore. *)
Definition isAlphaNum (c : ascii) : bool :=
  let v := byte_val c in
  byte_eqb c "_"
  || ((byte_val "0" <=? v) && (v <=? byte_val "9"))
  || ((byte_val "a" <=? v) && (v <=? byte_val "z"))
  || ((byte_val "A" <=? v) && (v <=? byte_val "Z")).

(** The scan to the closing brace in [getShellName]:
    [for i := 1; i < len(s); i++]. *)
Fixpoint scan_brace (fuel : nat) (s : gostring) (i : Z) : Res (gostring * Z) :=
  match fuel with
  | O => Ret ([], 1)
  | S fuel' =>
      if i <? len s then
        c ← index s i;
        if byte_eqb c "}" then
          if i =? 1 then Ret ([], 2)      (* bad syntax; eat "${}" *)
          else name ← slice s 1 i; Ret (name, i + 1)
        else scan_brace fuel' s (i + 1)
      else Ret ([], 1)                    (* bad syntax; eat "${" *)
  end.

(** [for i = 0; i < len(s) && isAlphaNum(s[i]); i++ {}]. *)
Fixpoint scan_alnum (fuel : nat) (s : gostring) (i : Z) : Res Z :=
  match fuel with
  | O => Ret i
  | S fuel' =>
      if i <? len s then
        c ← index s i;
        if isAlphaNum c then scan_alnum fuel' s (i + 1) else Ret i
      else Ret i
  end.

(** [getShellName]: the name that begins [s] and the number of bytes
    consumed to extract it. *)
Definition getShellName (s : gostring) : Res (gostring * Z) :=
  c0 ← index s 0;
  if byte_eqb c0 "{" then
    special ← (if 2 <? len s then
                 c1 ← index s 1; c2 ← index s 2;
                 Ret (isShellSpecialVar c1 && byte_eqb c2 "}")
               else Ret false);
    if special : bool then name ← slice s 1 2; Ret (name, 3)
    else scan_brace (length s) s 1
  else if isShellSpecialVar c0 then name ← slice s 0 1; Ret (name, 1)
  else
    i ← scan_alnum (length s) s 0;
    name ← slice s 0 i; Ret (name, i).

Definition is_empty (s : gostring) : bool :=
  len s =? 0.

(** The loop of [os.Expand], [for j := 0; j < len(s); j++], on its
    state [(buf, i)]; [buf] is [None] while it is [nil]. *)
Fixpoint Expand_loop (fuel : nat) (s : gostring)
    (mapping : gostring -> Res gostring)
    (buf : option gostring) (i j : Z) : Res (option gostring * Z) :=
  match fuel with
  | O => Ret (buf, i)
  | S fuel' =>
      if j <? len s then
        c ← index s j;
        if byte_eqb c "$" && (j + 1 <? len s) then
          let buf := default [] buf in
          pre ← slice s i j;
          let buf := buf ++ pre in
          rest ← slice_from s (j + 1);
          '(name, w) ← getShellName rest;
          buf ← (if is_empty name && (0 <? w) then
                   Ret buf                 (* invalid syntax; eat the characters *)
                 else if is_empty name then
                   Ret (buf ++ [c])        (* leave the dollar untouched *)
                 else
                   v ← mapping name; Ret (buf ++ v));
          let j := j + w in
          Expand_loop fuel' s mapping (Some buf) (j + 1) (j + 1)
        else Expand_loop fuel' s mapping buf i (j + 1)
      else Ret (buf, i)
  end.

(** [os.Expand(s, mapping)]. *)
Definition Expand (s : gostring) (mapping : gostring -> Res gostring) : Res gostring :=
  '(buf, i) ← Expand_loop (length s) s mapping None 0 0;
  match buf with
  | None => Ret s
  | Some buf => rest ← slice_from s i; Ret (buf ++ rest)
  end.

End os.

(** ** Package [strconv]: the base-10, 64-bit parsers *)

Module strconv.

Definition syntaxError (fn s : gostring) : error := Some (NumError fn s ErrSyntax).
Definition rangeError (fn s : gostring) : error := Some (NumError fn s ErrRange).

Definition maxUint64 : Z := 2 ^ 64 - 1.

(** [lower(c)]: [c | ('x' - 'X')]. *)
Definition lower (c : Z) : Z := Z.lor c 0x20.

(** The digit loop of [ParseUint(s, 10, 64)] on the bytes left to read;
    [s0] is the whole argument, [n] the value so far. *)
Fixpoint ParseUint_digits (s0 : gostring) (bytes : gostring) (n : Z) : Z * error :=
  match bytes with
  | [] => (n, None)
  | ch :: rest =>
      let c := byte_val ch in
      let d :=
        if (byte_val "0" <=? c) && (c <=? byte_val "9") then Some (c - byte_val "0")
        else if (byte_val "a" <=? lower c) && (lower c <=? byte_val "z")
             then Some (lower c - byte_val "a" + 10)
        else None in
      match d with
      | None => (0, syntaxError (str "ParseUint") s0)
      | Some d =>
          if 10 <=? d then (0, syntaxError (str "ParseUint") s0)
          else if maxUint64 / 10 + 1 <=? n then
            (maxUint64, rangeError (str "ParseUint") s0)     (* n*base overflows *)
          else
            let n := n * 10 in
            let n1 := (n + d) mod 2 ^ 64 in
            if (n1 <? n) || (maxUint64 <? n1) then
              (maxUint64, rangeError (str "ParseUint") s0)   (* n+d overflows *)
            else ParseUint_digits s0 rest n1
      end
  end.

(** [strconv.ParseUint(s, 10, 64)]. *)
Definition ParseUint (s : gostring) : Z * error :=
  if len s =? 0 then (0, syntaxError (str "ParseUint") s)
  else ParseUint_digits s s 0.

Definition set_func (fn s0 : gostring) (e : error) : error :=
  match e with
  | Some (NumError _ _ k) => Some (NumError fn s0 k)
  | _ => e
  end.

(** [strconv.ParseInt(s, 10, 64)]. *)
Definition ParseInt (s : gostring) : Z * error :=
  match s with
  | [] => (0, syntaxError (str "ParseInt") s)
  | c :: rest =>
      let s0 := s in
      let '(neg, s) :=
        if byte_eqb c "+" then (false, rest)
        else if byte_eqb c "-" then (true, rest)
        else (false, s) in
      let '(un, e) := ParseUint s in
      let failed :=            (* an error other than a range error *)
        match e with
        | None | Some (NumError _ _ ErrRange) => false
        | Some _ => true
        end in
      if failed then (0, set_func (str "ParseInt") s0 e)
      else
        let cutoff := 2 ^ 63 in
        if negb neg && (cutoff <=? un) then
          (cutoff - 1, rangeError (str "ParseInt") s0)
        else if neg && (cutoff <? un) then
          (- cutoff, rangeError (str "ParseInt") s0)
        else (if neg then - un else un, None)
  end.

(** The digit loop of the fast path of [Atoi]. *)
Fixpoint Atoi_digits (bytes : gostring) (n : Z) : option Z :=
  match bytes with
  | [] => Some n
  | ch :: rest =>
      let d := (byte_val ch - byte_val "0") mod 256 in
      if 9 <? d then None else Atoi_digits rest (n * 10 + d)
  end.

(** [strconv.Atoi], with a 64-bit [int]. *)
Definition Atoi (s : gostring) : Z * error :=
  let sLen := len s in
  if (0 <? sLen) && (sLen <? 19) then
    (* fast path for small integers that fit the int type *)
    let s0 := s in
    match s with
    | [] => (0, syntaxError (str "Atoi") s0)
    | c :: rest =>
        let signed := byte_eqb c "-" || byte_eqb c "+" in
        let s := if signed then rest else s in
        if signed && (len s <? 1) then (0, syntaxError (str "Atoi") s0)
        else
          match Atoi_digits s 0 with
          | None => (0, syntaxError (str "Atoi") s0)
          | Some n => (if byte_eqb c "-" then - n else n, None)
          end
    end
  else
    (* slow path for invalid, big, or underscored integers *)
    let '(i64, e) := ParseInt s in
    (i64, set_func (str "Atoi") s e).

(** [strconv.ParseBool]. *)
Definition ParseBool (s : gostring) : bool * error :=
  if existsb (fun t => bool_decide (s = str t)) ["1"; "t"; "T"; "true"; "TRUE"; "True"]%string
  then (true, None)
  else if existsb (fun t => bool_decide (s = str t)) ["0"; "f"; "F"; "false"; "FALSE"; "False"]%string
  then (false, None)
  else (false, syntaxError (str "ParseBool") s).

(** [strconv.FormatBool]. *)
Definition FormatBool (b : bool) : gostring :=
  if b then str "true" else str "false".

Definition nSmalls : Z := 100.

Definition smallsString : gostring :=
  str ("00010203040506070809" ++
       "10111213141516171819" ++
       "20212223242526272829" ++
       "30313233343536373839" ++
       "40414243444546474849" ++
       "50515253545556575859" ++
       "60616263646566676869" ++
       "70717273747576777879" ++
       "80818283848586878889" ++
       "90919293949596979899").

Definition digits : gostring := str "0123456789abcdefghijklmnopqrstuvwxyz".

(** [smallsString[i]] and [digits[i]], at an offset within the string. *)
Definition byte_of (s : gostring) (i : Z) : ascii := nth (Z.to_nat i) s zero.

(** [small]: the string for an [i] with [0 <= i < nSmalls]. *)
Definition small (i : Z) : gostring :=
  if i <? 10 then [byte_of digits i]
  else [byte_of smallsString (i * 2); byte_of smallsString (i * 2 + 1)].

(** The loop [for us >= 100] of [formatBits] in base 10: two digits at a
    time are put in front of the digits [a] written so far. *)
Fixpoint formatBits_pairs (fuel : nat) (us : Z) (a : gostring) : Z * gostring :=
  match fuel with
  | O => (us, a)
  | S fuel' =>
      if 100 <=? us then
        let is_ := us mod 100 * 2 in
        let us := us / 100 in
        formatBits_pairs fuel' us
          (byte_of smallsString (is_ + 0) :: byte_of smallsString (is_ + 1) :: a)
      else (us, a)
  end.

(** [formatBits(nil, u, 10, neg, false)] on a 64-bit host: the decimal
    digits of [u], or of [-u] after a minus sign when [neg]. *)
Definition formatBits (u : Z) (neg : bool) : gostring :=
  let u := if neg then (- u) mod 2 ^ 64 else u in
  let '(us, a) := formatBits_pairs 10 u [] in
  (* us < 100 *)
  let is_ := us * 2 in
  let a := byte_of smallsString (is_ + 1) :: a in
  let a := if 10 <=? us then byte_of smallsString is_ :: a else a in
  if neg then "-"%char :: a else a.

(** [strconv.FormatUint(i, 10)] of a [uint64]. *)
Definition FormatUint (i : Z) : gostring :=
  if i <? nSmalls then small i else formatBits i false.

(** [strconv.FormatInt(i, 10)] of an [int64]; [uint64(i)] is [i] modulo
    [2^64]. *)
Definition FormatInt (i : Z) : gostring :=
  if (0 <=? i) && (i <? nSmalls) then small i
  else formatBits (i mod 2 ^ 64) (i <? 0).

(** [strconv.Itoa], with a 64-bit [int]. *)
Definition Itoa (i : Z) : gostring := FormatInt i.

End strconv.

(** ** Package [env] *)

Module env.

(** *** Setters *)

(** [Set]. *)
Definition Set_ (key value : gostring) (env : Env) : Env * error :=
  os.Setenv key value env.

(** [SetInt]. *)
Definition SetInt (key : gostring) (value : Z) (env : Env) : Env * error :=
  os.Setenv key (strconv.Itoa value) env.

(** [SetInt64]. *)
Definition SetInt64 (key : gostring) (value : Z) (env : Env) : Env * error :=
  os.Setenv key (strconv.FormatInt value) env.

(** [SetUint64]. *)
Definition SetUint64 (key : gostring) (value : Z) (env : Env) : Env * error :=
  os.Setenv key (strconv.FormatUint value) env.

(** [SetBool]. *)
Definition SetBool (key : gostring) (value : bool) (env : Env) : Env * error :=
  os.Setenv key (strconv.FormatBool value) env.

(** [SetStrings]. *)
Definition SetStrings (key : gostring) (value : list gostring) (env : Env) : Env * error :=
  os.Setenv key (strings.Join value (str ",")) env.

(** *** Getters *)

(** [Get]. *)
Definition Get (env : Env) (key : gostring) : gostring :=
  os.Getenv env key.

(** [GetOr]. *)
Definition GetOr (env : Env) (key defaultValue : gostring) : gostring :=
  match os.LookupEnv env key with
  | Some value => value
  | None => defaultValue
  end.

(** [GetT]. *)
Definition GetT {T : Type} (env : Env) (key : gostring)
    (convert : gostring -> T * error) : T * error :=
  convert (os.Getenv env key).

(** [MustGetT]. *)
Definition MustGetT {T : Type} (env : Env) (key : gostring)
    (convert : gostring -> T * error) : Res T :=
  let '(value, e) := GetT env key convert in
  match e with
  | None => Ret value
  | Some e => Panic (PanicError e)
  end.

(** [GetTOr]. *)
Definition GetTOr {T : Type} (env : Env) (key : gostring)
    (convert : gostring -> T * error) (defaultValue : T) : T * error :=
  match os.LookupEnv env key with
  | Some value =>
      let '(value, e) := convert value in
      match e with
      | Some e => (defaultValue, Some e)
      | None => (value, None)
      end
  | None => (defaultValue, None)
  end.

(** [GetInt]. *)
Definition GetInt (env : Env) (key : gostring) : Z * error :=
  GetT env key strconv.Atoi.

(** [GetInt64]. *)
Definition GetInt64 (env : Env) (key : gostring) : Z * error :=
  GetT env key (fun s => strconv.ParseInt s).

(** [GetUint64]. *)
Definition GetUint64 (env : Env) (key : gostring) : Z * error :=
  GetT env key (fun s => strconv.ParseUint s).

(** [GetBool]. *)
Definition GetBool (env : Env) (key : gostring) : bool * error :=
  GetT env key (fun s => strconv.ParseBool s).

(** [MustGetInt]. *)
Definition MustGetInt (env : Env) (key : gostring) : Res Z :=
  MustGetT env key strconv.Atoi.

(** [GetIntOr]. *)
Definition GetIntOr (env : Env) (key : gostring) (defaultValue : Z) : Z * error :=
  GetTOr env key strconv.Atoi defaultValue.

(** [MustGetInt64]. *)
Definition MustGetInt64 (env : Env) (key : gostring) : Res Z :=
  MustGetT env key (fun s => strconv.ParseInt s).

(** [GetInt64Or]. *)
Definition GetInt64Or (env : Env) (key : gostring) (defaultValue : Z) : Z * error :=
  GetTOr env key (fun s => strconv.ParseInt s) defaultValue.

(** [MustGetUint64]. *)
Definition MustGetUint64 (env : Env) (key : gostring) : Res Z :=
  MustGetT env key (fun s => strconv.ParseUint s).

(** [GetUint64Or]. *)
Definition GetUint64Or (env : Env) (key : gostring) (defaultValue : Z) : Z * error :=
  GetTOr env key (fun s => strconv.ParseUint s) defaultValue.

(** [MustGetBool]. *)
Definition MustGetBool (env : Env) (key : gostring) : Res bool :=
  MustGetT env key (fun s => strconv.ParseBool s).

(** [GetBoolOr]. *)
Definition GetBoolOr (env : Env) (key : gostring) (defaultValue : bool) : bool * error :=
  GetTOr env key (fun s => strconv.ParseBool s) defaultValue.

(** [GetStrings]. *)
Definition GetStrings (env : Env) (key : gostring) : list gostring * error :=
  GetT env key (fun s => (strings.Split s ",", None)).

(** [MustGetStrings]. *)
Definition MustGetStrings (env : Env) (key : gostring) : Res (list gostring) :=
  MustGetT env key (fun s => (strings.Split s ",", None)).

(** [GetStringsOr].  The converter looks the key up again when the
    value is empty. *)
Definition GetStringsOr (env : Env) (key : gostring) (defaultValue : list gostring)
    : list gostring * error :=
  GetTOr env key
    (fun s =>
       if (len s =? 0) && negb (bool_decide (is_Some (os.LookupEnv env key))) then
         ([], Some (ErrorString (str "env not found")))
       else (strings.Split s ",", None))
    defaultValue.

(** The getters whose converters are floating-point and JSON decoding:
    [strconv.ParseFloat(s, 64)] and [json.Unmarshal] into a value of
    type [T] that starts as the zero value of [T]. *)
Section Decoders.

Variable float64 : Type.
Variable ParseFloat : gostring -> float64 * error.

(** [GetFloat64]. *)
Definition GetFloat64 (env : Env) (key : gostring) : float64 * error :=
  GetT env key (fun s => ParseFloat s).

Variable T : Type.
Variable zero_value : T.
Variable Unmarshal : gostring -> T -> T * error.

(** [GetJSON]. *)
Definition GetJSON (env : Env) (key : gostring) : T * error :=
  GetT env key
    (fun s =>
       let '(value, e) := Unmarshal s zero_value in
       match e with
       | Some e => (value, Some e)
       | None => (value, None)
       end).

(** The converter that [GetJSON], [MustGetJSON] and [GetJSONOr] share. *)
Definition unmarshal_value (s : gostring) : T * error :=
  let '(value, e) := Unmarshal s zero_value in
  match e with
  | Some e => (value, Some e)
  | None => (value, None)
  end.

(** [MustGetJSON]. *)
Definition MustGetJSON (env : Env) (key : gostring) : Res T :=
  MustGetT env key unmarshal_value.

(** [GetJSONOr]. *)
Definition GetJSONOr (env : Env) (key : gostring) (defaultValue : T) : T * error :=
  GetTOr env key unmarshal_value defaultValue.

(** [MustGetFloat64]. *)
Definition MustGetFloat64 (env : Env) (key : gostring) : Res float64 :=
  MustGetT env key (fun s => ParseFloat s).

(** [GetFloat64Or]. *)
Definition GetFloat64Or (env : Env) (key : gostring) (defaultValue : float64)
    : float64 * error :=
  GetTOr env key (fun s => ParseFloat s) defaultValue.

(** [strconv.FormatFloat(value, 'f', -1, 64)] and [json.Marshal]. *)
Variable FormatFloat : float64 -> gostring.
Variable Marshal : T -> gostring * error.

(** [SetFloat64]. *)
Definition SetFloat64 (key : gostring) (value : float64) (env : Env) : Env * error :=
  os.Setenv key (FormatFloat value) env.

(** [SetJSON]. *)
Definition SetJSON (key : gostring) (value : T) (env : Env) : Env * error :=
  let '(b, e) := Marshal value in
  match e with
  | Some e => (env, Some e)
  | None => os.Setenv key b env
  end.

End Decoders.

(** *** Expansion *)

(** The variables of the function literal in [Expand] that the scan
    over the placeholder body updates. *)
Record scan_state := Scan {
  envKeys : list gostring;
  startIndex : Z;
  withDefault : bool
}.

(** The body of [for i, b := range key]. *)
Definition scan_body (key : gostring) (i b : Z) (st : scan_state) : Res scan_state :=
  if b =? byte_val "|" then
    prev ← index key (i - 1);
    if negb (byte_eqb prev "\") then
      seg ← slice key (startIndex st) i;
      Ret (Scan (envKeys st ++ [seg]) (i + 1) true)
    else Ret st
  else Ret st.

(** [for _, envKey := range envKeys]: the value of the first key that
    is set, else [defaultValue]. *)
Fixpoint lookup_keys (env : Env) (envKeys : list gostring) (defaultValue : gostring)
    : gostring :=
  match envKeys with
  | [] => defaultValue
  | envKey :: rest =>
      match os.LookupEnv env envKey with
      | Some lookupEnv => lookupEnv
      | None => lookup_keys env rest defaultValue
      end
  end.

(** The function literal that [Expand] passes to [os.Expand]: the
    value of one placeholder body. *)
Definition Expand_func1 (env : Env) (key : gostring) : Res gostring :=
  let key := strings.TrimSpace key in
  c0 ← index key 0;
  '(withDefault0, key) ←
    (if byte_eqb c0 "|" then key' ← slice_from key 1; Ret (true, key')
     else Ret (false, key));
  st ← range_string key (scan_body key) (Scan [] 0 withDefault0);
  '(envKeys, defaultValue) ←
    (if negb (withDefault st) then Ret (envKeys st ++ [key], [])
     else
       rest ← slice_from key (startIndex st);
       Ret (envKeys st, strings.ReplaceAll rest (str "\|") (str "|")));
  Ret (lookup_keys env envKeys defaultValue).

(** [Expand]. *)
Definition Expand (env : Env) (key : gostring) : Res gostring :=
  os.Expand key (Expand_func1 env).

(** *** Loading files *)

Section Loader.

(** [godotenv.Read] on the files as they are: the pairs of a file in
    the order in which the [range] over the map visits them, and the
    error. *)
Variable Read : gostring -> list (gostring * gostring) * error.

(** The keys of [os.Environ()], the set [currentKeys] of [Load]. *)
Fixpoint current_keys (current : list gostring) (currentKeys : gset gostring)
    : Res (gset gostring) :=
  match current with
  | [] => Ret currentKeys
  | v :: rest =>
      let kv := strings.SplitN2 v "=" in
      match kv with
      | k :: _ => current_keys rest ({[k]} ∪ currentKeys)
      | [] => Panic (IndexOutOfRange 0 0)
      end
  end.

(** [for k, v := range envMap] in [Load]. *)
Fixpoint Load_entries (currentKeys : gset gostring)
    (envMap : list (gostring * gostring)) (env : Env) : Env * Res error :=
  match envMap with
  | [] => (env, Ret None)
  | (k, v) :: rest =>
      if decide (k ∈ currentKeys) then Load_entries currentKeys rest env
      else
        match Expand env v with
        | Panic p => (env, Panic p)
        | Ret v =>
            match Set_ k v env with
            | (env, Some e) => (env, Ret (Some e))
            | (env, None) => Load_entries currentKeys rest env
            end
        end
  end.

(** [for _, filename := range filenames] in [Load]. *)
Fixpoint Load_files (currentKeys : gset gostring)
    (filenames : list gostring) (env : Env) : Env * Res error :=
  match filenames with
  | [] => (env, Ret None)
  | filename :: rest =>
      match Read filename with
      | (_, Some e) => (env, Ret (Some e))
      | (envMap, None) =>
          match Load_entries currentKeys envMap env with
          | (env, Ret None) => Load_files currentKeys rest env
          | stopped => stopped
          end
      end
  end.

(** [Load]: the environment after the call, and what the call
    returns. *)
Definition Load (filenames : list gostring) (env : Env) : Env * Res error :=
  let filenames :=
    if (length filenames =? 0)%nat then filenames ++ [str ".env"] else filenames in
  match current_keys (os.Environ env) ∅ with
  | Panic p => (env, Panic p)
  | Ret currentKeys => Load_files currentKeys filenames env
  end.

(** [for k, v := range envMap] in [Override]. *)
Fixpoint Override_entries (envMap : list (gostring * gostring)) (env : Env)
    : Env * Res error :=
  match envMap with
  | [] => (env, Ret None)
  | (k, v) :: rest =>
      match os.Expand v (Expand env) with
      | Panic p => (env, Panic p)
      | Ret v =>
          match Set_ k v env with
          | (env, Some e) => (env, Ret (Some e))
          | (env, None) => Override_entries rest env
          end
      end
  end.

(** [Override]. *)
Fixpoint Override (filenames : list gostring) (env : Env) : Env * Res error :=
  match filenames with
  | [] => (env, Ret None)
  | filename :: rest =>
      match Read filename with
      | (_, Some e) => (env, Ret (Some e))
      | (envMap, None) =>
          match Override_entries envMap env with
          | (env, Ret None) => Override rest env
          | stopped => stopped
          end
      end
  end.

End Loader.

End env.

(** ** The placeholder grammar, as the specification words it

    The processing algorithm of section 4.1: the body is trimmed; a
    leading ['|'] marks "has default" and is stripped; every ['|'] not
    preceded by a backslash ends a segment; all segments but the last are
    candidate keys and, when a ['|'] was found, the last one is the
    default value; otherwise the whole body is the only candidate key.
    A literal ['|'] in a key or in the default value is written [\|] and
    is unescaped before use (section 3): the key that is looked up and
    the default that is returned hold no escape backslash. *)

Module Spec.

(** The segments of [s] between its unescaped bars; [escaped] tells
    whether the byte before [s] is a backslash. *)
Fixpoint segments (escaped : bool) (s : gostring) : list gostring :=
  match s with
  | [] => [[]]
  | c :: rest =>
      if byte_eqb c "|" && negb escaped then [] :: segments false rest
      else
        match segments (byte_eqb c "\") rest with
        | seg :: segs => (c :: seg) :: segs
        | [] => [[c]]
        end
  end.

(** Each backslash followed by a bar becomes the bar alone. *)
Fixpoint unescape (s : gostring) : gostring :=
  match s with
  | [] => []
  | c :: rest =>
      match rest with
      | d :: rest' =>
          if byte_eqb c "\" && byte_eqb d "|" then d :: unescape rest'
          else c :: unescape rest
      | [] => [c]
      end
  end.

Record key_spec := KeySpec {
  candidates : list gostring;
  default_value : option gostring
}.

(** Steps 2 to 4, on the trimmed body: the candidate keys as they are
    written in the body, escapes not yet undone. *)
Definition written_keys (body : gostring) : list gostring :=
  let '(marked, body) :=
    match body with
    | c :: rest => if byte_eqb c "|" then (true, rest) else (false, body)
    | [] => (false, body)
    end in
  let segs := segments false body in
  if marked || (1 <? length segs)%nat then removelast segs else [body].

(** The default value as it is written, when the body has one. *)
Definition written_default (body : gostring) : option gostring :=
  let '(marked, body) :=
    match body with
    | c :: rest => if byte_eqb c "|" then (true, rest) else (false, body)
    | [] => (false, body)
    end in
  let segs := segments false body in
  if marked || (1 <? length segs)%nat then Some (List.last segs []) else None.

(** The key specification of a trimmed body: the keys and the default
    value, unescaped. *)
Definition parse (body : gostring) : key_spec :=
  KeySpec (unescape <$> written_keys body) (unescape <$> written_default body).

(** The value of the first candidate key that is set. *)
Fixpoint first_set (env : Env) (keys : list gostring) : option gostring :=
  match keys with
  | [] => None
  | k :: rest =>
      match os.LookupEnv env k with
      | Some v => Some v
      | None => first_set env rest
      end
  end.

(** Step 5. *)
Definition resolve (env : Env) (ks : key_spec) : gostring :=
  match first_set env (candidates ks) with
  | Some v => v
  | None => default [] (default_value ks)
  end.

(** A byte after a dollar sign with which [os.Expand] starts a name:
    an opening brace, a shell special character, a letter, a digit or
    an underscore. *)
Definition starts_name (c : ascii) : bool :=
  byte_eqb c "{" || os.isShellSpecialVar c || os.isAlphaNum c.

(** No dollar sign of [s] is followed by a byte that starts a name. *)
Fixpoint literal_dollars (s : gostring) : bool :=
  match s with
  | [] => true
  | c :: rest =>
      match rest with
      | d :: _ => negb (byte_eqb c "$" && starts_name d)
      | [] => true
      end && literal_dollars rest
  end.

End Spec.

(** ** The key specification that the code reads

    What the function literal of [Expand] makes of a trimmed body, in
    closed form: it looks up the segments as they are written, escape
    backslash included, and undoes the escapes of the default value
    only. *)
Definition read_body (body : gostring) : Spec.key_spec :=
  let '(marked, body) :=
    match body with
    | c :: rest => if byte_eqb c "|" then (true, rest) else (false, body)
    | [] => (false, body)
    end in
  let segs := Spec.segments false body in
  if marked || (1 <? length segs)%nat then
    Spec.KeySpec (removelast segs) (Some (Spec.unescape (List.last segs [])))
  else Spec.KeySpec [body] None.

(** ** The scan of a placeholder body, byte by byte

    What the [range] loop of [Expand] computes, read off the bytes of the
    key after offset [i]; [escaped] tells whether the byte at [i - 1] is a
    backslash. *)

Fixpoint scan_bytes (key : gostring) (escaped : bool) (rest : gostring) (i : Z)
    (st : env.scan_state) : env.scan_state :=
  match rest with
  | [] => st
  | c :: rest' =>
      if byte_eqb c "|" && negb escaped then
        scan_bytes key false rest' (i + 1)
          (env.Scan
             (env.envKeys st
                ++ [take (Z.to_nat (i - env.startIndex st))
                         (drop (Z.to_nat (env.startIndex st)) key)])
             (i + 1) true)
      else scan_bytes key (byte_eqb c "\") rest' (i + 1) st
  end.

(** [x] put in front of the first segment. *)
Definition prepend (x : gostring) (segs : list gostring) : list gostring :=
  match segs with
  | seg :: segs' => (x ++ seg) :: segs'
  | [] => [x]
  end.

(** Whether the last byte of [s] is a backslash. *)
Definition ends_with_backslash (s : gostring) : bool :=
  match last s with
  | Some c => byte_eqb c "\"
  | None => false
  end.

(** ** The loader, as the specification words it *)

(** No key of the environment holds ['=']: in every entry of
    [os.Environ] the first ['='] ends the key. *)
Definition keys_well_formed (env : Env) : bool :=
  forallb (fun kv : gostring * gostring => negb (os.has_byte "=" kv.1))
          (map_to_list env).

(** [x] is the expansion, in some environment, of a value that one of
    the files gives the key [K]. *)
Definition expanded_file_value
    (Read : gostring -> list (gostring * gostring) * error)
    (files : list gostring) (K x : gostring) : Prop :=
  exists filename envMap v (e0 : Env),
    filename ∈ files /\ Read filename = (envMap, None)
    /\ (K, v) ∈ envMap /\ env.Expand e0 v = Ret x.

(** What [Load] keeps true of the environment [e], from the environment
    [env0] and the key snapshot [currentKeys] it started with: a key has
    the value it had at the start, or it is none of the snapshot's keys
    and has the expansion of one of its file values. *)
Definition load_inv
    (Read : gostring -> list (gostring * gostring) * error)
    (files : list gostring) (env0 : Env) (currentKeys : gset gostring)
    (e : Env) : Prop :=
  forall K,
    (e !! K = env0 !! K)
    \/ ((K ∉ currentKeys)
        /\ exists x, expanded_file_value Read files K x /\ e !! K = Some x).

(** The files that [Load] reads. *)
Definition loaded_files (filenames : list gostring) : list gostring :=
  match filenames with
  | [] => [str ".env"]
  | _ :: _ => filenames
  end.

(** A file reader for the examples: [".env"] holds the one pair
    [K=${HOME}], [".env.local"] the pair [PORT=8080], and no other file
    can be read. *)
Definition example_Read (filename : gostring) : list (gostring * gostring) * error :=
  if bool_decide (filename = str ".env") then ([(str "K", str "${HOME}")], None)
  else if bool_decide (filename = str ".env.local") then ([(str "PORT", str "8080")], None)
  else ([], Some (ForeignError (str "open: no such file or directory"))).

(** ** Templates piece by piece *)

(** What [os.Expand] returns from a state of its loop: the end of the
    function, after the loop. *)
Definition Expand_finish (s : gostring) (r : Res (option gostring * Z)) : Res gostring :=
  '(buf, i) ← r;
  match buf with
  | None => Ret s
  | Some buf => rest ← slice_from s i; Ret (buf ++ rest)
  end.

(** Whether the last byte of [s] is a dollar sign. *)
Definition ends_with_dollar (s : gostring) : bool :=
  match last s with
  | Some c => byte_eqb c "$"
  | None => false
  end.

(** A name that [os.Expand] reads after a dollar sign without braces:
    letters, digits and underscores, the first of them no digit. *)
Definition plain_name (name : gostring) : bool :=
  match name with
  | [] => false
  | c :: _ => negb (os.isShellSpecialVar c) && forallb os.isAlphaNum name
  end.

(** The text after a plain name does not continue it. *)
Definition ends_name (t : gostring) : bool :=
  match t with
  | [] => true
  | c :: _ => negb (os.isAlphaNum c)
  end.

(** ** Keys and values that [os.Setenv] takes *)

(** A key that [os.Setenv] accepts: not empty, without ['='] and NUL. *)
Definition valid_key (key : gostring) : bool :=
  negb (len key =? 0) && negb (os.has_byte "=" key) && negb (os.has_byte zero key).

(** The number of separators in a string. *)
Definition count_byte (c : ascii) (s : gostring) : nat :=
  length (filter (fun d => d = c) s).

(** ** Decimal numerals *)

(** An ASCII decimal digit. *)
Definition is_digit (c : ascii) : bool :=
  (byte_val "0" <=? byte_val c) && (byte_val c <=? byte_val "9").

(** The number that the digits [ds] write after the number [n]. *)
Fixpoint decimal_value (n : Z) (ds : gostring) : Z :=
  match ds with
  | [] => n
  | c :: ds' => decimal_value (n * 10 + (byte_val c - byte_val "0")) ds'
  end.

(** The digit for [d], [0 <= d <= 9]. *)
Definition digit_byte (d : Z) : ascii := ascii_of_N (Z.to_N (48 + d)).

(** ** What the files give

    The pairs of the files, in the order in which [Load] and [Override]
    visit them. *)
Definition file_entries
    (Read : gostring -> list (gostring * gostring) * error)
    (filenames : list gostring) : list (gostring * gostring) :=
  flat_map (fun filename => (Read filename).1) filenames.

(** Every file can be read. *)
Definition readable
    (Read : gostring -> list (gostring * gostring) * error)
    (filenames : list gostring) : Prop :=
  Forall (fun filename => (Read filename).2 = None) filenames.

(** The pair [kv] written to the environment. *)
Definition commit (e : Env) (kv : gostring * gostring) : Env :=
  <[kv.1 := kv.2]> e.

(** The pair [kv] written unless its key is a key of [env0]. *)
Definition commit_absent (env0 e : Env) (kv : gostring * gostring) : Env :=
  if decide (kv.1 ∈ dom env0) then e else commit e kv.

(** A pair that [os.Setenv] takes and whose value holds no dollar sign
    that starts a name. *)
Definition literal_entry (kv : gostring * gostring) : bool :=
  valid_key kv.1 && negb (os.has_byte zero kv.2) && Spec.literal_dollars kv.2.

(** What a loader has written, from the pairs [entries] and the key
    snapshot [ck]: pairs under keys of [entries] that [os.Setenv] takes
    and that are not in [ck]. *)
Definition written_from (ck : gset gostring) (entries : list (gostring * gostring))
    (written : list (gostring * gostring)) : Prop :=
  Forall (fun kv : gostring * gostring =>
            kv.1 ∈ entries.*1 /\ (kv.1 ∉ ck)
            /\ len kv.1 <> 0 /\ os.has_byte "=" kv.1 = false) written.

(* ===================================================================== *)
(** * Properties *)
(* ===================================================================== *)

(** ** Bytes and the UTF-8 decoder *)

Lemma byte_val_range c : 0 <= byte_val c < 256.
Proof.
  unfold byte_val. pose proof (N_ascii_bounded c). lia.
Qed.

Lemma byte_val_inj c d : byte_val c = byte_val d -> c = d.
Proof.
  unfold byte_val. intros H.
  rewrite <- (ascii_N_embedding c), <- (ascii_N_embedding d).
  f_equal. lia.
Qed.

Lemma byte_eqb_eq c d : byte_eqb c d = true <-> c = d.
Proof. apply Ascii.eqb_eq. Qed.

Lemma byte_eqb_neq c d : byte_eqb c d = false <-> c <> d.
Proof. apply Ascii.eqb_neq. Qed.

Lemma lor_ge_l a b : 0 <= a -> 0 <= b -> a <= Z.lor a b.
Proof.
  intros Ha Hb. pose proof (Z.sub_lor_l_same_r b a) as H.
  rewrite Z.lor_comm in H.
  assert (0 <= Z.land b (Z.lnot a)) by (apply Z.land_nonneg; auto).
  lia.
Qed.

Lemma land_mask_mod a : Z.land a 0x3F = a mod 64 /\ Z.land a 0x1F = a mod 32
  /\ Z.land a 0x0F = a mod 16 /\ Z.land a 0x07 = a mod 8.
Proof.
  repeat split.
  - apply (Z.land_ones a 6); lia.
  - apply (Z.land_ones a 5); lia.
  - apply (Z.land_ones a 4); lia.
  - apply (Z.land_ones a 3); lia.
Qed.

Lemma byte_at_cons c s k : byte_at (c :: s) (S k) = byte_at s k.
Proof. reflexivity. Qed.

Lemma first_cases b : 0 <= b < 256 ->
  (b < 0x80 /\ utf8.first b = utf8.as_) \/
  (0x80 <= b /\ utf8.first b = utf8.xx) \/
  (0xC2 <= b < 0xE0 /\ utf8.first b = utf8.s1) \/
  (b = 0xE0 /\ utf8.first b = utf8.s2) \/
  (0xE1 <= b < 0xF0 /\ utf8.first b = utf8.s3) \/
  (b = 0xED /\ utf8.first b = utf8.s4) \/
  (b = 0xF0 /\ utf8.first b = utf8.s5) \/
  (0xF1 <= b < 0xF4 /\ utf8.first b = utf8.s6) \/
  (b = 0xF4 /\ utf8.first b = utf8.s7).
Proof.
  intros Hb. unfold utf8.first.
  repeat (case_match; [ rewrite ?Z.ltb_lt, ?Z.eqb_eq in *; lia || (repeat (first [left; split; [lia|reflexivity] | right]); fail) | ]);
  rewrite ?Z.ltb_ge, ?Z.eqb_neq in *.
  all: try lia.
Qed.

Lemma byte_at_range s k : 0 <= byte_at s k < 256.
Proof. apply byte_val_range. Qed.

Lemma len_cons c (s : gostring) : len (c :: s) = len s + 1.
Proof. unfold len. simpl length. lia. Qed.

Lemma len_nonneg (s : gostring) : 0 <= len s.
Proof. unfold len. lia. Qed.

Ltac eval_first x :=
  replace (utf8.as_ <=? x) with false by reflexivity;
  let sz := eval vm_compute in (Z.land x 7) in
  change (Z.land x 7) with sz;
  let ar := eval vm_compute in (utf8.acceptRanges (Z.shiftr x 4)) in
  change (utf8.acceptRanges (Z.shiftr x 4)) with ar;
  let le2 := eval vm_compute in (sz <=? 2) in
  change (sz <=? 2) with le2;
  let le3 := eval vm_compute in (sz <=? 3) in
  try change (sz <=? 3) with le3;
  cbv iota; cbn [fst snd].

Ltac split_conds :=
  repeat match goal with
  | |- context [if ?a || ?b then _ else _] =>
      let E := fresh "E" in
      destruct (a || b) eqn:E;
      [ | apply orb_false_elim in E; destruct E ]
  | |- context [if ?a <? ?b then _ else _] =>
      destruct (Z.ltb_spec a b)
  end.

Ltac mlia := Z.div_mod_to_equations; lia.

Lemma rune2_not_bar s0 b1 :
  0xC2 <= s0 < 0xE0 -> 0 <= b1 ->
  Z.lor (Z.shiftl (Z.land s0 utf8.mask2) 6) (Z.land b1 utf8.maskx) <> 124.
Proof.
  intros H0 H1. unfold utf8.mask2, utf8.maskx.
  destruct (land_mask_mod s0) as (_ & -> & _).
  destruct (land_mask_mod b1) as (-> & _).
  rewrite Z.shiftl_mul_pow2 by mlia. change (2 ^ 6) with 64.
  assert (s0 mod 32 * 64 <= Z.lor (s0 mod 32 * 64) (b1 mod 64))
    by (apply lor_ge_l; mlia).
  mlia.
Qed.

Lemma rune3_not_bar s0 b1 b2 :
  0xE0 <= s0 < 0xF0 -> (s0 = 0xE0 -> 0xA0 <= b1) -> 0x80 <= b1 <= 0xBF -> 0 <= b2 ->
  Z.lor (Z.lor (Z.shiftl (Z.land s0 utf8.mask3) 12)
               (Z.shiftl (Z.land b1 utf8.maskx) 6))
        (Z.land b2 utf8.maskx) <> 124.
Proof.
  intros H0 HE H1 H2. unfold utf8.mask3, utf8.maskx.
  destruct (land_mask_mod s0) as (_ & _ & -> & _).
  destruct (land_mask_mod b1) as (-> & _).
  destruct (land_mask_mod b2) as (-> & _).
  rewrite !Z.shiftl_mul_pow2 by mlia.
  change (2 ^ 6) with 64. change (2 ^ 12) with 4096. try change (2 ^ 18) with 262144.
  set (A := s0 mod 16 * 4096). set (B := b1 mod 64 * 64). set (C := b2 mod 64).
  assert (0 <= A) by (subst A; mlia). assert (0 <= B) by (subst B; mlia).
  assert (0 <= C) by (subst C; mlia).
  assert (0 <= Z.lor A B) by (apply Z.lor_nonneg; mlia).
  assert (Z.lor A B <= Z.lor (Z.lor A B) C) by (apply lor_ge_l; mlia).
  assert (A <= Z.lor A B) by (apply lor_ge_l; mlia).
  assert (B <= Z.lor A B) by (rewrite Z.lor_comm; apply lor_ge_l; mlia).
  subst A B C. mlia.
Qed.

Lemma rune4_not_bar s0 b1 b2 b3 :
  0xF0 <= s0 < 0xF5 -> (s0 = 0xF0 -> 0x90 <= b1) -> 0x80 <= b1 <= 0xBF ->
  0 <= b2 -> 0 <= b3 ->
  Z.lor (Z.lor (Z.lor (Z.shiftl (Z.land s0 utf8.mask4) 18)
                      (Z.shiftl (Z.land b1 utf8.maskx) 12))
               (Z.shiftl (Z.land b2 utf8.maskx) 6))
        (Z.land b3 utf8.maskx) <> 124.
Proof.
  intros H0 HE H1 H2 H3. unfold utf8.mask4, utf8.maskx.
  destruct (land_mask_mod s0) as (_ & _ & _ & ->).
  destruct (land_mask_mod b1) as (-> & _).
  destruct (land_mask_mod b2) as (-> & _).
  destruct (land_mask_mod b3) as (-> & _).
  rewrite !Z.shiftl_mul_pow2 by mlia.
  change (2 ^ 6) with 64. change (2 ^ 12) with 4096. try change (2 ^ 18) with 262144.
  set (A := s0 mod 8 * 262144). set (B := b1 mod 64 * 4096).
  set (C := b2 mod 64 * 64). set (D := b3 mod 64).
  assert (0 <= A) by (subst A; mlia). assert (0 <= B) by (subst B; mlia).
  assert (0 <= C) by (subst C; mlia). assert (0 <= D) by (subst D; mlia).
  assert (0 <= Z.lor A B) by (apply Z.lor_nonneg; mlia).
  assert (0 <= Z.lor (Z.lor A B) C) by (apply Z.lor_nonneg; mlia).
  assert (Z.lor (Z.lor A B) C <= Z.lor (Z.lor (Z.lor A B) C) D) by (apply lor_ge_l; mlia).
  assert (Z.lor A B <= Z.lor (Z.lor A B) C) by (apply lor_ge_l; mlia).
  assert (A <= Z.lor A B) by (apply lor_ge_l; mlia).
  assert (B <= Z.lor A B) by (rewrite Z.lor_comm; apply lor_ge_l; mlia).
  subst A B C D. mlia.
Qed.

Lemma decode_props c t :
  (byte_val c < 128 ->
     utf8.DecodeRuneInString (c :: t) = (byte_val c, 1)) /\
  (128 <= byte_val c ->
     exists r w, utf8.DecodeRuneInString (c :: t) = (r, w) /\
       r <> 124 /\ 1 <= w <= len (c :: t) /\
       forall k, Z.of_nat k < w -> 128 <= byte_at (c :: t) k).
Proof.
  pose proof (byte_val_range c) as Hc.
  pose proof (len_nonneg t) as Ht.
  pose proof (byte_at_range (c :: t) 1) as Hb1.
  pose proof (byte_at_range (c :: t) 2) as Hb2.
  pose proof (byte_at_range (c :: t) 3) as Hb3.
  assert (Hk : forall k w, Z.of_nat k < w -> 128 <= byte_val c ->
            (2 <= w -> 128 <= byte_at (c :: t) 1) ->
            (3 <= w -> 128 <= byte_at (c :: t) 2) ->
            (4 <= w -> 128 <= byte_at (c :: t) 3) -> w <= 4 ->
            128 <= byte_at (c :: t) k).
  { intros k w Hk Hge H2 H3 H4 Hw.
    destruct k as [|[|[|[|k]]]]; [exact Hge | apply H2 | apply H3 | apply H4 | ]; lia. }
  unfold utf8.DecodeRuneInString.
  rewrite len_cons.
  replace (len t + 1 <? 1) with false by (symmetry; apply Z.ltb_ge; lia).
  change (byte_at (c :: t) 0) with (byte_val c).
  unfold utf8.locb, utf8.hicb in *.
  destruct (first_cases (byte_val c) Hc)
    as [[H1 ->]|[[H1 ->]|[[H1 ->]|[[H1 ->]|[[H1 ->]|[[H1 ->]|[[H1 ->]|[[H1 ->]|[H1 ->]]]]]]]]].
  1: { cbn. split; [auto | lia]. }
  1: { cbn. split; [lia |]. intros _. eexists _, _. split; [reflexivity |].
       unfold utf8.RuneError. repeat split; try lia.
       intros k Hk'. apply (Hk k 1); auto; lia. }
  all: split; [lia |]; intros _.
  1: eval_first utf8.s1.
  2: eval_first utf8.s2.
  3: eval_first utf8.s3.
  4: eval_first utf8.s4.
  5: eval_first utf8.s5.
  6: eval_first utf8.s6.
  7: eval_first utf8.s7.
  all: unfold utf8.locb, utf8.hicb.
  all: split_conds; eexists _, _; (split; [reflexivity |]);
      rewrite ?Z.ltb_ge in *; unfold utf8.RuneError;
      (split; [ | split; [lia | intros k Hk'; apply (Hk k _ Hk'); lia] ]).
  all: lazymatch goal with
       | |- Z.lor (Z.lor (Z.lor _ _) _) _ <> _ => apply rune4_not_bar; lia
       | |- Z.lor (Z.lor _ _) _ <> _ => apply rune3_not_bar; lia
       | |- Z.lor _ _ <> _ => apply rune2_not_bar; lia
       | |- _ => lia
       end.
Qed.

(** ** Indexing and slicing *)

Lemma len_app (s t : gostring) : len (s ++ t) = len s + len t.
Proof. unfold len. rewrite length_app. lia. Qed.

Lemma len_nil : len [] = 0.
Proof. reflexivity. Qed.

Lemma to_nat_len (s : gostring) : Z.to_nat (len s) = length s.
Proof. unfold len. lia. Qed.

Lemma drop_len_app (pre rest : gostring) :
  drop (Z.to_nat (len pre)) (pre ++ rest) = rest.
Proof. rewrite to_nat_len. apply drop_app_length. Qed.

Lemma index_ok (s : gostring) i c :
  0 <= i -> s !! Z.to_nat i = Some c -> index s i = Ret c.
Proof.
  intros Hi Hc. unfold index.
  assert (i < len s).
  { apply lookup_lt_Some in Hc. unfold len. lia. }
  replace (0 <=? i) with true by (symmetry; apply Z.leb_le; lia).
  replace (i <? len s) with true by (symmetry; apply Z.ltb_lt; lia).
  simpl. now rewrite Hc.
Qed.

Lemma index_middle (pre rest : gostring) c :
  index (pre ++ c :: rest) (len pre) = Ret c.
Proof.
  apply index_ok; [apply len_nonneg |].
  rewrite to_nat_len. apply list_lookup_middle. reflexivity.
Qed.

Lemma index_neg (s : gostring) i : i < 0 -> index s i = Panic (IndexOutOfRange i (len s)).
Proof.
  intros Hi. unfold index.
  replace (0 <=? i) with false by (symmetry; apply Z.leb_gt; lia). reflexivity.
Qed.

Lemma slice_ok (s : gostring) lo hi :
  0 <= lo <= hi -> hi <= len s ->
  slice s lo hi = Ret (take (Z.to_nat (hi - lo)) (drop (Z.to_nat lo) s)).
Proof.
  intros Hlo Hhi. unfold slice.
  replace (0 <=? lo) with true by (symmetry; apply Z.leb_le; lia).
  replace (lo <=? hi) with true by (symmetry; apply Z.leb_le; lia).
  replace (hi <=? len s) with true by (symmetry; apply Z.leb_le; lia).
  reflexivity.
Qed.

Lemma slice_from_ok (s : gostring) lo :
  0 <= lo <= len s -> slice_from s lo = Ret (drop (Z.to_nat lo) s).
Proof.
  intros Hlo. unfold slice_from. rewrite slice_ok by lia.
  f_equal. apply take_ge. rewrite length_drop. unfold len in *. lia.
Qed.

Lemma ends_with_backslash_snoc pre c :
  ends_with_backslash (pre ++ [c]) = byte_eqb c "\".
Proof. unfold ends_with_backslash. now rewrite last_snoc. Qed.

Lemma byte_val_bar c : (byte_val c =? byte_val "|") = byte_eqb c "|".
Proof.
  destruct (byte_eqb c "|") eqn:E.
  - apply byte_eqb_eq in E. subst. apply Z.eqb_refl.
  - apply byte_eqb_neq in E. apply Z.eqb_neq. intros H. apply E.
    now apply byte_val_inj.
Qed.

(** Bytes outside ASCII are neither bars nor backslashes: the scan
    passes over them. *)
Lemma scan_bytes_skip key sk : forall e rest i st,
  Forall (fun c => 128 <= byte_val c) sk ->
  scan_bytes key e (sk ++ rest) i st
  = scan_bytes key (match sk with [] => e | _ => false end) rest (i + len sk) st.
Proof.
  induction sk as [|c sk IH]; intros e rest i st Hsk.
  - simpl. rewrite len_nil. now rewrite Z.add_0_r.
  - inversion Hsk as [|? ? Hc Hsk']; subst.
    assert (byte_eqb c "|" = false) as E1.
    { apply byte_eqb_neq. intros ->. vm_compute in Hc. now apply Hc. }
    assert (byte_eqb c "\" = false) as E2.
    { apply byte_eqb_neq. intros ->. vm_compute in Hc. now apply Hc. }
    simpl. rewrite E1, E2. simpl. rewrite IH by assumption.
    rewrite len_cons. replace (i + 1 + len sk) with (i + (len sk + 1)) by lia.
    now destruct sk.
Qed.

Lemma ends_with_backslash_high pre sk :
  sk <> [] -> Forall (fun c => 128 <= byte_val c) sk ->
  ends_with_backslash (pre ++ sk) = false.
Proof.
  intros Hne Hsk. destruct (exists_last Hne) as (sk' & c & ->).
  rewrite app_assoc, ends_with_backslash_snoc.
  apply Forall_app in Hsk as [_ Hc]. inversion Hc as [|? ? Hc' _]; subst.
  apply byte_eqb_neq. intros ->. vm_compute in Hc'. now apply Hc'.
Qed.

(** ** The range loop of [Expand] visits every bar

    The loop ranges over runes, but a bar is one byte and no byte of a
    longer encoding equals it: the loop computes what a scan of the bytes
    computes. *)

Lemma scan_body_byte key i c st :
  env.scan_body key i (byte_val c) st
  = if byte_eqb c "|" then
      prev ← index key (i - 1);
      if negb (byte_eqb prev "\") then
        seg ← slice key (env.startIndex st) i;
        Ret (env.Scan (env.envKeys st ++ [seg]) (i + 1) true)
      else Ret st
    else Ret st.
Proof. unfold env.scan_body. now rewrite byte_val_bar. Qed.

Lemma scan_body_other key i r st :
  r <> 124 -> env.scan_body key i r st = Ret st.
Proof.
  intros Hr. unfold env.scan_body.
  now replace (r =? byte_val "|") with false by (symmetry; apply Z.eqb_neq; exact Hr).
Qed.

Lemma range_scan_bytes key :
  hd_error key <> Some "|"%char ->
  forall fuel pre rest st,
  key = pre ++ rest -> (length rest <= fuel)%nat ->
  0 <= env.startIndex st <= len pre ->
  range_string_from fuel key (len pre) (env.scan_body key) st
  = Ret (scan_bytes key (ends_with_backslash pre) rest (len pre) st).
Proof.
  intros Hhd. induction fuel as [|fuel IH]; intros pre rest st Hkey Hfuel Hsi.
  - destruct rest; [reflexivity | simpl in Hfuel; lia].
  - destruct rest as [|c rest].
    { simpl. rewrite app_nil_r in Hkey. subst key.
      now rewrite Z.ltb_irrefl. }
    cbn [range_string_from].
    assert (Hlen : len key = len pre + (len rest + 1))
      by (subst key; now rewrite len_app, len_cons).
    pose proof (len_nonneg rest) as Hrest. pose proof (len_nonneg pre) as Hpre.
    replace (len pre <? len key) with true by (symmetry; apply Z.ltb_lt; lia).
    replace (drop (Z.to_nat (len pre)) key) with (c :: rest)
      by (subst key; now rewrite drop_len_app).
    destruct (decode_props c rest) as [Hlow Hhigh].
    destruct (Z.lt_ge_cases (byte_val c) 128) as [Hc|Hc].
    + (* an ASCII byte: a rune of width one *)
      rewrite (Hlow Hc). cbv beta iota. rewrite scan_body_byte. cbn [scan_bytes].
      assert (Hnext : forall st', 0 <= env.startIndex st' <= len pre + 1 ->
                range_string_from fuel key (len pre + 1) (env.scan_body key) st'
                = Ret (scan_bytes key (byte_eqb c "\") rest (len pre + 1) st')).
      { intros st' Hst'.
        specialize (IH (pre ++ [c]) rest st').
        rewrite len_app, ends_with_backslash_snoc in IH.
        change (len [c]) with 1 in IH. apply IH.
        - now rewrite <- app_assoc.
        - simpl in Hfuel. lia.
        - lia. }
      destruct (byte_eqb c "|") eqn:Ebar; cbn [andb].
      * apply byte_eqb_eq in Ebar. subst c.
        destruct (exists_last (l := pre)) as (pre' & p & ->).
        { intros ->. apply Hhd. now subst key. }
        assert (index key (len (pre' ++ [p]) - 1) = Ret p) as ->.
        { subst key. rewrite len_app. change (len [p]) with 1.
          replace (len pre' + 1 - 1) with (len pre') by lia.
          rewrite <- !app_assoc. apply index_middle. }
        rewrite ends_with_backslash_snoc. cbn.
        destruct (byte_eqb p "\") eqn:Ebs; cbn.
        -- (* escaped: the bar belongs to the segment *)
           rewrite Hnext by lia.
           change (byte_eqb "|" "\") with false. reflexivity.
        -- rewrite slice_ok by lia. cbn.
           rewrite Hnext by (cbn; lia).
           change (byte_eqb "|" "\") with false.
           (* after an unescaped bar the scan restarts unescaped *)
           reflexivity.
      * cbn. apply Hnext. lia.
    + (* a byte outside ASCII: a rune that is no bar *)
      destruct (Hhigh Hc) as (r & w & -> & Hr & Hw & Hbytes).
      rewrite scan_body_other by exact Hr.
      cbn [mbind Res_bind].
      set (sk := take (Z.to_nat w) (c :: rest)).
      set (rest' := drop (Z.to_nat w) (c :: rest)).
      assert (Hsplit : c :: rest = sk ++ rest') by (symmetry; apply take_drop).
      assert (Hlsk : len sk = w).
      { unfold sk, len. rewrite length_take. unfold len in Hw. lia. }
      assert (Hsk : Forall (fun c => 128 <= byte_val c) sk).
      { apply Forall_lookup_2. intros k x Hx.
        assert (Hk : (k < Z.to_nat w)%nat).
        { apply lookup_lt_Some in Hx. unfold sk in Hx.
          rewrite length_take in Hx. lia. }
        unfold sk in Hx. rewrite lookup_take_lt in Hx by exact Hk.
        specialize (Hbytes k ltac:(lia)). unfold byte_at in Hbytes.
        now rewrite (nth_lookup_Some _ _ _ _ Hx) in Hbytes. }
      assert (Hne : sk <> []).
      { intros E. rewrite E in Hlsk. rewrite len_nil in Hlsk. lia. }
      rewrite Hsplit, scan_bytes_skip by exact Hsk.
      specialize (IH (pre ++ sk) rest' st).
      rewrite len_app, Hlsk, (ends_with_backslash_high _ _ Hne Hsk) in IH.
      destruct sk; [congruence |].
      rewrite Hlsk. apply IH.
      * rewrite <- app_assoc, <- Hsplit. exact Hkey.
      * assert (length (c :: rest) = length ((a :: sk) ++ rest'))%nat by now rewrite Hsplit.
        rewrite length_app in H. simpl in H, Hfuel. simpl. lia.
      * lia.
Qed.

(** ** The byte scan computes the segments of the specification *)

Lemma segments_nonempty e s : Spec.segments e s <> [].
Proof.
  revert e. induction s as [|c s IH]; intros e; simpl; [discriminate |].
  destruct (byte_eqb c "|" && negb e); [discriminate |].
  destruct (Spec.segments (byte_eqb c "\") s); discriminate.
Qed.

Lemma prepend_nil segs : segs <> [] -> prepend [] segs = segs.
Proof. destruct segs; [congruence | reflexivity]. Qed.

(** The byte scan cuts the key at the unescaped bars: with the open
    segment [key[startIndex:]] added, its keys are the segments of the
    specification. *)
Lemma scan_bytes_segments key : forall rest pre e st,
  key = pre ++ rest ->
  0 <= env.startIndex st <= len pre ->
  let st' := scan_bytes key e rest (len pre) st in
  env.envKeys st' ++ [drop (Z.to_nat (env.startIndex st')) key]
  = env.envKeys st
      ++ prepend (take (Z.to_nat (len pre - env.startIndex st))
                       (drop (Z.to_nat (env.startIndex st)) key))
                 (Spec.segments e rest)
  /\ env.withDefault st'
     = env.withDefault st || (1 <? length (Spec.segments e rest))%nat
  /\ 0 <= env.startIndex st' <= len key.
Proof.
  induction rest as [|c rest IH]; intros pre e st Hkey Hsi.
  - rewrite app_nil_r in Hkey. subst pre. cbn.
    rewrite orb_false_r, app_nil_r. repeat split; try lia.
    do 2 f_equal. symmetry. apply take_ge.
    rewrite length_drop. unfold len. lia.
  - assert (Hkey' : key = (pre ++ [c]) ++ rest) by now rewrite <- app_assoc.
    assert (Hlen' : len (pre ++ [c]) = len pre + 1) by now rewrite len_app.
    cbn [scan_bytes Spec.segments].
    destruct (byte_eqb c "|" && negb e) eqn:Ebar.
    + set (seg := take (Z.to_nat (len pre - env.startIndex st))
                       (drop (Z.to_nat (env.startIndex st)) key)).
      specialize (IH (pre ++ [c]) false
                     (env.Scan (env.envKeys st ++ [seg]) (len pre + 1) true) Hkey').
      rewrite Hlen' in IH. cbn in IH.
      destruct IH as (IH1 & IH2 & IH3); [lia |].
      rewrite IH1, IH2.
      replace (len pre + 1 - (len pre + 1)) with 0 by lia.
      rewrite take_0, prepend_nil by apply segments_nonempty.
      cbn. rewrite app_nil_r, <- app_assoc.
      pose proof (segments_nonempty false rest).
      destruct (Spec.segments false rest) eqn:Es; [congruence |].
      cbn. rewrite orb_true_r. repeat split; auto; lia.
    + specialize (IH (pre ++ [c]) (byte_eqb c "\") st Hkey').
      rewrite Hlen' in IH.
      destruct IH as (IH1 & IH2 & IH3); [lia |].
      cbn zeta. rewrite IH1, IH2.
      pose proof (segments_nonempty (byte_eqb c "\") rest).
      destruct (Spec.segments (byte_eqb c "\") rest) as [|seg segs] eqn:Es;
        [congruence |].
      cbn [prepend length].
      repeat split; auto; try lia.
      do 2 f_equal.
      replace (Z.to_nat (len pre + 1 - env.startIndex st))
        with (S (Z.to_nat (len pre - env.startIndex st))) by lia.
      erewrite take_S_r.
      * now rewrite <- app_assoc.
      * rewrite lookup_drop. subst key.
        replace (Z.to_nat (env.startIndex st) + Z.to_nat (len pre - env.startIndex st))%nat
          with (length pre) by (unfold len in *; lia).
        apply list_lookup_middle. reflexivity.
Qed.

(** ** The function literal of [Expand] *)

Lemma byte_eqb_sym c d : byte_eqb c d = byte_eqb d c.
Proof. apply Ascii.eqb_sym. Qed.

Lemma HasPrefix_nil s : strings.HasPrefix s [] = true.
Proof. now destruct s. Qed.

Lemma ReplaceAll_from_escape c d rest :
  strings.ReplaceAll_from (c :: d :: rest) 0 (str "\|") (str "|")
  = if byte_eqb c "\" && byte_eqb d "|"
    then "|"%char :: strings.ReplaceAll_from rest 0 (str "\|") (str "|")
    else c :: strings.ReplaceAll_from (d :: rest) 0 (str "\|") (str "|").
Proof.
  change (strings.ReplaceAll_from (c :: d :: rest) 0 (str "\|") (str "|"))
    with (if byte_eqb "\" c && (byte_eqb "|" d && strings.HasPrefix rest [])
          then "|"%char :: strings.ReplaceAll_from rest 0 (str "\|") (str "|")
          else c :: strings.ReplaceAll_from (d :: rest) 0 (str "\|") (str "|")).
  now rewrite HasPrefix_nil, andb_true_r, (byte_eqb_sym "\" c), (byte_eqb_sym "|" d).
Qed.

Lemma unescape_cons2 c d rest :
  Spec.unescape (c :: d :: rest)
  = if byte_eqb c "\" && byte_eqb d "|" then d :: Spec.unescape rest
    else c :: Spec.unescape (d :: rest).
Proof. reflexivity. Qed.

(** [strings.ReplaceAll(s, "\\|", "|")] undoes the escapes. *)
Lemma ReplaceAll_unescape s :
  strings.ReplaceAll s (str "\|") (str "|") = Spec.unescape s.
Proof.
  unfold strings.ReplaceAll.
  assert (H : forall n s, (length s <= n)%nat ->
            strings.ReplaceAll_from s 0 (str "\|") (str "|") = Spec.unescape s).
  { clear s. induction n as [|n IH]; intros s Hn.
    - destruct s; [reflexivity | simpl in Hn; lia].
    - destruct s as [|c [|d rest]]; [reflexivity | | ].
      + cbn. rewrite andb_false_r. reflexivity.
      + rewrite ReplaceAll_from_escape, unescape_cons2.
        destruct (byte_eqb c "\" && byte_eqb d "|") eqn:E.
        * apply andb_true_iff in E as [_ E]. apply byte_eqb_eq in E. subst d.
          f_equal. apply IH. simpl in Hn. lia.
        * f_equal. apply IH. simpl in *. lia. }
  apply (H (length s)). lia.
Qed.

Lemma lookup_keys_first_set env keys d :
  env.lookup_keys env keys d
  = match Spec.first_set env keys with Some v => v | None => d end.
Proof.
  induction keys as [|k keys IH]; [reflexivity |].
  simpl. destruct (os.LookupEnv env k); [reflexivity | exact IH].
Qed.

(** The scan of a whole key that does not start with a bar. *)
Lemma range_string_segments key wd :
  hd_error key <> Some "|"%char ->
  exists st,
    range_string key (env.scan_body key) (env.Scan [] 0 wd) = Ret st
    /\ env.envKeys st ++ [drop (Z.to_nat (env.startIndex st)) key]
       = Spec.segments false key
    /\ env.withDefault st = wd || (1 <? length (Spec.segments false key))%nat
    /\ 0 <= env.startIndex st <= len key.
Proof.
  intros Hhd. eexists. split.
  - unfold range_string.
    apply (range_scan_bytes key Hhd (length key) [] key); [reflexivity | lia |].
    change (len []) with 0. cbn. lia.
  - pose proof (scan_bytes_segments key key [] false (env.Scan [] 0 wd) eq_refl) as H.
    change (len []) with 0 in H. cbn in H. destruct H as (H1 & H2 & H3); [lia |].
    change (ends_with_backslash []) with false. change (len []) with 0.
    rewrite H1, H2. repeat split; try lia.
    apply prepend_nil, segments_nonempty.
Qed.

(** The value that the function literal of [Expand] gives a placeholder
    body, unless the trimmed body is empty or starts with two bars: the
    resolution of the key specification with the keys as written. *)
Lemma Expand_func1_resolve env body :
  strings.TrimSpace body <> [] ->
  strings.HasPrefix (strings.TrimSpace body) (str "||") = false ->
  env.Expand_func1 env body
  = Ret (Spec.resolve env (read_body (strings.TrimSpace body))).
Proof.
  intros Hne Hbars. unfold env.Expand_func1.
  destruct (strings.TrimSpace body) as [|c0 key'] eqn:Ekey; [congruence |].
  rewrite (index_ok _ 0 c0) by (reflexivity || lia).
  cbn [mbind Res_bind].
  unfold read_body, Spec.resolve.
  assert (Hfinish : forall key marked,
    hd_error key <> Some "|"%char ->
    (st ← range_string key (env.scan_body key) (env.Scan [] 0 marked);
     '(envKeys, defaultValue) ←
       (if negb (env.withDefault st) then Ret (env.envKeys st ++ [key], [])
        else
          rest ← slice_from key (env.startIndex st);
          Ret (env.envKeys st, strings.ReplaceAll rest (str "\|") (str "|")));
     Ret (env.lookup_keys env envKeys defaultValue))
    = Ret (match Spec.first_set env
                   (Spec.candidates
                      (if marked || (1 <? length (Spec.segments false key))%nat
                       then Spec.KeySpec (removelast (Spec.segments false key))
                              (Some (Spec.unescape (List.last (Spec.segments false key) [])))
                       else Spec.KeySpec [key] None)) with
           | Some v => v
           | None =>
               default []
                 (Spec.default_value
                    (if marked || (1 <? length (Spec.segments false key))%nat
                     then Spec.KeySpec (removelast (Spec.segments false key))
                            (Some (Spec.unescape (List.last (Spec.segments false key) [])))
                     else Spec.KeySpec [key] None))
           end)).
  { intros key marked Hhd.
    destruct (range_string_segments key marked Hhd) as (st & -> & Hsegs & Hwd & Hsi).
    cbn [mbind Res_bind]. rewrite Hwd, <- Hsegs.
    rewrite removelast_last, last_last.
    set (segs := env.envKeys st ++ [drop (Z.to_nat (env.startIndex st)) key]).
    destruct (marked || (1 <? length segs)%nat) eqn:Ewd; cbn [negb].
    - rewrite slice_from_ok by lia. cbn [mbind Res_bind].
      rewrite lookup_keys_first_set, ReplaceAll_unescape. reflexivity.
    - apply orb_false_elim in Ewd as [_ Ewd].
      apply Nat.ltb_ge in Ewd. unfold segs in Ewd. rewrite length_app in Ewd. cbn in Ewd.
      destruct (env.envKeys st); [| simpl in Ewd; lia].
      cbn [mbind Res_bind app]. rewrite lookup_keys_first_set. reflexivity. }
  destruct (byte_eqb c0 "|") eqn:Ebar.
  - rewrite slice_from_ok by (rewrite len_cons; pose proof (len_nonneg key'); lia).
    cbn [mbind Res_bind]. change (drop (Z.to_nat 1) (c0 :: key')) with key'.
    apply (Hfinish key' true).
    apply byte_eqb_eq in Ebar. subst c0.
    destruct key' as [|c1 key'']; [discriminate |].
    cbn in Hbars. rewrite HasPrefix_nil, andb_true_r in Hbars.
    cbn. intros [= ->]. discriminate.
  - cbn [mbind Res_bind]. apply (Hfinish (c0 :: key') false).
    cbn. intros [= ->]. discriminate.
Qed.

(** ** A template that is one placeholder *)

Lemma has_byte_false c s : os.has_byte c s = false <-> Forall (fun d => d <> c) s.
Proof.
  unfold os.has_byte. induction s as [|d s IH]; simpl.
  - split; [constructor | reflexivity].
  - rewrite orb_false_iff, IH, Forall_cons, byte_eqb_neq. intuition congruence.
Qed.

Lemma has_byte_app c s t :
  os.has_byte c (s ++ t) = os.has_byte c s || os.has_byte c t.
Proof. apply existsb_app. Qed.

Lemma index_cons c (s : gostring) i :
  0 < i -> index (c :: s) i = match index s (i - 1) with
                              | Ret d => Ret d
                              | Panic _ => Panic (IndexOutOfRange i (len (c :: s)))
                              end.
Proof.
  intros Hi. unfold index. rewrite len_cons.
  replace (0 <=? i) with true by (symmetry; apply Z.leb_le; lia).
  replace (0 <=? i - 1) with true by (symmetry; apply Z.leb_le; lia).
  replace (i - 1 <? len s) with (i <? len s + 1)
    by (apply eq_true_iff_eq; rewrite !Z.ltb_lt; lia).
  destruct (i <? len s + 1); cbn; [| reflexivity].
  replace (Z.to_nat i) with (S (Z.to_nat (i - 1))) by lia. cbn.
  now destruct (s !! Z.to_nat (i - 1)).
Qed.

(** The scan for the closing brace of ["{body}"] stops at the brace that
    follows the body. *)
Lemma scan_brace_body body :
  body <> [] -> os.has_byte "}" body = false ->
  forall rest pre fuel,
  body = pre ++ rest -> (length rest < fuel)%nat ->
  os.scan_brace fuel ("{"%char :: body ++ ["}"%char]) (len pre + 1)
  = Ret (body, len body + 2).
Proof.
  intros Hne Hbrace. set (s := "{"%char :: body ++ ["}"%char]).
  assert (Hlen : len s = len body + 2).
  { unfold s. rewrite len_cons, len_app. change (len ["}"%char]) with 1. lia. }
  induction rest as [|c rest IH]; intros pre fuel Hbody Hfuel.
  - rewrite app_nil_r in Hbody. subst pre.
    destruct fuel as [|fuel]; [simpl in Hfuel; lia |].
    cbn [os.scan_brace]. pose proof (len_nonneg body).
    replace (len body + 1 <? len s) with true by (symmetry; apply Z.ltb_lt; lia).
    assert (index s (len body + 1) = Ret "}"%char) as ->.
    { unfold s. change ("{"%char :: body ++ ["}"%char])
        with (("{"%char :: body) ++ "}"%char :: []).
      rewrite <- (len_cons "{"%char body). apply index_middle. }
    cbn [mbind Res_bind]. change (byte_eqb "}" "}") with true. cbv iota.
    assert (len body <> 0).
    { unfold len. destruct body; [congruence | simpl; lia]. }
    replace (len body + 1 =? 1) with false by (symmetry; apply Z.eqb_neq; lia).
    rewrite slice_ok by lia. cbn [mbind Res_bind]. do 2 f_equal.
    + unfold s. change (Z.to_nat 1) with 1%nat. cbn [drop].
      replace (Z.to_nat (len body + 1 - 1)) with (length body)
        by (unfold len; lia).
      apply take_app_length.
    + lia.
  - destruct fuel as [|fuel]; [simpl in Hfuel; lia |].
    cbn [os.scan_brace]. pose proof (len_nonneg pre). pose proof (len_nonneg rest).
    assert (len body = len pre + (len rest + 1))
      by (subst body; now rewrite len_app, len_cons).
    replace (len pre + 1 <? len s) with true by (symmetry; apply Z.ltb_lt; lia).
    assert (index s (len pre + 1) = Ret c) as ->.
    { unfold s. subst body.
      replace ("{"%char :: (pre ++ c :: rest) ++ ["}"%char])
        with (("{"%char :: pre) ++ c :: (rest ++ ["}"%char]))
        by (cbn; now rewrite <- app_assoc).
      rewrite <- (len_cons "{"%char pre). apply index_middle. }
    cbn [mbind Res_bind].
    assert (byte_eqb c "}" = false) as ->.
    { apply byte_eqb_neq. subst body. apply has_byte_false in Hbrace.
      apply Forall_app in Hbrace as [_ Hbrace].
      now inversion Hbrace. }
    specialize (IH (pre ++ [c]) fuel).
    rewrite len_app in IH. change (len [c]) with 1 in IH.
    apply IH; [now rewrite <- app_assoc | simpl in Hfuel; lia].
Qed.

(** The name of ["{body}..."] is [body]. *)
Lemma getShellName_braces body :
  body <> [] -> os.has_byte "}" body = false ->
  os.getShellName ("{"%char :: body ++ ["}"%char]) = Ret (body, len body + 2).
Proof.
  intros Hne Hbrace. unfold os.getShellName.
  set (s := "{"%char :: body ++ ["}"%char]).
  assert (Hlen : len s = len body + 2).
  { unfold s. rewrite len_cons, len_app. change (len ["}"%char]) with 1. lia. }
  rewrite (index_ok s 0 "{"%char) by (reflexivity || lia).
  cbn [mbind Res_bind]. change (byte_eqb "{" "{") with true. cbv iota.
  destruct body as [|c1 body']; [congruence |].
  assert (Hscan : os.scan_brace (length s) s 1 = Ret (c1 :: body', len (c1 :: body') + 2)).
  { apply (scan_brace_body (c1 :: body') Hne Hbrace (c1 :: body') []); [reflexivity |].
    unfold s. simpl. rewrite length_app. simpl. lia. }
  pose proof (len_nonneg body') as Hb. rewrite len_cons in Hlen.
  replace (2 <? len s) with true by (symmetry; apply Z.ltb_lt; lia).
  rewrite (index_ok s 1 c1) by (reflexivity || lia).
  cbn [mbind Res_bind].
  destruct body' as [|c2 body''].
  - rewrite (index_ok s 2 "}"%char) by (reflexivity || lia).
    cbn [mbind Res_bind Res_ret mret]. change (byte_eqb "}" "}") with true.
    rewrite andb_true_r.
    destruct (os.isShellSpecialVar c1); [| exact Hscan].
    reflexivity.
  - rewrite (index_ok s 2 c2) by (reflexivity || lia).
    cbn [mbind Res_bind].
    assert (byte_eqb c2 "}" = false) as ->.
    { apply byte_eqb_neq. apply has_byte_false in Hbrace.
      inversion Hbrace as [|? ? _ H2]; subst. now inversion H2. }
    rewrite andb_false_r. exact Hscan.
Qed.

(** A template that is one placeholder expands to what the mapping
    gives its body. *)
Lemma os_Expand_placeholder body mapping :
  body <> [] -> os.has_byte "}" body = false ->
  os.Expand (str "${" ++ body ++ str "}") mapping = mapping body.
Proof.
  intros Hne Hbrace. unfold os.Expand.
  change (str "${" ++ body ++ str "}") with ("$"%char :: "{"%char :: body ++ ["}"%char]).
  set (s := "$"%char :: "{"%char :: body ++ ["}"%char]).
  assert (Hlen : len s = len body + 3).
  { unfold s. rewrite !len_cons, len_app. change (len ["}"%char]) with 1. lia. }
  pose proof (len_nonneg body) as Hb.
  assert (Hl : length s = S (S (S (length body)))).
  { unfold s. simpl. rewrite length_app. simpl. lia. }
  rewrite Hl. cbn [os.Expand_loop].
  replace (0 <? len s) with true by (symmetry; apply Z.ltb_lt; lia).
  rewrite (index_ok s 0 "$"%char) by (reflexivity || lia).
  cbn [mbind Res_bind]. change (byte_eqb "$" "$") with true.
  replace (0 + 1 <? len s) with true by (symmetry; apply Z.ltb_lt; lia).
  cbn [andb]. rewrite slice_ok by lia. cbn [mbind Res_bind].
  rewrite slice_from_ok by lia. cbn [mbind Res_bind].
  change (drop (Z.to_nat (0 + 1)) s) with ("{"%char :: body ++ ["}"%char]).
  rewrite getShellName_braces by assumption. cbn [mbind Res_bind].
  assert (os.is_empty body = false) as ->.
  { unfold os.is_empty. apply Z.eqb_neq. unfold len.
    destruct body; [congruence | simpl; lia]. }
  cbn [andb].
  destruct (mapping body) as [v|p]; [| reflexivity].
  cbn [mbind Res_bind default take drop app].
  replace (0 + (len body + 2) + 1 <? len s) with false
    by (symmetry; apply Z.ltb_ge; lia).
  cbn [mbind Res_bind].
  rewrite slice_from_ok by lia. cbn [mbind Res_bind].
  change (Z.to_nat (0 - 0)) with 0%nat. rewrite take_0.
  rewrite drop_ge by (rewrite Hl; unfold len; lia).
  now rewrite app_nil_r.
Qed.

Lemma TrimSpace_nil : strings.TrimSpace [] = [].
Proof. reflexivity. Qed.

(** The value of a key specification, in the words of step 5: the value
    of the first candidate key that is set... *)
Lemma resolve_first_set (env : Env) (ks : Spec.key_spec) ks1 k ks2 v :
  Spec.candidates ks = ks1 ++ k :: ks2 ->
  Forall (fun k' => os.LookupEnv env k' = None) ks1 ->
  os.LookupEnv env k = Some v ->
  Spec.resolve env ks = v.
Proof.
  intros Hks Hunset Hk. unfold Spec.resolve. rewrite Hks. clear Hks.
  induction Hunset as [|k' ks1 Hk' _ IH]; cbn [app Spec.first_set].
  - now rewrite Hk.
  - now rewrite Hk'.
Qed.

(** ... and, when none is set, the default value if there is one and the
    empty string otherwise. *)
Lemma resolve_none_set (env : Env) (ks : Spec.key_spec) :
  Forall (fun k => os.LookupEnv env k = None) (Spec.candidates ks) ->
  Spec.resolve env ks = default [] (Spec.default_value ks).
Proof.
  intros Hunset. unfold Spec.resolve.
  induction Hunset as [|k ks' Hk _ IH]; cbn [Spec.first_set]; [reflexivity |].
  now rewrite Hk.
Qed.

(** C1.  [Expand] does not try the candidate keys of section 4.1 when
    a key is written with an escaped bar: it looks the key up with its
    backslash.  The body [KEY\|_SUFFIX|default] has the one candidate
    key [KEY|_SUFFIX] and, with that variable set to ["v"], resolves to
    ["v"], where [Expand] returns the default.  With [A|B] and [C] both
    set, the body [A\|B|C|d] resolves to the value of [A|B], the first
    key listed, where [Expand] returns the value of [C]. *)
Theorem Expand_misses_escaped_candidate :
  let env1 : Env := <[str "KEY|_SUFFIX" := str "v"]> ∅ in
  let env2 : Env := <[str "A|B" := str "1"]> (<[str "C" := str "2"]> ∅) in
  Spec.parse (strings.TrimSpace (str "KEY\|_SUFFIX|default"))
  = Spec.KeySpec [str "KEY|_SUFFIX"] (Some (str "default"))
  /\ Spec.resolve env1 (Spec.parse (strings.TrimSpace (str "KEY\|_SUFFIX|default")))
     = str "v"
  /\ env.Expand env1 (str "${KEY\|_SUFFIX|default}") = Ret (str "default")
  /\ Spec.parse (strings.TrimSpace (str "A\|B|C|d"))
     = Spec.KeySpec [str "A|B"; str "C"] (Some (str "d"))
  /\ Spec.resolve env2 (Spec.parse (strings.TrimSpace (str "A\|B|C|d"))) = str "1"
  /\ env.Expand env2 (str "${A\|B|C|d}") = Ret (str "2").
Proof.
  repeat split; vm_compute; reflexivity.
Qed.

(** The edge cases of section 4.1, with [KEY], [A] unset and [B] set to
    ["b"]. *)
Example Expand_edge_cases :
  let env : Env := <[str "B" := str "b"]> (<[str "V" := str "v"]> ∅) in
  env.Expand env (str "${V}") = Ret (str "v")
  /\ env.Expand env (str "${KEY}") = Ret []
  /\ env.Expand env (str "${KEY|default}") = Ret (str "default")
  /\ env.Expand env (str "${KEY|}") = Ret []
  /\ env.Expand env (str "${|default}") = Ret (str "default")
  /\ env.Expand env (str "${|}") = Ret []
  /\ env.Expand env (str "${A|KEY|default}") = Ret (str "default")
  /\ env.Expand env (str "${A|B|default}") = Ret (str "b")
  /\ env.Expand env (str "${KEY|default_val\|ue}") = Ret (str "default_val|ue").
Proof.
  repeat split; vm_compute; reflexivity.
Qed.

(** ** Text whose dollar signs start no name *)

(** After a dollar sign, a byte that starts no name gives the empty name
    and consumes nothing. *)
Lemma getShellName_no_name d rest :
  Spec.starts_name d = false ->
  os.getShellName (d :: rest) = Ret ([], 0).
Proof.
  unfold Spec.starts_name. intros H.
  apply orb_false_elim in H as [H Halnum].
  apply orb_false_elim in H as [Hbrace Hspecial].
  unfold os.getShellName.
  rewrite (index_ok (d :: rest) 0 d) by (reflexivity || lia).
  cbn [mbind Res_bind]. rewrite Hbrace, Hspecial.
  cbn [length os.scan_alnum].
  pose proof (len_nonneg rest).
  replace (0 <? len (d :: rest)) with true
    by (symmetry; apply Z.ltb_lt; rewrite len_cons; lia).
  rewrite (index_ok (d :: rest) 0 d) by (reflexivity || lia).
  cbn [mbind Res_bind]. rewrite Halnum.
  cbn [mbind Res_bind]. rewrite slice_ok by (rewrite ?len_cons; lia).
  reflexivity.
Qed.

(** The loop of [os.Expand] over a string whose dollar signs start no
    name: the buffer, once allocated, holds the bytes before [i]. *)
Lemma Expand_loop_literal s mapping : forall rest pre fuel buf i,
  s = pre ++ rest -> (length rest <= fuel)%nat ->
  Spec.literal_dollars rest = true ->
  0 <= i <= len pre ->
  default [] buf = take (Z.to_nat i) s -> (buf = None -> i = 0) ->
  exists buf' i',
    os.Expand_loop fuel s mapping buf i (len pre) = Ret (buf', i')
    /\ 0 <= i' <= len s
    /\ default [] buf' = take (Z.to_nat i') s
    /\ (buf' = None -> i' = 0).
Proof.
  induction rest as [|c rest IH]; intros pre fuel buf i Hs Hfuel Hlit Hi Hbuf Hnil.
  - rewrite app_nil_r in Hs. subst pre. exists buf, i.
    split; [| auto].
    destruct fuel; cbn [os.Expand_loop]; [reflexivity |].
    now rewrite Z.ltb_irrefl.
  - destruct fuel as [|fuel]; [simpl in Hfuel; lia |].
    cbn [os.Expand_loop].
    pose proof (len_nonneg pre) as Hpre. pose proof (len_nonneg rest) as Hrest.
    assert (Hlen : len s = len pre + (len rest + 1))
      by (subst s; now rewrite len_app, len_cons).
    replace (len pre <? len s) with true by (symmetry; apply Z.ltb_lt; lia).
    assert (index s (len pre) = Ret c) as -> by (subst s; apply index_middle).
    cbn [mbind Res_bind].
    assert (Hs' : s = (pre ++ [c]) ++ rest) by now rewrite <- app_assoc.
    assert (Hlen' : len (pre ++ [c]) = len pre + 1) by now rewrite len_app.
    assert (Hlit' : Spec.literal_dollars rest = true).
    { cbn [Spec.literal_dollars] in Hlit. now apply andb_true_iff in Hlit as [_ ?]. }
    destruct (byte_eqb c "$" && (len pre + 1 <? len s)) eqn:Edollar.
    + apply andb_true_iff in Edollar as [Ec Hnext].
      apply Z.ltb_lt in Hnext.
      destruct rest as [|d rest'].
      { change (len []) with 0 in Hlen. lia. }
      assert (Hd : Spec.starts_name d = false).
      { cbn [Spec.literal_dollars] in Hlit. rewrite Ec in Hlit.
        apply andb_true_iff in Hlit as [Hlit _].
        now destruct (Spec.starts_name d). }
      rewrite slice_ok by lia. cbn [mbind Res_bind].
      rewrite slice_from_ok by lia. cbn [mbind Res_bind].
      assert (drop (Z.to_nat (len pre + 1)) s = d :: rest') as ->.
      { rewrite <- Hlen', Hs'. apply drop_len_app. }
      rewrite getShellName_no_name by exact Hd.
      cbn [mbind Res_bind]. change (os.is_empty []) with true.
      change (0 <? 0) with false. cbn [andb mbind Res_bind].
      rewrite Z.add_0_r, <- Hlen'.
      apply IH; auto.
      * simpl in Hfuel |- *. lia.
      * lia.
      * cbn [default]. rewrite Hbuf.
        rewrite <- app_assoc.
        replace (take (Z.to_nat i) s
                   ++ take (Z.to_nat (len pre - i)) (drop (Z.to_nat i) s) ++ [c])
          with (take (Z.to_nat (len pre)) s ++ [c]).
        -- rewrite Hlen'. replace (Z.to_nat (len pre + 1)) with (S (Z.to_nat (len pre))) by lia.
           symmetry. apply take_S_r. rewrite to_nat_len. subst s.
           apply list_lookup_middle. reflexivity.
        -- rewrite app_assoc. f_equal.
           replace (Z.to_nat (len pre)) with (Z.to_nat i + Z.to_nat (len pre - i))%nat by lia.
           now rewrite take_take_drop.
      * discriminate.
    + rewrite <- Hlen'. apply IH; auto.
      * simpl in Hfuel. lia.
      * lia.
Qed.

(** ** Expansion: the claims about text, totality and escapes *)

(** C4, as amended.  [Expand] is the identity on every string in which
    no dollar sign is followed by a byte that starts a name (an opening
    brace, a shell special character, a letter, a digit or an
    underscore), whatever the environment holds; in particular on every
    string without a dollar sign. *)
Theorem Expand_identity_on_literal_text (env : Env) (s : gostring) :
  Spec.literal_dollars s = true ->
  env.Expand env s = Ret s.
Proof.
  intros Hlit. unfold env.Expand, os.Expand.
  destruct (Expand_loop_literal s (env.Expand_func1 env) s [] (length s) None 0)
    as (buf & i & Hloop & Hi & Hbuf & Hnil); auto; try (change (len []) with 0; lia).
  change (len []) with 0 in Hloop. rewrite Hloop.
  cbn [mbind Res_bind].
  destruct buf as [buf|]; [| reflexivity].
  rewrite slice_from_ok by lia. cbn [mbind Res_bind].
  change (buf = take (Z.to_nat i) s) in Hbuf.
  rewrite Hbuf. now rewrite take_drop.
Qed.

Lemma Expand_identity_on_literal_text_witness :
  Spec.literal_dollars (str "cost: 5$ or $ 5") = true
  /\ env.Expand ∅ (str "cost: 5$ or $ 5") = Ret (str "cost: 5$ or $ 5").
Proof.
  split; [reflexivity |].
  apply (Expand_identity_on_literal_text ∅ (str "cost: 5$ or $ 5")). reflexivity.
Defined.

(** A string without a dollar sign has no dollar sign that starts a
    name. *)
Lemma literal_dollars_no_dollar s :
  os.has_byte "$" s = false -> Spec.literal_dollars s = true.
Proof.
  induction s as [|c s IH]; [reflexivity |].
  unfold os.has_byte. cbn [existsb Spec.literal_dollars].
  intros H. apply orb_false_elim in H as [Hc Hs].
  rewrite byte_eqb_sym in Hc. rewrite Hc, (IH Hs).
  now destruct s.
Qed.

(** C4, as the specification states it, fails: ["$X"] holds no ["${"],
    yet [os.Expand] reads [X] as a variable name, and with [X] unset the
    result is the empty string. *)
Lemma Expand_identity_counterexample :
  strings.Contains (str "$X") (str "${") = false
  /\ env.Expand ∅ (str "$X") = Ret []
  /\ env.Expand ∅ (str "$X") <> Ret (str "$X").
Proof.
  split; [reflexivity |]. split; [reflexivity |]. discriminate.
Qed.

(** C2.  [Expand] is not total: a placeholder whose body is white space
    only makes it index an empty key, and one whose body starts with two
    bars makes it index the key at -1; both are run-time panics. *)
Theorem Expand_panics_on_malformed_body (env : Env) :
  env.Expand env (str "${ }") = Panic (IndexOutOfRange 0 0)
  /\ env.Expand env (str "${||x}") = Panic (IndexOutOfRange (-1) 2).
Proof.
  split; reflexivity.
Qed.

(** C3.  The escape is undone in the default value only: for the body
    [KEY\|_SUFFIX|default] the key that is looked up keeps its
    backslash, so the variable [KEY|_SUFFIX] is not found and the
    variable [KEY\|_SUFFIX] is. *)
Theorem Expand_keeps_escape_in_key :
  env.Expand (<[str "KEY|_SUFFIX" := str "v"]> ∅) (str "${KEY\|_SUFFIX|default}")
  = Ret (str "default")
  /\ env.Expand (<[str "KEY\|_SUFFIX" := str "w"]> ∅) (str "${KEY\|_SUFFIX|default}")
     = Ret (str "w")
  /\ env.Expand ∅ (str "${KEY|default_val\|ue}") = Ret (str "default_val|ue").
Proof.
  repeat split; vm_compute; reflexivity.
Qed.

(** ** The typed accessors *)

Lemma Split_nonempty s sep : strings.Split s sep <> [].
Proof.
  induction s as [|c s IH]; simpl; [discriminate |].
  destruct (byte_eqb c sep); [discriminate |].
  destruct (strings.Split s sep); [congruence | discriminate].
Qed.

(** A string without the separator is not cut. *)
Lemma Split_no_sep s sep :
  os.has_byte sep s = false -> strings.Split s sep = [s].
Proof.
  induction s as [|c s IH]; [reflexivity |].
  unfold os.has_byte. cbn [existsb strings.Split].
  intros H. apply orb_false_elim in H as [Hc Hs].
  rewrite byte_eqb_sym in Hc. rewrite Hc, (IH Hs). reflexivity.
Qed.

(** The first cut is at the first separator. *)
Lemma Split_app_sep x sep t :
  os.has_byte sep x = false ->
  strings.Split (x ++ sep :: t) sep = x :: strings.Split t sep.
Proof.
  induction x as [|c x IH].
  - intros _. cbn. replace (byte_eqb sep sep) with true; [reflexivity |].
    symmetry. now apply byte_eqb_eq.
  - unfold os.has_byte. cbn [existsb app strings.Split].
    intros H. apply orb_false_elim in H as [Hc Hx].
    rewrite byte_eqb_sym in Hc. rewrite Hc, (IH Hx). reflexivity.
Qed.

(** Splitting what [Join] produced gives the elements back, when there
    is an element and no element holds a comma. *)
Lemma Split_Join v :
  v <> [] ->
  forallb (fun x => negb (os.has_byte "," x)) v = true ->
  strings.Split (strings.Join v (str ",")) "," = v.
Proof.
  induction v as [|x v IH]; [congruence |].
  intros _ Hv. cbn [forallb] in Hv.
  apply andb_true_iff in Hv as [Hx Hv]. apply negb_true_iff in Hx.
  destruct v as [|y v].
  - cbn [strings.Join]. now apply Split_no_sep.
  - change (strings.Join (x :: y :: v) (str ","))
      with (x ++ ","%char :: strings.Join (y :: v) (str ",")).
    rewrite Split_app_sep by exact Hx. f_equal. apply IH; [discriminate | exact Hv].
Qed.

Lemma Setenv_ok key value env env' :
  os.Setenv key value env = (env', None) ->
  len key <> 0 /\ os.has_byte "=" key = false /\ env' = <[key := value]> env.
Proof.
  unfold os.Setenv.
  destruct (len key =? 0) eqn:E0; [discriminate |]. cbn [orb].
  destruct (os.has_byte "=" key); [discriminate |]. cbn [orb].
  destruct (os.has_byte zero key || os.has_byte zero value); [discriminate |].
  intros [= <-]. apply Z.eqb_neq in E0. auto.
Qed.

Lemma Setenv_failed key value env env' e :
  os.Setenv key value env = (env', Some e) -> env' = env.
Proof.
  unfold os.Setenv.
  destruct (_ || _); [| discriminate]. now intros [= <-].
Qed.

Lemma LookupEnv_nonempty env key :
  len key <> 0 -> os.LookupEnv env key = env !! key.
Proof.
  intros H. unfold os.LookupEnv.
  now replace (len key =? 0) with false by (symmetry; apply Z.eqb_neq; exact H).
Qed.

Lemma LookupEnv_Some env key v :
  os.LookupEnv env key = Some v -> len key <> 0 /\ env !! key = Some v.
Proof.
  unfold os.LookupEnv. destruct (len key =? 0) eqn:E; [discriminate |].
  apply Z.eqb_neq in E. auto.
Qed.

(** C8, as amended.  When [SetStrings(K, v)] succeeds for a list [v]
    that is not empty and whose elements hold no comma,
    [MustGetStrings(K)] returns [v]. *)
Theorem SetStrings_MustGetStrings_roundtrip
    (env env' : Env) (K : gostring) (v : list gostring) :
  v <> [] ->
  forallb (fun x => negb (os.has_byte "," x)) v = true ->
  env.SetStrings K v env = (env', None) ->
  env.MustGetStrings env' K = Ret v.
Proof.
  intros Hne Hv Hset. unfold env.SetStrings in Hset.
  apply Setenv_ok in Hset as (HK & _ & ->).
  unfold env.MustGetStrings, env.MustGetT, env.GetT, os.Getenv.
  rewrite LookupEnv_nonempty by exact HK.
  rewrite lookup_insert_eq. now rewrite Split_Join.
Qed.

Lemma SetStrings_MustGetStrings_roundtrip_witness :
  env.MustGetStrings (<[str "HOSTS" := str "a,b,c"]> ∅) (str "HOSTS")
  = Ret [str "a"; str "b"; str "c"].
Proof.
  apply (SetStrings_MustGetStrings_roundtrip ∅ _ (str "HOSTS") [str "a"; str "b"; str "c"]).
  - discriminate.
  - reflexivity.
  - reflexivity.
Defined.

(** C8, as the specification states it, fails on an element with a
    comma, on the empty list and on a key that [os.Setenv] refuses: the
    first comes back as two elements, the second as one empty string, and
    for the third nothing is stored. *)
Lemma SetStrings_roundtrip_counterexample :
  (let '(env', e) := env.SetStrings (str "K") [str "a,b"] ∅ in
   e = None
   /\ env.MustGetStrings env' (str "K") = Ret [str "a"; str "b"]
   /\ env.MustGetStrings env' (str "K") <> Ret [str "a,b"])
  /\ (let '(env', e) := env.SetStrings (str "K") [] ∅ in
      e = None
      /\ env.MustGetStrings env' (str "K") = Ret [[]]
      /\ env.MustGetStrings env' (str "K") <> Ret [])
  /\ (let '(env', e) := env.SetStrings (str "A=B") [str "a"] ∅ in
      e = Some (SyscallError (str "setenv") (str "invalid argument"))
      /\ env.MustGetStrings env' (str "A=B") = Ret [[]]
      /\ env.MustGetStrings env' (str "A=B") <> Ret [str "a"]).
Proof.
  repeat split; try reflexivity; vm_compute; discriminate.
Qed.

(** C9.  For a key that is not in the environment [GetT] applies the
    converter to the empty string, so the typed getters give what their
    converters give for it: a syntax error for the integers and the
    boolean, and the result of the decoder for floats and JSON. *)
Theorem GetT_unset_key (env : Env) (K : gostring) :
  env !! K = None ->
  (forall (T : Type) (f : gostring -> T * error), env.GetT env K f = f [])
  /\ env.GetInt env K = (0, Some (NumError (str "Atoi") [] ErrSyntax))
  /\ env.GetInt64 env K = (0, Some (NumError (str "ParseInt") [] ErrSyntax))
  /\ env.GetUint64 env K = (0, Some (NumError (str "ParseUint") [] ErrSyntax))
  /\ env.GetBool env K = (false, Some (NumError (str "ParseBool") [] ErrSyntax))
  /\ (forall (float64 : Type) (ParseFloat : gostring -> float64 * error),
        env.GetFloat64 float64 ParseFloat env K = ParseFloat [])
  /\ (forall (T : Type) (zero_value : T) (Unmarshal : gostring -> T -> T * error),
        env.GetJSON T zero_value Unmarshal env K = Unmarshal [] zero_value).
Proof.
  intros HK.
  assert (Hget : os.Getenv env K = []).
  { unfold os.Getenv, os.LookupEnv. destruct (len K =? 0); [reflexivity |].
    now rewrite HK. }
  assert (HT : forall (T : Type) (f : gostring -> T * error), env.GetT env K f = f []).
  { intros T f. unfold env.GetT. now rewrite Hget. }
  split; [exact HT |].
  unfold env.GetInt, env.GetInt64, env.GetUint64, env.GetBool,
    env.GetFloat64, env.GetJSON.
  repeat split; try (rewrite HT; reflexivity).
  - intros float64 ParseFloat. now rewrite HT.
  - intros T zero_value Unmarshal. rewrite HT.
    destruct (Unmarshal [] zero_value) as [value [e|]]; reflexivity.
Qed.

Lemma GetT_unset_key_witness :
  env.GetInt (<[str "PORT" := str "8080"]> ∅) (str "TIMEOUT")
  = (0, Some (NumError (str "Atoi") [] ErrSyntax)).
Proof.
  apply (GetT_unset_key (<[str "PORT" := str "8080"]> ∅) (str "TIMEOUT")).
  vm_compute. reflexivity.
Defined.

(** C10.  [GetStringsOr] returns no error: the default for a key that is
    not set, the split value for one that is; the converter's
    ["env not found"] branch cannot be taken, as the converter runs only
    after the lookup has succeeded. *)
Theorem GetStringsOr_never_fails (env : Env) (key : gostring) (d : list gostring) :
  env.GetStringsOr env key d
  = match os.LookupEnv env key with
    | Some value => (strings.Split value ",", None)
    | None => (d, None)
    end.
Proof.
  unfold env.GetStringsOr, env.GetTOr.
  destruct (os.LookupEnv env key) as [value|] eqn:E; [| reflexivity].
  rewrite bool_decide_eq_true_2 by (now exists value).
  cbn [negb]. now rewrite andb_false_r.
Qed.

(** ** Loading files *)

Lemma SplitN2_nonempty s sep : strings.SplitN2 s sep <> [].
Proof.
  induction s as [|c s IH]; simpl; [discriminate |].
  destruct (byte_eqb c sep); [discriminate |].
  destruct (strings.SplitN2 s sep); [congruence | discriminate].
Qed.

(** An entry ["key=value"] is cut after its key. *)
Lemma SplitN2_entry k v :
  os.has_byte "=" k = false ->
  strings.SplitN2 (k ++ str "=" ++ v) "=" = [k; v].
Proof.
  induction k as [|c k IH]; [reflexivity |].
  unfold os.has_byte. cbn [existsb app strings.SplitN2].
  intros H. apply orb_false_elim in H as [Hc Hk].
  rewrite byte_eqb_sym in Hc. rewrite Hc, (IH Hk). reflexivity.
Qed.

(** The scan of [os.Environ()] does not panic, and collects the key of
    every well-formed entry. *)
Lemma current_keys_collects current : forall acc,
  exists ck, env.current_keys current acc = Ret ck
    /\ acc ⊆ ck
    /\ forall k v, os.has_byte "=" k = false ->
         k ++ str "=" ++ v ∈ current -> k ∈ ck.
Proof.
  induction current as [|entry current IH]; intros acc.
  - exists acc. split; [reflexivity |]. split; [set_solver |].
    intros k v _ H. inversion H.
  - cbn [env.current_keys].
    pose proof (SplitN2_nonempty entry "=") as Hne.
    destruct (strings.SplitN2 entry "=") as [|k0 kv] eqn:Ekv; [congruence |].
    destruct (IH ({[k0]} ∪ acc)) as (ck & Hck & Hacc & Hkeys).
    exists ck. split; [exact Hck |]. split; [set_solver |].
    intros k v Hk Hin. apply elem_of_cons in Hin as [<- | Hin].
    + rewrite SplitN2_entry in Ekv by exact Hk.
      injection Ekv as <- _. set_solver.
    + eauto.
Qed.

Lemma Environ_entry (env : Env) k v :
  env !! k = Some v -> k ++ str "=" ++ v ∈ os.Environ env.
Proof.
  intros H. unfold os.Environ. apply list_elem_of_fmap.
  exists (k, v). split; [reflexivity |]. now apply elem_of_map_to_list.
Qed.

Lemma keys_well_formed_lookup (env : Env) k v :
  keys_well_formed env = true -> env !! k = Some v -> os.has_byte "=" k = false.
Proof.
  unfold keys_well_formed. rewrite forallb_forall. intros Hwf Hk.
  apply negb_true_iff. apply (Hwf (k, v)).
  apply list_elem_of_In. now apply elem_of_map_to_list.
Qed.

Section LoadInvariant.

Variable Read : gostring -> list (gostring * gostring) * error.
Variable files : list gostring.
Variable env0 : Env.
Variable currentKeys : gset gostring.

Lemma load_inv_start : load_inv Read files env0 currentKeys env0.
Proof. intros K. now left. Qed.

Lemma Load_entries_inv filename envMap :
  filename ∈ files -> Read filename = (envMap, None) ->
  forall entries e,
  entries ⊆ envMap -> load_inv Read files env0 currentKeys e ->
  load_inv Read files env0 currentKeys (env.Load_entries currentKeys entries e).1.
Proof.
  intros Hfile Hread. induction entries as [|[k v] entries IH]; intros e Hsub He.
  - exact He.
  - assert (Hsub' : entries ⊆ envMap) by set_solver.
    cbn [env.Load_entries].
    destruct (decide (k ∈ currentKeys)) as [Hk|Hk]; [now apply IH |].
    destruct (env.Expand e v) as [x|p] eqn:Ex; [| exact He].
    unfold env.Set_.
    destruct (os.Setenv k x e) as [e' [err|]] eqn:Eset.
    + apply Setenv_failed in Eset. now subst e'.
    + apply Setenv_ok in Eset as (_ & _ & ->).
      apply IH; [exact Hsub' |].
      intros K. destruct (decide (K = k)) as [->|Hne].
      * right. split; [exact Hk |]. exists x.
        split; [| apply lookup_insert_eq].
        exists filename, envMap, v, e. repeat split; auto. set_solver.
      * rewrite lookup_insert_ne by congruence. apply He.
Qed.

Lemma Load_files_inv : forall filenames e,
  filenames ⊆ files -> load_inv Read files env0 currentKeys e ->
  load_inv Read files env0 currentKeys
    (env.Load_files Read currentKeys filenames e).1.
Proof.
  induction filenames as [|filename filenames IH]; intros e Hsub He.
  - exact He.
  - cbn [env.Load_files].
    destruct (Read filename) as [envMap [err|]] eqn:Eread; [exact He |].
    pose proof (Load_entries_inv filename envMap ltac:(set_solver) Eread
                  envMap e ltac:(set_solver) He) as He'.
    destruct (env.Load_entries currentKeys envMap e) as [e' [[err|]|p]];
      cbn [fst] in *; auto.
    apply IH; [set_solver | exact He'].
Qed.

End LoadInvariant.

Lemma Load_files_app Read ck fs1 fs2 env :
  env.Load_files Read ck (fs1 ++ fs2) env
  = match env.Load_files Read ck fs1 env with
    | (env1, Ret None) => env.Load_files Read ck fs2 env1
    | stopped => stopped
    end.
Proof.
  revert env. induction fs1 as [|f fs1 IH]; intros env; [reflexivity |].
  cbn [app env.Load_files].
  destruct (Read f) as [envMap [err|]]; [reflexivity |].
  destruct (env.Load_entries ck envMap env) as [e' [[err|]|p]]; auto.
Qed.

Lemma Override_app Read fs1 fs2 env :
  env.Override Read (fs1 ++ fs2) env
  = match env.Override Read fs1 env with
    | (env1, Ret None) => env.Override Read fs2 env1
    | stopped => stopped
    end.
Proof.
  revert env. induction fs1 as [|f fs1 IH]; intros env; [reflexivity |].
  cbn [app env.Override].
  destruct (Read f) as [envMap [err|]]; [reflexivity |].
  destruct (env.Override_entries envMap env) as [e' [[err|]|p]]; auto.
Qed.

Lemma Load_unfold Read filenames env :
  exists ck,
    env.current_keys (os.Environ env) ∅ = Ret ck
    /\ (forall k v, os.has_byte "=" k = false -> env !! k = Some v -> k ∈ ck)
    /\ env.Load Read filenames env
       = env.Load_files Read ck (loaded_files filenames) env.
Proof.
  destruct (current_keys_collects (os.Environ env) ∅) as (ck & Hck & _ & Hkeys).
  exists ck. split; [exact Hck |]. split.
  - intros k v Hk Hkv. apply (Hkeys k v Hk). now apply Environ_entry.
  - unfold env.Load. rewrite Hck. destruct filenames; reflexivity.
Qed.

(** C6.  [Load] writes no key that is in the environment when it
    starts: whatever the files hold and however the call ends, a key
    that was set keeps its value, and a key whose value has changed was
    not set and now has the expansion of a value that one of the files
    gives it. *)
Theorem Load_keeps_present_keys
    (Read : gostring -> list (gostring * gostring) * error)
    (filenames : list gostring) (env : Env) :
  keys_well_formed env = true ->
  let env' := (env.Load Read filenames env).1 in
  (forall K y, os.LookupEnv env K = Some y -> env.Get env' K = y)
  /\ (forall K,
        (env' !! K = env !! K)
        \/ (env !! K = None
            /\ exists x,
                 expanded_file_value Read (loaded_files filenames) K x
                 /\ env' !! K = Some x)).
Proof.
  intros Hwf env'.
  destruct (Load_unfold Read filenames env) as (ck & _ & Hck & Hload).
  assert (Hinv : load_inv Read (loaded_files filenames) env ck env').
  { unfold env'. rewrite Hload.
    apply Load_files_inv; [set_solver | apply load_inv_start]. }
  assert (Hpresent : forall K y, env !! K = Some y -> env' !! K = Some y).
  { intros K y HK. destruct (Hinv K) as [-> | [Hnot _]]; [exact HK |].
    exfalso. apply Hnot. apply (Hck K y); [| exact HK].
    now apply (keys_well_formed_lookup env K y). }
  split.
  - intros K y HK. apply LookupEnv_Some in HK as [Hne HK].
    unfold env.Get, os.Getenv. rewrite LookupEnv_nonempty by exact Hne.
    now rewrite (Hpresent K y HK).
  - intros K. destruct (Hinv K) as [HK | [Hnot Hx]]; [now left |].
    destruct (env !! K) as [y|] eqn:HK.
    + left. now apply Hpresent.
    + right. auto.
Qed.

Lemma Load_keeps_present_keys_witness :
  env.Get (env.Load example_Read []
             (<[str "K" := str "kept"]> (<[str "HOME" := str "/root"]> ∅))).1
          (str "K")
  = str "kept".
Proof.
  apply (Load_keeps_present_keys example_Read []
           (<[str "K" := str "kept"]> (<[str "HOME" := str "/root"]> ∅))).
  - vm_compute. reflexivity.
  - vm_compute. reflexivity.
Defined.

(** C7.  When the file after [fs1] cannot be read, [Load] returns the
    reader's error as it is and leaves the environment that loading the
    files of [fs1] left; and so does [Override], each on its own: what
    the other does with the files of [fs1] plays no part. *)
Theorem load_stops_at_unreadable_file
    (Read : gostring -> list (gostring * gostring) * error)
    (fs1 fs2 : list gostring) (f : gostring)
    (envMap : list (gostring * gostring)) (e : err) (env : Env) :
  Read f = (envMap, Some e) ->
  (forall envL,
     (fs1 = [] /\ envL = env)
     \/ (fs1 <> [] /\ env.Load Read fs1 env = (envL, Ret None)) ->
     env.Load Read (fs1 ++ f :: fs2) env = (envL, Ret (Some e)))
  /\ (forall envO,
        env.Override Read fs1 env = (envO, Ret None) ->
        env.Override Read (fs1 ++ f :: fs2) env = (envO, Ret (Some e))).
Proof.
  intros Hread. split.
  - intros envL Hload.
    destruct (Load_unfold Read (fs1 ++ f :: fs2) env) as (ck & Hck & _ & ->).
    assert (loaded_files (fs1 ++ f :: fs2) = fs1 ++ f :: fs2) as ->
      by now destruct fs1.
    rewrite Load_files_app.
    assert (env.Load_files Read ck fs1 env = (envL, Ret None)) as ->.
    { destruct Hload as [[-> ->] | [Hne Hload]]; [reflexivity |].
      unfold env.Load in Hload. rewrite Hck in Hload.
      destruct fs1; [congruence | exact Hload]. }
    cbn [env.Load_files]. now rewrite Hread.
  - intros envO Hover.
    rewrite Override_app, Hover. cbn [env.Override]. now rewrite Hread.
Qed.

Lemma load_stops_at_unreadable_file_witness :
  env.Load example_Read [str ".env.local"; str "missing"; str ".env"] ∅
  = (<[str "PORT" := str "8080"]> ∅,
     Ret (Some (ForeignError (str "open: no such file or directory"))))
  /\ env.Override example_Read [str ".env.local"; str "missing"; str ".env"] ∅
     = (<[str "PORT" := str "8080"]> ∅,
        Ret (Some (ForeignError (str "open: no such file or directory")))).
Proof.
  destruct (load_stops_at_unreadable_file example_Read
              [str ".env.local"] [str ".env"] (str "missing") []
              (ForeignError (str "open: no such file or directory")) ∅ eq_refl)
    as [HLoad HOverride].
  split.
  - apply (HLoad (<[str "PORT" := str "8080"]> ∅)).
    right. split; [discriminate | vm_compute; reflexivity].
  - apply (HOverride (<[str "PORT" := str "8080"]> ∅)).
    vm_compute. reflexivity.
Defined.

(** C5.  [Override] does not commit [Expand] of the file value: it
    passes [Expand] itself to [os.Expand] as the mapping, so a
    placeholder is replaced by its own body.  With [HOME] set to
    ["/root"], the file pair [K=${HOME}] sets [K] to ["HOME"] (and does
    replace the old value of [K]), where [Expand] gives ["/root"] and
    [Load], when [K] is not set, commits ["/root"]. *)
Theorem Override_commits_placeholder_body :
  let env0 : Env := <[str "K" := str "old"]> (<[str "HOME" := str "/root"]> ∅) in
  let env1 : Env := <[str "HOME" := str "/root"]> ∅ in
  env.Expand env0 (str "${HOME}") = Ret (str "/root")
  /\ (env.Override example_Read [str ".env"] env0).2 = Ret None
  /\ env.Get (env.Override example_Read [str ".env"] env0).1 (str "K") = str "HOME"
  /\ (env.Load example_Read [str ".env"] env1).2 = Ret None
  /\ env.Get (env.Load example_Read [str ".env"] env1).1 (str "K") = str "/root".
Proof.
  repeat split; vm_compute; reflexivity.
Qed.

(** ** The loops end before their fuel does

    Every loop of the model is given as much fuel as there are bytes
    ahead of it, and every iteration moves at least one byte on: more
    fuel does not change a result. *)

Lemma decode_width c t : 1 <= (utf8.DecodeRuneInString (c :: t)).2.
Proof.
  destruct (decode_props c t) as [Hlow Hhigh].
  destruct (Z.lt_ge_cases (byte_val c) 128) as [Hc|Hc].
  - rewrite (Hlow Hc). cbn. lia.
  - destruct (Hhigh Hc) as (r & w & -> & _ & Hw & _). cbn. lia.
Qed.

Lemma drop_lt_nonempty (s : gostring) i :
  0 <= i < len s -> exists c t, drop (Z.to_nat i) s = c :: t.
Proof.
  intros Hi. destruct (drop (Z.to_nat i) s) as [|c t] eqn:E; [| eauto].
  apply (f_equal length) in E. rewrite length_drop in E.
  unfold len in Hi. simpl in E. lia.
Qed.

Lemma range_string_from_fuel {St : Type} s (body : Z -> Z -> St -> Res St) :
  forall fuel fuel' i st,
  0 <= i -> len s - i <= Z.of_nat fuel -> len s - i <= Z.of_nat fuel' ->
  range_string_from fuel s i body st = range_string_from fuel' s i body st.
Proof.
  induction fuel as [|fuel IH]; intros fuel' i st Hi Hf Hf'.
  - destruct fuel'; [reflexivity |]. cbn [range_string_from].
    now replace (i <? len s) with false by (symmetry; apply Z.ltb_ge; lia).
  - cbn [range_string_from]. destruct (Z.ltb_spec i (len s)) as [Hlt|Hge].
    + destruct fuel' as [|fuel']; [lia |]. cbn [range_string_from].
      replace (i <? len s) with true by (symmetry; apply Z.ltb_lt; lia).
      destruct (drop_lt_nonempty s i ltac:(lia)) as (c & t & ->).
      pose proof (decode_width c t) as Hw.
      destruct (utf8.DecodeRuneInString (c :: t)) as [r w]. cbn [snd] in Hw.
      destruct (body i r st) as [st'|p]; [| reflexivity].
      cbn [mbind Res_bind]. apply IH; lia.
    + destruct fuel'; cbn [range_string_from]; [reflexivity |].
      now replace (i <? len s) with false by (symmetry; apply Z.ltb_ge; lia).
Qed.

Lemma scan_brace_fuel s : forall fuel fuel' i,
  len s - i <= Z.of_nat fuel -> len s - i <= Z.of_nat fuel' ->
  os.scan_brace fuel s i = os.scan_brace fuel' s i.
Proof.
  induction fuel as [|fuel IH]; intros fuel' i Hf Hf'.
  - destruct fuel'; [reflexivity |]. cbn [os.scan_brace].
    now replace (i <? len s) with false by (symmetry; apply Z.ltb_ge; lia).
  - cbn [os.scan_brace]. destruct (Z.ltb_spec i (len s)) as [Hlt|Hge].
    + destruct fuel' as [|fuel']; [lia |]. cbn [os.scan_brace].
      replace (i <? len s) with true by (symmetry; apply Z.ltb_lt; lia).
      destruct (index s i) as [c|p]; [| reflexivity].
      cbn [mbind Res_bind]. destruct (byte_eqb c "}"); [reflexivity |].
      apply IH; lia.
    + destruct fuel'; cbn [os.scan_brace]; [reflexivity |].
      now replace (i <? len s) with false by (symmetry; apply Z.ltb_ge; lia).
Qed.

Lemma scan_alnum_fuel s : forall fuel fuel' i,
  len s - i <= Z.of_nat fuel -> len s - i <= Z.of_nat fuel' ->
  os.scan_alnum fuel s i = os.scan_alnum fuel' s i.
Proof.
  induction fuel as [|fuel IH]; intros fuel' i Hf Hf'.
  - destruct fuel'; [reflexivity |]. cbn [os.scan_alnum].
    now replace (i <? len s) with false by (symmetry; apply Z.ltb_ge; lia).
  - cbn [os.scan_alnum]. destruct (Z.ltb_spec i (len s)) as [Hlt|Hge].
    + destruct fuel' as [|fuel']; [lia |]. cbn [os.scan_alnum].
      replace (i <? len s) with true by (symmetry; apply Z.ltb_lt; lia).
      destruct (index s i) as [c|p]; [| reflexivity].
      cbn [mbind Res_bind]. destruct (os.isAlphaNum c); [| reflexivity].
      apply IH; lia.
    + destruct fuel'; cbn [os.scan_alnum]; [reflexivity |].
      now replace (i <? len s) with false by (symmetry; apply Z.ltb_ge; lia).
Qed.

Lemma scan_brace_width s : forall fuel i name w,
  1 <= i -> os.scan_brace fuel s i = Ret (name, w) -> 1 <= w.
Proof.
  induction fuel as [|fuel IH]; intros i name w Hi; cbn [os.scan_brace].
  - intros [= _ <-]. lia.
  - destruct (i <? len s); [| intros [= _ <-]; lia].
    destruct (index s i) as [c|p]; [| discriminate].
    cbn [mbind Res_bind]. destruct (byte_eqb c "}").
    + destruct (i =? 1); [intros [= _ <-]; lia |].
      destruct (slice s 1 i); [| discriminate].
      cbn [mbind Res_bind]. intros [= _ <-]. lia.
    + apply IH. lia.
Qed.

Lemma scan_alnum_ge s : forall fuel i j,
  os.scan_alnum fuel s i = Ret j -> i <= j.
Proof.
  induction fuel as [|fuel IH]; intros i j; cbn [os.scan_alnum].
  - intros [= <-]. lia.
  - destruct (i <? len s); [| intros [= <-]; lia].
    destruct (index s i) as [c|p]; [| discriminate].
    cbn [mbind Res_bind]. destruct (os.isAlphaNum c); [| intros [= <-]; lia].
    intros H. apply IH in H. lia.
Qed.

(** [getShellName] consumes no negative number of bytes. *)
Lemma getShellName_width s name w :
  os.getShellName s = Ret (name, w) -> 0 <= w.
Proof.
  unfold os.getShellName.
  destruct (index s 0) as [c0|p]; [| discriminate]. cbn [mbind Res_bind].
  destruct (byte_eqb c0 "{").
  - destruct (_ : Res bool) as [[|]|p]; [| | discriminate]; cbn [mbind Res_bind].
    + destruct (slice s 1 2); [| discriminate]. cbn [mbind Res_bind].
      intros [= _ <-]. lia.
    + intros H. apply scan_brace_width in H; lia.
  - destruct (os.isShellSpecialVar c0).
    + destruct (slice s 0 1); [| discriminate]. cbn [mbind Res_bind].
      intros [= _ <-]. lia.
    + destruct (os.scan_alnum (length s) s 0) as [i|p] eqn:E; [| discriminate].
      cbn [mbind Res_bind]. apply scan_alnum_ge in E.
      destruct (slice s 0 i); [| discriminate]. cbn [mbind Res_bind].
      intros [= _ <-]. lia.
Qed.

Lemma Expand_loop_fuel s mapping : forall fuel fuel' buf i j,
  len s - j <= Z.of_nat fuel -> len s - j <= Z.of_nat fuel' ->
  os.Expand_loop fuel s mapping buf i j = os.Expand_loop fuel' s mapping buf i j.
Proof.
  induction fuel as [|fuel IH]; intros fuel' buf i j Hf Hf'.
  - destruct fuel'; [reflexivity |]. cbn [os.Expand_loop].
    now replace (j <? len s) with false by (symmetry; apply Z.ltb_ge; lia).
  - cbn [os.Expand_loop]. destruct (Z.ltb_spec j (len s)) as [Hlt|Hge].
    + destruct fuel' as [|fuel']; [lia |]. cbn [os.Expand_loop].
      replace (j <? len s) with true by (symmetry; apply Z.ltb_lt; lia).
      destruct (index s j) as [c|p]; [| reflexivity]. cbn [mbind Res_bind].
      destruct (byte_eqb c "$" && (j + 1 <? len s)); [| apply IH; lia].
      destruct (slice s i j) as [pre|p]; [| reflexivity]. cbn [mbind Res_bind].
      destruct (slice_from s (j + 1)) as [rest|p]; [| reflexivity].
      cbn [mbind Res_bind].
      destruct (os.getShellName rest) as [[name w]|p] eqn:Ename; [| reflexivity].
      apply getShellName_width in Ename. cbn [mbind Res_bind].
      destruct (_ : Res gostring) as [buf'|p]; [| reflexivity].
      cbn [mbind Res_bind]. apply IH; lia.
    + destruct fuel'; cbn [os.Expand_loop]; [reflexivity |].
      now replace (j <? len s) with false by (symmetry; apply Z.ltb_ge; lia).
Qed.

(** [os.Expand] with any fuel that covers the string. *)
Lemma os_Expand_fuel s mapping fuel :
  (length s <= fuel)%nat ->
  os.Expand s mapping
  = ('(buf, i) ← os.Expand_loop fuel s mapping None 0 0;
     match buf with
     | None => Ret s
     | Some buf => rest ← slice_from s i; Ret (buf ++ rest)
     end).
Proof.
  intros Hf. unfold os.Expand.
  rewrite (Expand_loop_fuel s mapping (length s) fuel); [reflexivity | |];
    unfold len; lia.
Qed.

Lemma last_rune_start_le s lim : forall fuel start,
  utf8.last_rune_start fuel s start lim <= start.
Proof.
  induction fuel as [|fuel IH]; intros start; cbn [utf8.last_rune_start]; [lia |].
  destruct (lim <=? start); [| lia].
  destruct (utf8.RuneStart _); [lia |].
  specialize (IH (start - 1)). lia.
Qed.

Lemma decode_last_width (s : gostring) :
  0 < len s -> 1 <= (utf8.DecodeLastRuneInString s).2.
Proof.
  intros Hs. unfold utf8.DecodeLastRuneInString.
  replace (len s =? 0) with false by (symmetry; apply Z.eqb_neq; lia).
  destruct (_ <? utf8.RuneSelf); [cbn; lia |].
  pose proof (last_rune_start_le s (Z.max (len s - utf8.UTFMax) 0) 4 (len s - 1 - 1)) as Hle.
  set (start := Z.max (utf8.last_rune_start 4 s (len s - 1 - 1) _) 0) in *.
  destruct (utf8.DecodeRuneInString _) as [r size].
  destruct (Z.eqb_spec (start + size) (len s)) as [E|E]; cbn [snd]; [| lia].
  unfold start in E. lia.
Qed.

Lemma indexFunc_from_fuel s f truth : forall fuel fuel' i,
  0 <= i -> len s - i <= Z.of_nat fuel -> len s - i <= Z.of_nat fuel' ->
  strings.indexFunc_from fuel s i f truth = strings.indexFunc_from fuel' s i f truth.
Proof.
  induction fuel as [|fuel IH]; intros fuel' i Hi Hf Hf'.
  - destruct fuel'; [reflexivity |]. cbn [strings.indexFunc_from].
    now replace (i <? len s) with false by (symmetry; apply Z.ltb_ge; lia).
  - cbn [strings.indexFunc_from]. destruct (Z.ltb_spec i (len s)) as [Hlt|Hge].
    + destruct fuel' as [|fuel']; [lia |]. cbn [strings.indexFunc_from].
      replace (i <? len s) with true by (symmetry; apply Z.ltb_lt; lia).
      destruct (drop_lt_nonempty s i ltac:(lia)) as (c & t & ->).
      pose proof (decode_width c t) as Hw.
      destruct (utf8.DecodeRuneInString (c :: t)) as [r w]. cbn [snd] in Hw.
      destruct (Bool.eqb (f r) truth); [reflexivity |]. apply IH; lia.
    + destruct fuel'; cbn [strings.indexFunc_from]; [reflexivity |].
      now replace (i <? len s) with false by (symmetry; apply Z.ltb_ge; lia).
Qed.

Lemma lastIndexFunc_from_fuel s f truth : forall fuel fuel' i,
  i <= len s -> i <= Z.of_nat fuel -> i <= Z.of_nat fuel' ->
  strings.lastIndexFunc_from fuel s i f truth
  = strings.lastIndexFunc_from fuel' s i f truth.
Proof.
  induction fuel as [|fuel IH]; intros fuel' i Hi Hf Hf'.
  - destruct fuel'; [reflexivity |]. cbn [strings.lastIndexFunc_from].
    now replace (0 <? i) with false by (symmetry; apply Z.ltb_ge; lia).
  - cbn [strings.lastIndexFunc_from]. destruct (Z.ltb_spec 0 i) as [Hlt|Hge].
    + destruct fuel' as [|fuel']; [lia |]. cbn [strings.lastIndexFunc_from].
      replace (0 <? i) with true by (symmetry; apply Z.ltb_lt; lia).
      assert (Hlen : len (take (Z.to_nat i) s) = i).
      { unfold len in *. rewrite length_take. lia. }
      pose proof (decode_last_width (take (Z.to_nat i) s) ltac:(lia)) as Hw.
      destruct (utf8.DecodeLastRuneInString _) as [r size]. cbn [snd] in Hw.
      destruct (Bool.eqb (f r) truth); [reflexivity |]. apply IH; lia.
    + destruct fuel'; cbn [strings.lastIndexFunc_from]; [reflexivity |].
      now replace (0 <? i) with false by (symmetry; apply Z.ltb_ge; lia).
Qed.

Lemma TrimSpace_start_fuel s : forall fuel fuel' start,
  len s - start <= Z.of_nat fuel -> len s - start <= Z.of_nat fuel' ->
  strings.TrimSpace_start fuel s start = strings.TrimSpace_start fuel' s start.
Proof.
  induction fuel as [|fuel IH]; intros fuel' start Hf Hf'.
  - destruct fuel'; [reflexivity |]. cbn [strings.TrimSpace_start].
    now replace (start <? len s) with false by (symmetry; apply Z.ltb_ge; lia).
  - cbn [strings.TrimSpace_start]. destruct (Z.ltb_spec start (len s)) as [Hlt|Hge].
    + destruct fuel' as [|fuel']; [lia |]. cbn [strings.TrimSpace_start].
      replace (start <? len s) with true by (symmetry; apply Z.ltb_lt; lia).
      destruct (utf8.RuneSelf <=? _); [reflexivity |].
      destruct (negb _); [reflexivity |]. apply IH; lia.
    + destruct fuel'; cbn [strings.TrimSpace_start]; [reflexivity |].
      now replace (start <? len s) with false by (symmetry; apply Z.ltb_ge; lia).
Qed.

Lemma TrimSpace_stop_fuel s start : forall fuel fuel' stop,
  stop - start <= Z.of_nat fuel -> stop - start <= Z.of_nat fuel' ->
  strings.TrimSpace_stop fuel s start stop = strings.TrimSpace_stop fuel' s start stop.
Proof.
  induction fuel as [|fuel IH]; intros fuel' stop Hf Hf'.
  - destruct fuel'; [reflexivity |]. cbn [strings.TrimSpace_stop].
    now replace (start <? stop) with false by (symmetry; apply Z.ltb_ge; lia).
  - cbn [strings.TrimSpace_stop]. destruct (Z.ltb_spec start stop) as [Hlt|Hge].
    + destruct fuel' as [|fuel']; [lia |]. cbn [strings.TrimSpace_stop].
      replace (start <? stop) with true by (symmetry; apply Z.ltb_lt; lia).
      destruct (utf8.RuneSelf <=? _); [reflexivity |].
      destruct (negb _); [reflexivity |]. apply IH; lia.
    + destruct fuel'; cbn [strings.TrimSpace_stop]; [reflexivity |].
      now replace (start <? stop) with false by (symmetry; apply Z.ltb_ge; lia).
Qed.

(** ** The bodies on which [Expand] panics

    The two conditions of [Expand_func1_resolve] are the only ways in
    which the function literal fails. *)

Lemma Expand_func1_blank (env : Env) (body : gostring) :
  strings.TrimSpace body = [] ->
  env.Expand_func1 env body = Panic (IndexOutOfRange 0 0).
Proof.
  intros H. unfold env.Expand_func1. now rewrite H.
Qed.

Lemma Expand_func1_two_bars (env : Env) (body rest : gostring) :
  strings.TrimSpace body = "|"%char :: "|"%char :: rest ->
  env.Expand_func1 env body = Panic (IndexOutOfRange (-1) (len rest + 1)).
Proof.
  intros H. unfold env.Expand_func1. rewrite H.
  rewrite (index_ok _ 0 "|"%char) by (reflexivity || lia).
  cbn [mbind Res_bind]. change (byte_eqb "|" "|") with true. cbv iota.
  pose proof (len_nonneg rest) as Hrest.
  rewrite slice_from_ok by (rewrite !len_cons; lia).
  cbn [mbind Res_bind]. change (drop (Z.to_nat 1) ("|"%char :: "|"%char :: rest))
    with ("|"%char :: rest).
  unfold range_string. cbn [length range_string_from].
  replace (0 <? len ("|"%char :: rest)) with true
    by (symmetry; apply Z.ltb_lt; rewrite len_cons; lia).
  change (drop (Z.to_nat 0) ("|"%char :: rest)) with ("|"%char :: rest).
  destruct (decode_props "|"%char rest) as [Hlow _].
  rewrite Hlow by (vm_compute; reflexivity).
  rewrite scan_body_byte. change (byte_eqb "|" "|") with true. cbv iota.
  rewrite index_neg by lia. rewrite len_cons. reflexivity.
Qed.

(** ** Decimal formatting and parsing *)

Lemma byte_val_digit_byte d : 0 <= d <= 9 -> byte_val (digit_byte d) = 48 + d.
Proof.
  intros Hd. unfold byte_val, digit_byte.
  rewrite N_ascii_embedding by lia. lia.
Qed.

Lemma is_digit_digit_byte d : 0 <= d <= 9 -> is_digit (digit_byte d) = true.
Proof.
  intros Hd. unfold is_digit. rewrite byte_val_digit_byte by exact Hd.
  change (byte_val "0") with 48. change (byte_val "9") with 57.
  apply andb_true_iff. split; apply Z.leb_le; lia.
Qed.

(** The table [smallsString] holds the two digits of every number below
    one hundred. *)
Lemma smallsString_digits k :
  0 <= k < 100 ->
  strconv.byte_of strconv.smallsString (k * 2) = digit_byte (k / 10)
  /\ strconv.byte_of strconv.smallsString (k * 2 + 1) = digit_byte (k mod 10).
Proof.
  intros Hk.
  assert (Hall : forallb (fun n : nat =>
            let k := Z.of_nat n in
            bool_decide (strconv.byte_of strconv.smallsString (k * 2) = digit_byte (k / 10))
            && bool_decide (strconv.byte_of strconv.smallsString (k * 2 + 1)
                            = digit_byte (k mod 10)))
            (seq 0 100) = true) by (vm_compute; reflexivity).
  rewrite forallb_forall in Hall.
  specialize (Hall (Z.to_nat k)).
  rewrite Z2Nat.id in Hall by lia. cbv zeta in Hall.
  assert (Hin : In (Z.to_nat k) (seq 0 100)) by (apply in_seq; lia).
  apply Hall in Hin. apply andb_true_iff in Hin as [H1 H2].
  apply bool_decide_eq_true in H1, H2. auto.
Qed.

Lemma digits_digit k :
  0 <= k < 10 -> strconv.byte_of strconv.digits k = digit_byte k.
Proof.
  intros Hk.
  assert (Hall : forallb (fun n : nat =>
            bool_decide (strconv.byte_of strconv.digits (Z.of_nat n)
                         = digit_byte (Z.of_nat n)))
            (seq 0 10) = true) by (vm_compute; reflexivity).
  rewrite forallb_forall in Hall.
  specialize (Hall (Z.to_nat k)). rewrite Z2Nat.id in Hall by lia.
  eapply bool_decide_eq_true_1, Hall, in_seq. lia.
Qed.

Lemma decimal_value_digit_byte n d ds :
  0 <= d <= 9 -> decimal_value n (digit_byte d :: ds) = decimal_value (n * 10 + d) ds.
Proof.
  intros Hd. cbn [decimal_value]. rewrite byte_val_digit_byte by exact Hd.
  change (byte_val "0") with 48. f_equal. lia.
Qed.

(** The digits written after a number do not make it smaller. *)
Lemma decimal_value_ge ds : forall n,
  0 <= n -> forallb is_digit ds = true -> n <= decimal_value n ds.
Proof.
  induction ds as [|c ds IH]; intros n Hn Hds; cbn [decimal_value]; [lia |].
  cbn [forallb] in Hds. apply andb_true_iff in Hds as [Hc Hds].
  unfold is_digit in Hc. apply andb_true_iff in Hc as [Hc1 Hc2].
  apply Z.leb_le in Hc1, Hc2. change (byte_val "9") with 57 in Hc2.
  change (byte_val "0") with 48 in *.
  specialize (IH (n * 10 + (byte_val c - 48)) ltac:(lia) Hds). lia.
Qed.

(** The pair loop keeps the number written and leaves less than one
    hundred. *)
Lemma formatBits_pairs_value : forall fuel us a,
  0 <= us < 100 ^ (Z.of_nat fuel + 1) ->
  forallb is_digit a = true ->
  let '(us', a') := strconv.formatBits_pairs fuel us a in
  0 <= us' < 100
  /\ forallb is_digit a' = true
  /\ decimal_value us' a' = decimal_value us a.
Proof.
  induction fuel as [|fuel IH]; intros us a Hus Ha.
  - cbn [strconv.formatBits_pairs]. change (100 ^ (Z.of_nat 0 + 1)) with 100 in Hus.
    auto.
  - cbn [strconv.formatBits_pairs].
    destruct (Z.leb_spec 100 us) as [Hge|Hlt]; [| repeat split; auto; lia].
    rewrite !Z.add_0_r.
    assert (Hr : 0 <= us mod 100 < 100) by (apply Z.mod_pos_bound; lia).
    destruct (smallsString_digits (us mod 100) Hr) as [-> ->].
    assert (Hd1 : 0 <= us mod 100 / 10 <= 9).
    { split; [apply Z.div_pos; lia |].
      assert (us mod 100 / 10 < 10) by (apply Z.div_lt_upper_bound; lia). lia. }
    assert (Hd0 : 0 <= us mod 100 mod 10 <= 9).
    { assert (0 <= us mod 100 mod 10 < 10) by (apply Z.mod_pos_bound; lia). lia. }
    specialize (IH (us / 100)
                   (digit_byte (us mod 100 / 10) :: digit_byte (us mod 100 mod 10) :: a)).
    destruct (strconv.formatBits_pairs fuel (us / 100) _) as [us' a'].
    destruct IH as (H1 & H2 & H3).
    + split; [apply Z.div_pos; lia |].
      apply Z.div_lt_upper_bound; [lia |].
      replace (Z.of_nat (S fuel) + 1) with (Z.succ (Z.of_nat fuel + 1)) in Hus by lia.
      rewrite Z.pow_succ_r in Hus by lia. lia.
    + cbn [forallb]. now rewrite !is_digit_digit_byte, Ha.
    + repeat split; auto; try lia. rewrite H3.
      rewrite !decimal_value_digit_byte by assumption. f_equal.
      pose proof (Z.div_mod us 100 ltac:(lia)).
      pose proof (Z.div_mod (us mod 100) 10 ltac:(lia)). lia.
Qed.

(** [formatBits] writes a number below [2^64] in decimal digits. *)
Lemma formatBits_unsigned u :
  0 <= u < 2 ^ 64 ->
  exists ds, strconv.formatBits u false = ds
    /\ ds <> [] /\ forallb is_digit ds = true /\ decimal_value 0 ds = u.
Proof.
  intros Hu. unfold strconv.formatBits.
  pose proof (formatBits_pairs_value 10 u []) as H.
  destruct (strconv.formatBits_pairs 10 u []) as [us a].
  destruct H as (Hus & Ha & Hval); [| reflexivity |].
  { change (100 ^ (Z.of_nat 10 + 1)) with 10000000000000000000000.
    change (2 ^ 64) with 18446744073709551616 in Hu. lia. }
  cbn [decimal_value] in Hval.
  destruct (smallsString_digits us Hus) as [E1 E2].
  assert (Hd1 : 0 <= us / 10 <= 9).
  { split; [apply Z.div_pos; lia |].
    assert (us / 10 < 10) by (apply Z.div_lt_upper_bound; lia). lia. }
  assert (Hd0 : 0 <= us mod 10 <= 9).
  { assert (0 <= us mod 10 < 10) by (apply Z.mod_pos_bound; lia). lia. }
  rewrite E1, E2. eexists. split; [reflexivity |].
  destruct (Z.leb_spec 10 us) as [Hge|Hlt].
  - split; [discriminate |]. split.
    + cbn [forallb]. now rewrite !is_digit_digit_byte, Ha.
    + rewrite !decimal_value_digit_byte by assumption. rewrite <- Hval. f_equal.
      pose proof (Z.div_mod us 10 ltac:(lia)). lia.
  - split; [discriminate |]. split.
    + cbn [forallb]. now rewrite is_digit_digit_byte, Ha.
    + rewrite decimal_value_digit_byte by assumption. rewrite <- Hval. f_equal.
      rewrite Z.mod_small by lia. lia.
Qed.

Lemma small_value i :
  0 <= i < 100 ->
  exists ds, strconv.small i = ds
    /\ ds <> [] /\ forallb is_digit ds = true /\ decimal_value 0 ds = i.
Proof.
  intros Hi. unfold strconv.small. eexists. split; [reflexivity |].
  destruct (Z.ltb_spec i 10) as [Hlt|Hge].
  - rewrite digits_digit by lia. split; [discriminate |]. split.
    + cbn [forallb]. now rewrite is_digit_digit_byte by lia.
    + rewrite decimal_value_digit_byte by lia. cbn. lia.
  - destruct (smallsString_digits i Hi) as [-> ->].
    assert (Hd1 : 0 <= i / 10 <= 9).
    { split; [apply Z.div_pos; lia |].
      assert (i / 10 < 10) by (apply Z.div_lt_upper_bound; lia). lia. }
    assert (Hd0 : 0 <= i mod 10 <= 9).
    { assert (0 <= i mod 10 < 10) by (apply Z.mod_pos_bound; lia). lia. }
    split; [discriminate |]. split.
    + cbn [forallb]. now rewrite !is_digit_digit_byte.
    + rewrite !decimal_value_digit_byte by assumption. cbn [decimal_value].
      pose proof (Z.div_mod i 10 ltac:(lia)). lia.
Qed.

Lemma is_digit_range c :
  is_digit c = true -> 48 <= byte_val c <= 57.
Proof.
  unfold is_digit. intros H. apply andb_true_iff in H as [H1 H2].
  apply Z.leb_le in H1, H2. change (byte_val "0") with 48 in H1.
  change (byte_val "9") with 57 in H2. lia.
Qed.

Lemma is_digit_not_sign c :
  is_digit c = true -> byte_eqb c "+" = false /\ byte_eqb c "-" = false.
Proof.
  intros H. apply is_digit_range in H.
  split; apply byte_eqb_neq; intros ->.
  - change (byte_val "+") with 43 in H. lia.
  - change (byte_val "-") with 45 in H. lia.
Qed.

(** The digit loop of [ParseUint] reads a decimal numeral whose value
    fits 64 bits without an error. *)
Lemma ParseUint_digits_value s0 ds : forall n,
  0 <= n -> forallb is_digit ds = true ->
  decimal_value n ds <= strconv.maxUint64 ->
  strconv.ParseUint_digits s0 ds n = (decimal_value n ds, None).
Proof.
  induction ds as [|c ds IH]; intros n Hn Hds Hmax; [reflexivity |].
  cbn [forallb] in Hds. apply andb_true_iff in Hds as [Hc Hds].
  pose proof (is_digit_range c Hc) as Hr.
  cbn [strconv.ParseUint_digits decimal_value] in *.
  change (byte_val "0") with 48 in *. change (byte_val "9") with 57.
  replace ((48 <=? byte_val c) && (byte_val c <=? 57)) with true
    by (symmetry; apply andb_true_iff; split; apply Z.leb_le; lia).
  cbv iota beta.
  pose proof (decimal_value_ge ds (n * 10 + (byte_val c - 48)) ltac:(lia) Hds) as Hge.
  unfold strconv.maxUint64 in *.
  change (2 ^ 64 - 1) with 18446744073709551615 in *.
  change (2 ^ 64) with 18446744073709551616.
  change (18446744073709551615 / 10 + 1) with 1844674407370955162.
  replace (10 <=? byte_val c - 48) with false by (symmetry; apply Z.leb_gt; lia).
  replace (1844674407370955162 <=? n) with false by (symmetry; apply Z.leb_gt; lia).
  rewrite Z.mod_small by lia.
  replace (n * 10 + (byte_val c - 48) <? n * 10) with false
    by (symmetry; apply Z.ltb_ge; lia).
  replace (18446744073709551615 <? n * 10 + (byte_val c - 48)) with false
    by (symmetry; apply Z.ltb_ge; lia).
  cbn [orb]. apply IH; [lia | exact Hds | exact Hmax].
Qed.

Lemma ParseUint_value ds :
  ds <> [] -> forallb is_digit ds = true ->
  decimal_value 0 ds <= strconv.maxUint64 ->
  strconv.ParseUint ds = (decimal_value 0 ds, None).
Proof.
  intros Hne Hds Hmax. unfold strconv.ParseUint.
  replace (len ds =? 0) with false.
  - now apply ParseUint_digits_value.
  - symmetry. apply Z.eqb_neq. unfold len. destruct ds; [congruence | simpl; lia].
Qed.

Lemma Atoi_digits_value ds : forall n,
  forallb is_digit ds = true ->
  strconv.Atoi_digits ds n = Some (decimal_value n ds).
Proof.
  induction ds as [|c ds IH]; intros n Hds; [reflexivity |].
  cbn [forallb] in Hds. apply andb_true_iff in Hds as [Hc Hds].
  pose proof (is_digit_range c Hc) as Hr.
  cbn [strconv.Atoi_digits decimal_value]. change (byte_val "0") with 48.
  rewrite Z.mod_small by lia.
  replace (9 <? byte_val c - 48) with false by (symmetry; apply Z.ltb_ge; lia).
  now apply IH.
Qed.

(** What [FormatInt] writes: the digits of a number that is not
    negative, a minus sign and the digits of its opposite otherwise. *)
Lemma FormatInt_shape n :
  - 2 ^ 63 <= n < 2 ^ 63 ->
  exists ds, ds <> [] /\ forallb is_digit ds = true
    /\ ((0 <= n /\ strconv.FormatInt n = ds /\ decimal_value 0 ds = n)
        \/ (n < 0 /\ strconv.FormatInt n = "-"%char :: ds /\ decimal_value 0 ds = - n)).
Proof.
  intros Hn. change (2 ^ 63) with 9223372036854775808 in Hn.
  unfold strconv.FormatInt, strconv.nSmalls.
  destruct (Z.leb_spec 0 n) as [Hpos|Hneg]; cbn [andb].
  - destruct (Z.ltb_spec n 100) as [Hsmall|Hbig].
    + destruct (small_value n ltac:(lia)) as (ds & E & Hne & Hds & Hval).
      exists ds. repeat split; auto.
    + replace (n <? 0) with false by (symmetry; apply Z.ltb_ge; lia).
      rewrite Z.mod_small by (change (2 ^ 64) with 18446744073709551616; lia).
      destruct (formatBits_unsigned n) as (ds & E & Hne & Hds & Hval).
      { change (2 ^ 64) with 18446744073709551616. lia. }
      exists ds. repeat split; auto.
  - replace (n <? 0) with true by (symmetry; apply Z.ltb_lt; lia).
    destruct (formatBits_unsigned (- n)) as (ds & E & Hne & Hds & Hval).
    { change (2 ^ 64) with 18446744073709551616. lia. }
    exists ds. split; [exact Hne |]. split; [exact Hds |]. right.
    split; [lia |]. split; [| exact Hval].
    rewrite <- E. unfold strconv.formatBits.
    replace ((- (n mod 2 ^ 64)) mod 2 ^ 64) with (- n);
      [now destruct (strconv.formatBits_pairs 10 (- n) []) |].
    change (2 ^ 64) with 18446744073709551616.
    replace (n mod 18446744073709551616) with (n + 18446744073709551616).
    + symmetry. replace (- (n + 18446744073709551616))
        with (- n + (-1) * 18446744073709551616) by lia.
      rewrite Z.mod_add by lia. apply Z.mod_small. lia.
    + symmetry. replace (n + 18446744073709551616)
        with (n + 1 * 18446744073709551616) at 1 by lia.
      rewrite <- (Z.mod_add n 1 18446744073709551616) by lia.
      apply Z.mod_small. lia.
Qed.

(** [ParseInt] reads back what [FormatInt] writes. *)
Lemma ParseInt_FormatInt n :
  - 2 ^ 63 <= n < 2 ^ 63 -> strconv.ParseInt (strconv.FormatInt n) = (n, None).
Proof.
  intros Hn. destruct (FormatInt_shape n Hn) as (ds & Hne & Hds & Hshape).
  change (2 ^ 63) with 9223372036854775808 in Hn.
  destruct Hshape as [(Hpos & -> & Hval) | (Hneg & -> & Hval)].
  - destruct ds as [|c rest]; [congruence |].
    assert (Hc : is_digit c = true).
    { cbn [forallb] in Hds. now apply andb_true_iff in Hds as [? _]. }
    destruct (is_digit_not_sign c Hc) as [Hplus Hminus].
    unfold strconv.ParseInt. rewrite Hplus, Hminus.
    rewrite ParseUint_value; auto.
    + rewrite Hval. cbv iota beta. change (2 ^ 63) with 9223372036854775808.
      replace (9223372036854775808 <=? n) with false
        by (symmetry; apply Z.leb_gt; lia).
      reflexivity.
    + rewrite Hval. unfold strconv.maxUint64.
      change (2 ^ 64 - 1) with 18446744073709551615. lia.
  - unfold strconv.ParseInt. change (byte_eqb "-" "+") with false.
    change (byte_eqb "-" "-") with true. cbv iota beta.
    rewrite ParseUint_value; auto.
    + rewrite Hval. cbv iota beta. change (2 ^ 63) with 9223372036854775808.
      cbn [negb andb].
      replace (9223372036854775808 <? - n) with false
        by (symmetry; apply Z.ltb_ge; lia).
      f_equal. lia.
    + rewrite Hval. unfold strconv.maxUint64.
      change (2 ^ 64 - 1) with 18446744073709551615. lia.
Qed.

(** [Atoi] reads back what [Itoa] writes, on its fast path and on its
    slow one. *)
Lemma Atoi_Itoa n :
  - 2 ^ 63 <= n < 2 ^ 63 -> strconv.Atoi (strconv.Itoa n) = (n, None).
Proof.
  intros Hn. unfold strconv.Atoi, strconv.Itoa.
  destruct ((0 <? len (strconv.FormatInt n)) && (len (strconv.FormatInt n) <? 19));
    [| now rewrite ParseInt_FormatInt].
  destruct (FormatInt_shape n Hn) as (ds & Hne & Hds & Hshape).
  destruct Hshape as [(Hpos & -> & Hval) | (Hneg & -> & Hval)].
  - destruct ds as [|c rest]; [congruence |].
    assert (Hc : is_digit c = true).
    { cbn [forallb] in Hds. now apply andb_true_iff in Hds as [? _]. }
    destruct (is_digit_not_sign c Hc) as [Hplus Hminus].
    rewrite Hplus, Hminus. cbn [orb andb].
    now rewrite Atoi_digits_value, Hval.
  - change (byte_eqb "-" "-") with true. cbn [orb andb].
    replace (len ds <? 1) with false.
    + rewrite Atoi_digits_value, Hval by exact Hds. f_equal. lia.
    + symmetry. apply Z.ltb_ge. unfold len. destruct ds; [congruence | simpl; lia].
Qed.

(** [ParseUint] reads back what [FormatUint] writes. *)
Lemma ParseUint_FormatUint n :
  0 <= n < 2 ^ 64 -> strconv.ParseUint (strconv.FormatUint n) = (n, None).
Proof.
  intros Hn. unfold strconv.FormatUint, strconv.nSmalls.
  assert (Hmax : n <= strconv.maxUint64) by (unfold strconv.maxUint64; lia).
  destruct (Z.ltb_spec n 100) as [Hsmall|Hbig].
  - destruct (small_value n ltac:(lia)) as (ds & -> & Hne & Hds & Hval).
    rewrite ParseUint_value; rewrite ?Hval; auto.
  - destruct (formatBits_unsigned n Hn) as (ds & -> & Hne & Hds & Hval).
    rewrite ParseUint_value; rewrite ?Hval; auto.
Qed.

Lemma ParseBool_FormatBool b :
  strconv.ParseBool (strconv.FormatBool b) = (b, None).
Proof. now destruct b. Qed.

(** Decimal numerals hold no NUL byte: [os.Setenv] takes them as
    values. *)
Lemma digits_no_NUL ds :
  forallb is_digit ds = true -> os.has_byte zero ds = false.
Proof.
  induction ds as [|c ds IH]; [reflexivity |].
  cbn [forallb]. intros H. apply andb_true_iff in H as [Hc Hds].
  unfold os.has_byte. cbn [existsb]. apply orb_false_iff. split.
  - apply byte_eqb_neq. intros <-. apply is_digit_range in Hc.
    change (byte_val zero) with 0 in Hc. lia.
  - now apply IH.
Qed.

(** ** Setters and getters *)

Lemma valid_key_spec key :
  valid_key key = true ->
  len key <> 0 /\ os.has_byte "=" key = false /\ os.has_byte zero key = false.
Proof.
  unfold valid_key. intros H.
  apply andb_true_iff in H as [H H3]. apply andb_true_iff in H as [H1 H2].
  apply negb_true_iff in H1, H2, H3. apply Z.eqb_neq in H1. auto.
Qed.

Lemma Setenv_valid key value env :
  valid_key key = true -> os.has_byte zero value = false ->
  os.Setenv key value env = (<[key := value]> env, None).
Proof.
  intros Hk Hv. apply valid_key_spec in Hk as (H1 & H2 & H3).
  unfold os.Setenv.
  replace (len key =? 0) with false by (symmetry; apply Z.eqb_neq; exact H1).
  now rewrite H2, H3, Hv.
Qed.

Lemma Getenv_insert (env : Env) key value :
  len key <> 0 -> os.Getenv (<[key := value]> env) key = value.
Proof.
  intros Hk. unfold os.Getenv. rewrite LookupEnv_nonempty by exact Hk.
  now rewrite lookup_insert_eq.
Qed.

Lemma LookupEnv_insert_ne (env : Env) key key' value :
  key' <> key -> os.LookupEnv (<[key := value]> env) key' = os.LookupEnv env key'.
Proof.
  intros Hne. unfold os.LookupEnv. destruct (len key' =? 0); [reflexivity |].
  now rewrite lookup_insert_ne by congruence.
Qed.

(** X1.  After a [Set] that returned no error, every getter reads the
    value that was set: [Get] returns it, [GetOr] returns it whatever the
    default, [GetT] converts it; and no other key has changed.  A [Set]
    that returned an error changed nothing. *)
Theorem Set_then_get (env env' : Env) (key value : gostring) (e : error) :
  env.Set_ key value env = (env', e) ->
  match e with
  | None =>
      env.Get env' key = value
      /\ (forall d, env.GetOr env' key d = value)
      /\ (forall (T : Type) (f : gostring -> T * error), env.GetT env' key f = f value)
      /\ (forall key', key' <> key -> os.LookupEnv env' key' = os.LookupEnv env key')
  | Some _ => env' = env
  end.
Proof.
  intros Hset. unfold env.Set_ in Hset. destruct e as [e|].
  - now apply Setenv_failed in Hset.
  - apply Setenv_ok in Hset as (Hk & _ & ->).
    assert (Hget : os.Getenv (<[key := value]> env) key = value)
      by now apply Getenv_insert.
    repeat split.
    + exact Hget.
    + intros d. unfold env.GetOr. rewrite LookupEnv_nonempty by exact Hk.
      now rewrite lookup_insert_eq.
    + intros T f. unfold env.GetT. now rewrite Hget.
    + intros key' Hne. now apply LookupEnv_insert_ne.
Qed.

Lemma Set_then_get_witness :
  env.Get (<[str "A" := str "1"]> ∅) (str "A") = str "1".
Proof.
  apply (Set_then_get ∅ (<[str "A" := str "1"]> ∅) (str "A") (str "1") None).
  reflexivity.
Defined.

Lemma FormatInt_no_NUL n :
  - 2 ^ 63 <= n < 2 ^ 63 -> os.has_byte zero (strconv.FormatInt n) = false.
Proof.
  intros Hn. destruct (FormatInt_shape n Hn) as (ds & _ & Hds & Hshape).
  apply digits_no_NUL in Hds.
  destruct Hshape as [(_ & -> & _) | (_ & -> & _)]; [exact Hds |].
  unfold os.has_byte in *. cbn [existsb]. now rewrite Hds.
Qed.

Lemma FormatUint_no_NUL n :
  0 <= n < 2 ^ 64 -> os.has_byte zero (strconv.FormatUint n) = false.
Proof.
  intros Hn. unfold strconv.FormatUint, strconv.nSmalls.
  destruct (Z.ltb_spec n 100).
  - destruct (small_value n ltac:(lia)) as (ds & -> & _ & Hds & _).
    now apply digits_no_NUL.
  - destruct (formatBits_unsigned n Hn) as (ds & -> & _ & Hds & _).
    now apply digits_no_NUL.
Qed.

(** X2.  [SetInt] under a valid key succeeds for every [int], and
    [GetInt], [MustGetInt] and [GetIntOr] then return that [int]. *)
Theorem SetInt_roundtrip (env : Env) (key : gostring) (n d : Z) :
  valid_key key = true -> - 2 ^ 63 <= n < 2 ^ 63 ->
  exists env',
    env.SetInt key n env = (env', None)
    /\ env.GetInt env' key = (n, None)
    /\ env.MustGetInt env' key = Ret n
    /\ env.GetIntOr env' key d = (n, None).
Proof.
  intros Hk Hn. pose proof (valid_key_spec key Hk) as (Hne & _).
  exists (<[key := strconv.Itoa n]> env). split.
  - unfold env.SetInt. apply Setenv_valid; [exact Hk |].
    now apply FormatInt_no_NUL.
  - unfold env.GetInt, env.MustGetInt, env.GetIntOr, env.MustGetT, env.GetTOr, env.GetT.
    rewrite Getenv_insert, LookupEnv_nonempty, lookup_insert_eq by exact Hne.
    now rewrite Atoi_Itoa.
Qed.

Lemma SetInt_roundtrip_witness :
  exists env',
    env.SetInt (str "DB_PORT") (-3306) ∅ = (env', None)
    /\ env.GetInt env' (str "DB_PORT") = (-3306, None)
    /\ env.MustGetInt env' (str "DB_PORT") = Ret (-3306)
    /\ env.GetIntOr env' (str "DB_PORT") 0 = (-3306, None).
Proof.
  apply (SetInt_roundtrip ∅ (str "DB_PORT") (-3306) 0).
  - reflexivity.
  - change (2 ^ 63) with 9223372036854775808. lia.
Defined.

(** X3.  [SetInt64] under a valid key succeeds for every [int64], and
    [GetInt64], [MustGetInt64] and [GetInt64Or] then return it. *)
Theorem SetInt64_roundtrip (env : Env) (key : gostring) (n d : Z) :
  valid_key key = true -> - 2 ^ 63 <= n < 2 ^ 63 ->
  exists env',
    env.SetInt64 key n env = (env', None)
    /\ env.GetInt64 env' key = (n, None)
    /\ env.MustGetInt64 env' key = Ret n
    /\ env.GetInt64Or env' key d = (n, None).
Proof.
  intros Hk Hn. pose proof (valid_key_spec key Hk) as (Hne & _).
  exists (<[key := strconv.FormatInt n]> env). split.
  - unfold env.SetInt64. apply Setenv_valid; [exact Hk |].
    now apply FormatInt_no_NUL.
  - unfold env.GetInt64, env.MustGetInt64, env.GetInt64Or, env.MustGetT,
      env.GetTOr, env.GetT.
    rewrite Getenv_insert, LookupEnv_nonempty, lookup_insert_eq by exact Hne.
    now rewrite ParseInt_FormatInt.
Qed.

Lemma SetInt64_roundtrip_witness :
  exists env',
    env.SetInt64 (str "MIN") (- 2 ^ 63) ∅ = (env', None)
    /\ env.GetInt64 env' (str "MIN") = (- 2 ^ 63, None)
    /\ env.MustGetInt64 env' (str "MIN") = Ret (- 2 ^ 63)
    /\ env.GetInt64Or env' (str "MIN") 0 = (- 2 ^ 63, None).
Proof.
  apply (SetInt64_roundtrip ∅ (str "MIN") (- 2 ^ 63) 0).
  - reflexivity.
  - change (2 ^ 63) with 9223372036854775808. lia.
Defined.

(** X4.  [SetUint64] under a valid key succeeds for every [uint64], and
    [GetUint64], [MustGetUint64] and [GetUint64Or] then return it. *)
Theorem SetUint64_roundtrip (env : Env) (key : gostring) (n d : Z) :
  valid_key key = true -> 0 <= n < 2 ^ 64 ->
  exists env',
    env.SetUint64 key n env = (env', None)
    /\ env.GetUint64 env' key = (n, None)
    /\ env.MustGetUint64 env' key = Ret n
    /\ env.GetUint64Or env' key d = (n, None).
Proof.
  intros Hk Hn. pose proof (valid_key_spec key Hk) as (Hne & _).
  exists (<[key := strconv.FormatUint n]> env). split.
  - unfold env.SetUint64. apply Setenv_valid; [exact Hk |].
    now apply FormatUint_no_NUL.
  - unfold env.GetUint64, env.MustGetUint64, env.GetUint64Or, env.MustGetT,
      env.GetTOr, env.GetT.
    rewrite Getenv_insert, LookupEnv_nonempty, lookup_insert_eq by exact Hne.
    now rewrite ParseUint_FormatUint.
Qed.

Lemma SetUint64_roundtrip_witness :
  exists env',
    env.SetUint64 (str "MAX") (2 ^ 64 - 1) ∅ = (env', None)
    /\ env.GetUint64 env' (str "MAX") = (2 ^ 64 - 1, None)
    /\ env.MustGetUint64 env' (str "MAX") = Ret (2 ^ 64 - 1)
    /\ env.GetUint64Or env' (str "MAX") 0 = (2 ^ 64 - 1, None).
Proof.
  apply (SetUint64_roundtrip ∅ (str "MAX") (2 ^ 64 - 1) 0).
  - reflexivity.
  - change (2 ^ 64) with 18446744073709551616. lia.
Defined.

(** X5.  [SetBool] under a valid key succeeds, and [GetBool],
    [MustGetBool] and [GetBoolOr] then return the boolean. *)
Theorem SetBool_roundtrip (env : Env) (key : gostring) (b d : bool) :
  valid_key key = true ->
  exists env',
    env.SetBool key b env = (env', None)
    /\ env.GetBool env' key = (b, None)
    /\ env.MustGetBool env' key = Ret b
    /\ env.GetBoolOr env' key d = (b, None).
Proof.
  intros Hk. pose proof (valid_key_spec key Hk) as (Hne & _).
  exists (<[key := strconv.FormatBool b]> env). split.
  - unfold env.SetBool. apply Setenv_valid; [exact Hk |]. now destruct b.
  - unfold env.GetBool, env.MustGetBool, env.GetBoolOr, env.MustGetT,
      env.GetTOr, env.GetT.
    rewrite Getenv_insert, LookupEnv_nonempty, lookup_insert_eq by exact Hne.
    now rewrite ParseBool_FormatBool.
Qed.

Lemma SetBool_roundtrip_witness :
  exists env',
    env.SetBool (str "DEBUG") true ∅ = (env', None)
    /\ env.GetBool env' (str "DEBUG") = (true, None)
    /\ env.MustGetBool env' (str "DEBUG") = Ret true
    /\ env.GetBoolOr env' (str "DEBUG") false = (true, None).
Proof.
  apply (SetBool_roundtrip ∅ (str "DEBUG") true false). reflexivity.
Defined.

Lemma Getenv_unset (env : Env) key : env !! key = None -> os.Getenv env key = [].
Proof.
  intros H. unfold os.Getenv, os.LookupEnv.
  destruct (len key =? 0); [reflexivity | now rewrite H].
Qed.

Lemma LookupEnv_unset (env : Env) key : env !! key = None -> os.LookupEnv env key = None.
Proof.
  intros H. unfold os.LookupEnv. now destruct (len key =? 0).
Qed.

(** X6.  On a key that is not set the [Must] getters of the numbers and
    the boolean panic with the syntax error of their converter, and the
    [Or] getters return the default with no error. *)
Theorem unset_key_must_and_or (env : Env) (key : gostring) :
  env !! key = None ->
  env.MustGetInt env key = Panic (PanicError (NumError (str "Atoi") [] ErrSyntax))
  /\ env.MustGetInt64 env key
     = Panic (PanicError (NumError (str "ParseInt") [] ErrSyntax))
  /\ env.MustGetUint64 env key
     = Panic (PanicError (NumError (str "ParseUint") [] ErrSyntax))
  /\ env.MustGetBool env key
     = Panic (PanicError (NumError (str "ParseBool") [] ErrSyntax))
  /\ (forall d, env.GetIntOr env key d = (d, None))
  /\ (forall d, env.GetInt64Or env key d = (d, None))
  /\ (forall d, env.GetUint64Or env key d = (d, None))
  /\ (forall d, env.GetBoolOr env key d = (d, None))
  /\ (forall d, env.GetOr env key d = d).
Proof.
  intros H. pose proof (Getenv_unset env key H) as Hget.
  pose proof (LookupEnv_unset env key H) as Hlook.
  unfold env.MustGetInt, env.MustGetInt64, env.MustGetUint64, env.MustGetBool,
    env.GetIntOr, env.GetInt64Or, env.GetUint64Or, env.GetBoolOr, env.GetOr,
    env.MustGetT, env.GetTOr, env.GetT.
  rewrite Hget, Hlook. repeat split.
Qed.

Lemma unset_key_must_and_or_witness :
  env.MustGetInt (<[str "PORT" := str "8080"]> ∅) (str "TIMEOUT")
  = Panic (PanicError (NumError (str "Atoi") [] ErrSyntax)).
Proof.
  apply (unset_key_must_and_or (<[str "PORT" := str "8080"]> ∅) (str "TIMEOUT")).
  vm_compute. reflexivity.
Defined.

(** X7.  A variable that is set to the empty string is not an unset
    one for the [Or] getters: the converter runs and fails, and they
    return the default together with its syntax error; [GetOr] and
    [GetStringsOr] return the empty string and the one-element list of
    it, not their defaults. *)
Theorem empty_value_or_getters (env : Env) (key : gostring) :
  os.LookupEnv env key = Some [] ->
  (forall d, env.GetIntOr env key d
             = (d, Some (NumError (str "Atoi") [] ErrSyntax)))
  /\ (forall d, env.GetInt64Or env key d
                = (d, Some (NumError (str "ParseInt") [] ErrSyntax)))
  /\ (forall d, env.GetUint64Or env key d
                = (d, Some (NumError (str "ParseUint") [] ErrSyntax)))
  /\ (forall d, env.GetBoolOr env key d
                = (d, Some (NumError (str "ParseBool") [] ErrSyntax)))
  /\ (forall d, env.GetOr env key d = [])
  /\ (forall d, env.GetStringsOr env key d = ([[]], None)).
Proof.
  intros H.
  unfold env.GetIntOr, env.GetInt64Or, env.GetUint64Or, env.GetBoolOr, env.GetOr,
    env.GetTOr.
  rewrite H. repeat split.
  intros d. unfold env.GetStringsOr, env.GetTOr. rewrite H.
  rewrite bool_decide_eq_true_2 by (now exists []). reflexivity.
Qed.

Lemma empty_value_or_getters_witness :
  env.GetIntOr (<[str "PORT" := []]> ∅) (str "PORT") 8080
  = (8080, Some (NumError (str "Atoi") [] ErrSyntax)).
Proof.
  apply (empty_value_or_getters (<[str "PORT" := []]> ∅) (str "PORT")).
  vm_compute. reflexivity.
Defined.

(** ** String lists *)

Lemma Join_cons x y rest sep :
  strings.Join (x :: y :: rest) sep = x ++ sep ++ strings.Join (y :: rest) sep.
Proof. reflexivity. Qed.

(** Joining the pieces of a split with the separator gives the string
    back. *)
Lemma Join_Split s sep :
  strings.Join (strings.Split s sep) [sep] = s.
Proof.
  induction s as [|c s IH]; [reflexivity |].
  cbn [strings.Split]. destruct (byte_eqb c sep) eqn:E.
  - apply byte_eqb_eq in E. subst c.
    pose proof (Split_nonempty s sep) as Hne.
    destruct (strings.Split s sep) as [|x xs] eqn:Es; [congruence |].
    rewrite Join_cons, IH. reflexivity.
  - pose proof (Split_nonempty s sep) as Hne.
    destruct (strings.Split s sep) as [|x xs] eqn:Es; [congruence |].
    destruct xs as [|y xs].
    + cbn [strings.Join] in *. now rewrite IH.
    + rewrite Join_cons in *. rewrite <- app_comm_cons. now rewrite IH.
Qed.

(** A split has one piece more than the string has separators. *)
Lemma length_Split s sep :
  length (strings.Split s sep) = S (count_byte sep s).
Proof.
  unfold count_byte. induction s as [|c s IH]; [reflexivity |].
  cbn [strings.Split]. rewrite filter_cons.
  destruct (byte_eqb c sep) eqn:E.
  - apply byte_eqb_eq in E. rewrite decide_True by exact E.
    cbn [length]. now rewrite IH.
  - apply byte_eqb_neq in E. rewrite decide_False by exact E.
    pose proof (Split_nonempty s sep) as Hne.
    destruct (strings.Split s sep) as [|x xs]; [congruence |].
    cbn [length] in *. exact IH.
Qed.

(** X8.  [GetStrings] and [MustGetStrings] never fail: for every key
    they return a list that is not empty, has one element more than the
    value has commas, and whose elements joined with commas are the
    value ([Get]'s result) again. *)
Theorem GetStrings_joins_to_value (env : Env) (key : gostring) :
  exists l,
    env.GetStrings env key = (l, None)
    /\ env.MustGetStrings env key = Ret l
    /\ strings.Join l (str ",") = env.Get env key
    /\ length l = S (count_byte "," (env.Get env key)).
Proof.
  exists (strings.Split (os.Getenv env key) ","). repeat split.
  - apply Join_Split.
  - apply length_Split.
Qed.

(** ** Floats and JSON values *)

(** X9.  [SetJSON] stores the bytes that [json.Marshal] gives, and
    [GetJSON] decodes those bytes: after a [SetJSON] that returned no
    error, [GetJSON] returns what [json.Unmarshal] returns for them, and
    when that is a value without an error, [MustGetJSON] and [GetJSONOr]
    return the value.  A [SetJSON] that returned an error, from
    [json.Marshal] or from [os.Setenv], changed nothing. *)
Theorem SetJSON_then_GetJSON
    (T : Type) (zero_value : T)
    (Unmarshal : gostring -> T -> T * error) (Marshal : T -> gostring * error)
    (env env' : Env) (key : gostring) (value : T) (e : error) :
  env.SetJSON T Marshal key value env = (env', e) ->
  match e with
  | None =>
      exists b, Marshal value = (b, None)
        /\ env.GetJSON T zero_value Unmarshal env' key = Unmarshal b zero_value
        /\ forall x, Unmarshal b zero_value = (x, None) ->
             env.MustGetJSON T zero_value Unmarshal env' key = Ret x
             /\ forall d, env.GetJSONOr T zero_value Unmarshal env' key d = (x, None)
  | Some _ => env' = env
  end.
Proof.
  unfold env.SetJSON. destruct (Marshal value) as [b [me|]] eqn:Em.
  - intros [= <- <-]. reflexivity.
  - intros Hset. destruct e as [e|]; [now apply Setenv_failed in Hset |].
    apply Setenv_ok in Hset as (Hk & _ & ->).
    exists b. split; [reflexivity |].
    unfold env.GetJSON, env.MustGetJSON, env.GetJSONOr, env.MustGetT, env.GetTOr,
      env.GetT, env.unmarshal_value.
    rewrite Getenv_insert, LookupEnv_nonempty, lookup_insert_eq by exact Hk.
    split.
    + now destruct (Unmarshal b zero_value) as [x [ue|]].
    + intros x ->. split; reflexivity.
Qed.

Lemma SetJSON_then_GetJSON_witness :
  env.MustGetJSON bool false (fun s _ => strconv.ParseBool s)
    (<[str "FLAG" := str "true"]> ∅) (str "FLAG")
  = Ret true.
Proof.
  pose proof (SetJSON_then_GetJSON bool false (fun s _ => strconv.ParseBool s)
                (fun b => (strconv.FormatBool b, None))
                ∅ (<[str "FLAG" := str "true"]> ∅) (str "FLAG") true None eq_refl)
    as (b & Hb & _ & Hget).
  injection Hb as <-. apply (Hget true). reflexivity.
Defined.

(** X10.  [SetFloat64] stores the text that [strconv.FormatFloat] gives,
    and the float getters parse that text: after a [SetFloat64] that
    returned no error, [GetFloat64] returns what [strconv.ParseFloat]
    returns for it, and when that is a value without an error,
    [MustGetFloat64] and [GetFloat64Or] return the value. *)
Theorem SetFloat64_then_GetFloat64
    (float64 : Type) (ParseFloat : gostring -> float64 * error)
    (FormatFloat : float64 -> gostring)
    (env env' : Env) (key : gostring) (value : float64) :
  env.SetFloat64 float64 FormatFloat key value env = (env', None) ->
  env.GetFloat64 float64 ParseFloat env' key = ParseFloat (FormatFloat value)
  /\ forall x, ParseFloat (FormatFloat value) = (x, None) ->
       env.MustGetFloat64 float64 ParseFloat env' key = Ret x
       /\ forall d, env.GetFloat64Or float64 ParseFloat env' key d = (x, None).
Proof.
  unfold env.SetFloat64. intros Hset.
  apply Setenv_ok in Hset as (Hk & _ & ->).
  unfold env.GetFloat64, env.MustGetFloat64, env.GetFloat64Or, env.MustGetT,
    env.GetTOr, env.GetT.
  rewrite Getenv_insert, LookupEnv_nonempty, lookup_insert_eq by exact Hk.
  split; [reflexivity |]. intros x ->. split; reflexivity.
Qed.

Lemma SetFloat64_then_GetFloat64_witness :
  env.GetFloat64 Z strconv.ParseInt (<[str "RATIO" := str "-42"]> ∅) (str "RATIO")
  = (-42, None).
Proof.
  apply (SetFloat64_then_GetFloat64 Z strconv.ParseInt strconv.FormatInt
           ∅ (<[str "RATIO" := str "-42"]> ∅) (str "RATIO") (-42)).
  reflexivity.
Defined.

(** ** Templates piece by piece

    [os.Expand] copies the text between the variables and replaces each
    variable by what the mapping gives: the lemmas below move the loop
    over a piece of the template and leave the rest of the template to
    an expansion of its own. *)

Lemma os_Expand_finish s mapping :
  os.Expand s mapping
  = Expand_finish s (os.Expand_loop (length s) s mapping None 0 0).
Proof. reflexivity. Qed.

Lemma Expand_finish_fuel s mapping fuel fuel' buf i j :
  len s - j <= Z.of_nat fuel -> len s - j <= Z.of_nat fuel' ->
  Expand_finish s (os.Expand_loop fuel s mapping buf i j)
  = Expand_finish s (os.Expand_loop fuel' s mapping buf i j).
Proof.
  intros H H'. now rewrite (Expand_loop_fuel s mapping fuel fuel').
Qed.

(** A buffer that is still [nil] counts as an empty one. *)
Lemma Expand_finish_nil_buf s mapping : forall fuel j,
  Expand_finish s (os.Expand_loop fuel s mapping None 0 j)
  = Expand_finish s (os.Expand_loop fuel s mapping (Some []) 0 j).
Proof.
  assert (Hend : Expand_finish s (Ret (None, 0)) = Expand_finish s (Ret (Some [], 0))).
  { cbn. rewrite slice_from_ok by (pose proof (len_nonneg s); lia). reflexivity. }
  induction fuel as [|fuel IH]; intros j; cbn [os.Expand_loop]; [exact Hend |].
  destruct (j <? len s); [| exact Hend].
  destruct (index s j) as [c|p]; [| reflexivity]. cbn [mbind Res_bind].
  destruct (byte_eqb c "$" && (j + 1 <? len s)); [reflexivity | apply IH].
Qed.

Lemma slice_split (s : gostring) i k j :
  0 <= i <= k -> k <= j -> j <= len s ->
  take (Z.to_nat (j - i)) (drop (Z.to_nat i) s)
  = take (Z.to_nat (k - i)) (drop (Z.to_nat i) s)
    ++ take (Z.to_nat (j - k)) (drop (Z.to_nat k) s).
Proof.
  intros Hi Hk Hj.
  replace (Z.to_nat (j - i)) with (Z.to_nat (k - i) + Z.to_nat (j - k))%nat by lia.
  rewrite <- take_take_drop. do 2 f_equal. rewrite drop_drop. f_equal. lia.
Qed.

Lemma drop_split (s : gostring) i k :
  0 <= i <= k -> k <= len s ->
  drop (Z.to_nat i) s
  = take (Z.to_nat (k - i)) (drop (Z.to_nat i) s) ++ drop (Z.to_nat k) s.
Proof.
  intros Hi Hk.
  rewrite <- (take_drop (Z.to_nat (k - i)) (drop (Z.to_nat i) s)) at 1.
  f_equal. rewrite drop_drop. f_equal. lia.
Qed.

(** The text between [i] and [k] may be moved into the buffer before the
    loop reaches it. *)
Lemma Expand_finish_advance s mapping : forall fuel b i k j,
  0 <= i <= k -> k <= j -> k <= len s ->
  Expand_finish s (os.Expand_loop fuel s mapping (Some b) i j)
  = Expand_finish s
      (os.Expand_loop fuel s mapping
         (Some (b ++ take (Z.to_nat (k - i)) (drop (Z.to_nat i) s))) k j).
Proof.
  assert (Hend : forall b i k, 0 <= i <= k -> k <= len s ->
            Expand_finish s (Ret (Some b, i))
            = Expand_finish s
                (Ret (Some (b ++ take (Z.to_nat (k - i)) (drop (Z.to_nat i) s)), k))).
  { intros b i k Hi Hk. cbn. rewrite !slice_from_ok by lia. cbn.
    rewrite <- app_assoc. now rewrite <- drop_split. }
  induction fuel as [|fuel IH]; intros b i k j Hi Hk Hlen;
    cbn [os.Expand_loop]; [now apply Hend |].
  destruct (Z.ltb_spec j (len s)) as [Hj|Hj]; [| now apply Hend].
  destruct (index s j) as [c|p]; [| reflexivity]. cbn [mbind Res_bind].
  destruct (byte_eqb c "$" && (j + 1 <? len s)); [| apply IH; lia].
  rewrite !slice_ok by lia. cbn [mbind Res_bind]. unfold default. cbn [from_option id].
  assert (E : (b ++ take (Z.to_nat (k - i)) (drop (Z.to_nat i) s))
               ++ take (Z.to_nat (j - k)) (drop (Z.to_nat k) s)
              = b ++ take (Z.to_nat (j - i)) (drop (Z.to_nat i) s)).
  { rewrite <- app_assoc. f_equal. symmetry. apply slice_split; lia. }
  rewrite E. reflexivity.
Qed.

(** A buffer that starts with [b0] gives a result that starts with
    [b0]. *)
Lemma Expand_finish_prefix s mapping b0 : forall fuel b i j,
  Expand_finish s (os.Expand_loop fuel s mapping (Some (b0 ++ b)) i j)
  = r ← Expand_finish s (os.Expand_loop fuel s mapping (Some b) i j); Ret (b0 ++ r).
Proof.
  assert (Hend : forall b i,
            Expand_finish s (Ret (Some (b0 ++ b), i))
            = r ← Expand_finish s (Ret (Some b, i)); Ret (b0 ++ r)).
  { intros b i. cbn. destruct (slice_from s i); cbn; [| reflexivity].
    now rewrite app_assoc. }
  induction fuel as [|fuel IH]; intros b i j; cbn [os.Expand_loop]; [apply Hend |].
  destruct (j <? len s); [| apply Hend].
  destruct (index s j) as [c|p]; [| reflexivity]. cbn [mbind Res_bind].
  destruct (byte_eqb c "$" && (j + 1 <? len s)); [| apply IH].
  destruct (slice s i j) as [pre|p]; [| reflexivity]. cbn [mbind Res_bind].
  unfold default. cbn [from_option id].
  destruct (slice_from s (j + 1)) as [rest|p]; [| reflexivity]. cbn [mbind Res_bind].
  destruct (os.getShellName rest) as [[name w]|p]; [| reflexivity].
  cbn [mbind Res_bind].
  destruct (os.is_empty name && (0 <? w)); cbn [mbind Res_bind].
  { rewrite <- app_assoc. apply IH. }
  destruct (os.is_empty name); cbn [mbind Res_bind].
  { rewrite <- !app_assoc. apply IH. }
  destruct (mapping name) as [v|p]; [| reflexivity]. cbn [mbind Res_bind].
  rewrite <- !app_assoc. apply IH.
Qed.

Lemma scan_brace_width_le s : forall fuel i name w,
  1 <= len s -> os.scan_brace fuel s i = Ret (name, w) -> w <= len s.
Proof.
  induction fuel as [|fuel IH]; intros i name w Hs; cbn [os.scan_brace].
  - intros [= _ <-]. lia.
  - destruct (Z.ltb_spec i (len s)) as [Hi|Hi]; [| intros [= _ <-]; lia].
    destruct (index s i) as [c|p]; [| discriminate].
    cbn [mbind Res_bind]. destruct (byte_eqb c "}").
    + destruct (Z.eqb_spec i 1) as [->|_]; [intros [= _ <-]; lia |].
      destruct (slice s 1 i); [| discriminate].
      cbn [mbind Res_bind]. intros [= _ <-]. lia.
    + now apply IH.
Qed.

Lemma scan_alnum_le s : forall fuel i j,
  i <= len s -> os.scan_alnum fuel s i = Ret j -> j <= len s.
Proof.
  induction fuel as [|fuel IH]; intros i j Hi; cbn [os.scan_alnum].
  - intros [= <-]. lia.
  - destruct (Z.ltb_spec i (len s)) as [Hlt|Hge]; [| intros [= <-]; lia].
    destruct (index s i) as [c|p]; [| discriminate].
    cbn [mbind Res_bind]. destruct (os.isAlphaNum c); [| intros [= <-]; lia].
    apply IH. lia.
Qed.

Lemma index_Ret_nonempty (s : gostring) i c : index s i = Ret c -> 0 <= i < len s.
Proof.
  unfold index. destruct (Z.leb_spec 0 i); [| discriminate].
  destruct (Z.ltb_spec i (len s)); [| discriminate]. lia.
Qed.

(** [getShellName] consumes no more bytes than it is given. *)
Lemma getShellName_width_le s name w :
  os.getShellName s = Ret (name, w) -> w <= len s.
Proof.
  unfold os.getShellName.
  destruct (index s 0) as [c0|p] eqn:E0; [| discriminate].
  apply index_Ret_nonempty in E0. cbn [mbind Res_bind].
  destruct (byte_eqb c0 "{").
  - destruct (Z.ltb_spec 2 (len s)) as [H2|H2].
    + destruct (index s 1); [| discriminate]. cbn [mbind Res_bind].
      destruct (index s 2); [| discriminate]. cbn [mbind Res_bind Res_ret mret].
      destruct (_ && _).
      * destruct (slice s 1 2); [| discriminate]. cbn [mbind Res_bind].
        intros [= _ <-]. lia.
      * apply scan_brace_width_le. lia.
    + cbn [mbind Res_bind]. apply scan_brace_width_le. lia.
  - destruct (os.isShellSpecialVar c0).
    + destruct (slice s 0 1); [| discriminate]. cbn [mbind Res_bind].
      intros [= _ <-]. lia.
    + destruct (os.scan_alnum (length s) s 0) as [i|p] eqn:E; [| discriminate].
      cbn [mbind Res_bind]. apply scan_alnum_le in E; [| lia].
      destruct (slice s 0 i); [| discriminate]. cbn [mbind Res_bind].
      intros [= _ <-]. lia.
Qed.

Lemma index_app_r (p t : gostring) j :
  0 <= j < len t -> index (p ++ t) (len p + j) = index t j.
Proof.
  intros Hj. destruct (lookup_lt_is_Some_2 t (Z.to_nat j)) as [c Hc].
  { unfold len in Hj. lia. }
  rewrite (index_ok t j c) by (lia || exact Hc).
  apply index_ok; [pose proof (len_nonneg p); lia |].
  replace (Z.to_nat (len p + j)) with (length p + Z.to_nat j)%nat
    by (unfold len; lia).
  now rewrite lookup_app_r, Nat.add_comm, Nat.add_sub by lia.
Qed.

Lemma drop_app_r (p t : gostring) i :
  0 <= i -> drop (Z.to_nat (len p + i)) (p ++ t) = drop (Z.to_nat i) t.
Proof.
  intros Hi.
  replace (Z.to_nat (len p + i)) with (length p + Z.to_nat i)%nat
    by (unfold len; lia).
  now rewrite drop_app_add.
Qed.

(** The loop over the end [t] of a template [p ++ t] is the loop over
    [t] alone. *)
Lemma Expand_finish_shift p t mapping : forall fuel b i j,
  0 <= i <= j -> j <= len t ->
  Expand_finish (p ++ t)
    (os.Expand_loop fuel (p ++ t) mapping (Some b) (len p + i) (len p + j))
  = Expand_finish t (os.Expand_loop fuel t mapping (Some b) i j).
Proof.
  pose proof (len_nonneg p) as Hp.
  assert (Hend : forall b i, 0 <= i <= len t ->
            Expand_finish (p ++ t) (Ret (Some b, len p + i))
            = Expand_finish t (Ret (Some b, i))).
  { intros b i Hi. cbn.
    rewrite !slice_from_ok by (rewrite ?len_app; lia).
    now rewrite drop_app_r by lia. }
  induction fuel as [|fuel IH]; intros b i j Hi Hj;
    cbn [os.Expand_loop]; [apply Hend; lia |].
  rewrite len_app.
  replace (len p + j <? len p + len t) with (j <? len t)
    by (apply eq_true_iff_eq; rewrite !Z.ltb_lt; lia).
  destruct (Z.ltb_spec j (len t)) as [Hlt|Hge]; [| apply Hend; lia].
  rewrite index_app_r by lia.
  destruct (index t j) as [c|pv]; [| reflexivity]. cbn [mbind Res_bind].
  replace (len p + j + 1 <? len p + len t) with (j + 1 <? len t)
    by (apply eq_true_iff_eq; rewrite !Z.ltb_lt; lia).
  destruct (byte_eqb c "$" && (j + 1 <? len t)).
  - rewrite !slice_ok by (rewrite ?len_app; lia). cbn [mbind Res_bind].
    rewrite !slice_from_ok by (rewrite ?len_app; lia). cbn [mbind Res_bind].
    replace (len p + j + 1) with (len p + (j + 1)) by lia.
    rewrite !drop_app_r by lia.
    replace (len p + j - (len p + i)) with (j - i) by lia.
    destruct (os.getShellName (drop (Z.to_nat (j + 1)) t)) as [[name w]|pv] eqn:En;
      [| reflexivity].
    pose proof (getShellName_width _ _ _ En) as Hw0.
    pose proof (getShellName_width_le _ _ _ En) as Hw.
    assert (len (drop (Z.to_nat (j + 1)) t) = len t - (j + 1)).
    { unfold len in *. rewrite length_drop. lia. }
    cbn [mbind Res_bind].
    destruct (os.is_empty name && (0 <? w));
      [| destruct (os.is_empty name);
         [| destruct (mapping name) as [v|pv]; [| reflexivity] ] ];
      cbn [mbind Res_bind];
      replace (len p + j + w + 1) with (len p + (j + w + 1)) by lia;
      apply IH; lia.
  - replace (len p + j + 1) with (len p + (j + 1)) by lia. apply IH; lia.
Qed.

Lemma ends_with_dollar_cons c d p :
  ends_with_dollar (c :: d :: p) = ends_with_dollar (d :: p).
Proof. reflexivity. Qed.

Lemma literal_dollars_tail c p :
  Spec.literal_dollars (c :: p) = true -> Spec.literal_dollars p = true.
Proof.
  cbn [Spec.literal_dollars]. intros H. now apply andb_true_iff in H as [_ ?].
Qed.

(** The loop passes over text whose dollar signs start no name and
    copies it to the buffer. *)
Lemma Expand_finish_literal s mapping : forall p pre t fuel b,
  s = pre ++ p ++ t ->
  Spec.literal_dollars p = true -> ends_with_dollar p = false ->
  len s - len pre <= Z.of_nat fuel ->
  Expand_finish s (os.Expand_loop fuel s mapping (Some b) (len pre) (len pre))
  = Expand_finish s
      (os.Expand_loop fuel s mapping (Some (b ++ p))
         (len pre + len p) (len pre + len p)).
Proof.
  induction p as [|c p IH]; intros pre t fuel b Hs Hlit Hend Hfuel.
  - change (len []) with 0. now rewrite Z.add_0_r, app_nil_r.
  - pose proof (len_nonneg pre) as Hpre. pose proof (len_nonneg p) as Hp.
    pose proof (len_nonneg t) as Ht.
    assert (Hlen : len s = len pre + (len p + 1) + len t).
    { subst s. rewrite !len_app, len_cons. lia. }
    assert (Hs' : s = (pre ++ [c]) ++ p ++ t) by (subst s; now rewrite <- app_assoc).
    assert (Hnext : forall f, len s - len pre <= Z.of_nat (S f) ->
              Expand_finish s
                (os.Expand_loop f s mapping (Some (b ++ [c])) (len pre + 1) (len pre + 1))
              = Expand_finish s
                  (os.Expand_loop (S f) s mapping (Some (b ++ c :: p))
                     (len pre + len (c :: p)) (len pre + len (c :: p)))).
    { intros f Hf.
      rewrite (Expand_finish_fuel s mapping f (S f)) by lia.
      specialize (IH (pre ++ [c]) t (S f) (b ++ [c]) Hs' (literal_dollars_tail _ _ Hlit)).
      rewrite len_app in IH. change (len [c]) with 1 in IH.
      rewrite IH.
      - rewrite <- app_assoc, len_cons. cbn [app].
        now replace (len pre + 1 + len p) with (len pre + (len p + 1)) by lia.
      - destruct p; [reflexivity | exact Hend].
      - lia. }
    destruct fuel as [|fuel]; [lia |].
    cbn [os.Expand_loop].
    replace (len pre <? len s) with true by (symmetry; apply Z.ltb_lt; lia).
    assert (index s (len pre) = Ret c) as ->.
    { rewrite Hs at 1. apply index_middle. }
    cbn [mbind Res_bind].
    destruct (byte_eqb c "$") eqn:Ec; cbn [andb].
    + destruct p as [|d p'].
      { unfold ends_with_dollar in Hend. cbn in Hend. congruence. }
      pose proof (len_nonneg p') as Hp'.
      replace (len pre + 1 <? len s) with true
        by (symmetry; apply Z.ltb_lt; rewrite len_cons in Hlen; lia).
      assert (Hd : Spec.starts_name d = false).
      { cbn [Spec.literal_dollars] in Hlit. rewrite Ec in Hlit.
        apply andb_true_iff in Hlit as [Hlit _].
        now destruct (Spec.starts_name d). }
      rewrite slice_ok by lia. cbn [mbind Res_bind].
      rewrite slice_from_ok by (rewrite len_cons in Hlen; lia). cbn [mbind Res_bind].
      assert (drop (Z.to_nat (len pre + 1)) s = d :: p' ++ t) as ->.
      { rewrite Hs'. replace (len pre + 1) with (len (pre ++ [c]))
          by now rewrite len_app.
        apply drop_len_app. }
      rewrite getShellName_no_name by exact Hd.
      cbn [mbind Res_bind]. change (os.is_empty []) with true.
      change (0 <? 0) with false. cbn [andb mbind Res_bind].
      unfold default. cbn [from_option id].
      rewrite Z.sub_diag, take_0, app_nil_r, Z.add_0_r.
      now apply Hnext.
    + rewrite (Expand_finish_advance s mapping fuel b (len pre) (len pre + 1))
        by lia.
      replace (take (Z.to_nat (len pre + 1 - len pre)) (drop (Z.to_nat (len pre)) s))
        with [c].
      * now apply Hnext.
      * rewrite Hs at 1. rewrite drop_len_app.
        now replace (Z.to_nat (len pre + 1 - len pre)) with 1%nat by lia.
Qed.

(** [os.Expand] is the identity on text whose dollar signs start no
    name, whatever the mapping. *)
Lemma os_Expand_literal s mapping :
  Spec.literal_dollars s = true -> os.Expand s mapping = Ret s.
Proof.
  intros Hlit. unfold os.Expand.
  destruct (Expand_loop_literal s mapping s [] (length s) None 0)
    as (buf & i & Hloop & Hi & Hbuf & Hnil); auto; try (change (len []) with 0; lia).
  change (len []) with 0 in Hloop. rewrite Hloop.
  cbn [mbind Res_bind].
  destruct buf as [buf|]; [| reflexivity].
  rewrite slice_from_ok by lia. cbn [mbind Res_bind].
  change (buf = take (Z.to_nat i) s) in Hbuf.
  rewrite Hbuf. now rewrite take_drop.
Qed.

(** Text, then the rest of the template. *)
Lemma os_Expand_app_literal p t mapping :
  Spec.literal_dollars p = true -> ends_with_dollar p = false ->
  os.Expand (p ++ t) mapping = r ← os.Expand t mapping; Ret (p ++ r).
Proof.
  intros Hlit Hend. rewrite !os_Expand_finish.
  rewrite !Expand_finish_nil_buf.
  pose proof (Expand_finish_literal (p ++ t) mapping p [] t (length (p ++ t)) []
                eq_refl Hlit Hend) as H.
  change (len []) with 0 in H. cbn [app] in H. rewrite !Z.add_0_l in H.
  rewrite H by (unfold len; lia).
  pose proof (Expand_finish_shift p t mapping (length (p ++ t)) p 0 0) as Hs.
  rewrite !Z.add_0_r in Hs. rewrite Hs by (pose proof (len_nonneg t); lia).
  rewrite (Expand_finish_fuel t mapping (length (p ++ t)) (length t))
    by (rewrite ?length_app; unfold len; lia).
  rewrite <- (app_nil_r p) at 1. apply Expand_finish_prefix.
Qed.

(** The scan for the closing brace of ["{body}..."]. *)
Lemma scan_brace_closing body t :
  body <> [] -> os.has_byte "}" body = false ->
  forall rest pre fuel,
  body = pre ++ rest -> (length rest < fuel)%nat ->
  os.scan_brace fuel ("{"%char :: body ++ "}"%char :: t) (len pre + 1)
  = Ret (body, len body + 2).
Proof.
  intros Hne Hbrace. set (s := "{"%char :: body ++ "}"%char :: t).
  pose proof (len_nonneg t) as Ht.
  assert (Hlen : len s = len body + 2 + len t).
  { unfold s. rewrite len_cons, len_app, len_cons. lia. }
  induction rest as [|c rest IH]; intros pre fuel Hbody Hfuel.
  - rewrite app_nil_r in Hbody. subst pre.
    destruct fuel as [|fuel]; [simpl in Hfuel; lia |].
    cbn [os.scan_brace]. pose proof (len_nonneg body).
    replace (len body + 1 <? len s) with true by (symmetry; apply Z.ltb_lt; lia).
    assert (index s (len body + 1) = Ret "}"%char) as ->.
    { unfold s. change ("{"%char :: body ++ "}"%char :: t)
        with (("{"%char :: body) ++ "}"%char :: t).
      rewrite <- (len_cons "{"%char body). apply index_middle. }
    cbn [mbind Res_bind]. change (byte_eqb "}" "}") with true. cbv iota.
    assert (len body <> 0).
    { unfold len. destruct body; [congruence | simpl; lia]. }
    replace (len body + 1 =? 1) with false by (symmetry; apply Z.eqb_neq; lia).
    rewrite slice_ok by lia. cbn [mbind Res_bind]. do 2 f_equal.
    + unfold s. change (Z.to_nat 1) with 1%nat. cbn [drop].
      replace (Z.to_nat (len body + 1 - 1)) with (length body)
        by (unfold len; lia).
      apply take_app_length.
    + lia.
  - destruct fuel as [|fuel]; [simpl in Hfuel; lia |].
    cbn [os.scan_brace]. pose proof (len_nonneg pre). pose proof (len_nonneg rest).
    assert (len body = len pre + (len rest + 1))
      by (subst body; now rewrite len_app, len_cons).
    replace (len pre + 1 <? len s) with true by (symmetry; apply Z.ltb_lt; lia).
    assert (index s (len pre + 1) = Ret c) as ->.
    { unfold s. subst body.
      replace ("{"%char :: (pre ++ c :: rest) ++ "}"%char :: t)
        with (("{"%char :: pre) ++ c :: (rest ++ "}"%char :: t))
        by (cbn; now rewrite <- app_assoc).
      rewrite <- (len_cons "{"%char pre). apply index_middle. }
    cbn [mbind Res_bind].
    assert (byte_eqb c "}" = false) as ->.
    { apply byte_eqb_neq. subst body. apply has_byte_false in Hbrace.
      apply Forall_app in Hbrace as [_ Hbrace].
      now inversion Hbrace. }
    specialize (IH (pre ++ [c]) fuel).
    rewrite len_app in IH. change (len [c]) with 1 in IH.
    apply IH; [now rewrite <- app_assoc | simpl in Hfuel; lia].
Qed.

(** The name of ["{body}..."] is [body], whatever follows the brace. *)
Lemma getShellName_placeholder body t :
  body <> [] -> os.has_byte "}" body = false ->
  os.getShellName ("{"%char :: body ++ "}"%char :: t) = Ret (body, len body + 2).
Proof.
  intros Hne Hbrace. unfold os.getShellName.
  set (s := "{"%char :: body ++ "}"%char :: t).
  pose proof (len_nonneg t) as Ht.
  assert (Hlen : len s = len body + 2 + len t).
  { unfold s. rewrite len_cons, len_app, len_cons. lia. }
  rewrite (index_ok s 0 "{"%char) by (reflexivity || lia).
  cbn [mbind Res_bind]. change (byte_eqb "{" "{") with true. cbv iota.
  destruct body as [|c1 body']; [congruence |].
  assert (Hscan : os.scan_brace (length s) s 1 = Ret (c1 :: body', len (c1 :: body') + 2)).
  { apply (scan_brace_closing (c1 :: body') t Hne Hbrace (c1 :: body') []);
      [reflexivity |].
    unfold s. simpl. rewrite length_app. simpl. lia. }
  pose proof (len_nonneg body') as Hb. rewrite len_cons in Hlen.
  replace (2 <? len s) with true by (symmetry; apply Z.ltb_lt; lia).
  rewrite (index_ok s 1 c1) by (reflexivity || lia).
  cbn [mbind Res_bind].
  destruct body' as [|c2 body''].
  - rewrite (index_ok s 2 "}"%char) by (reflexivity || lia).
    cbn [mbind Res_bind Res_ret mret]. change (byte_eqb "}" "}") with true.
    rewrite andb_true_r.
    destruct (os.isShellSpecialVar c1); [| exact Hscan].
    rewrite slice_ok by lia. reflexivity.
  - rewrite (index_ok s 2 c2) by (reflexivity || lia).
    cbn [mbind Res_bind].
    assert (byte_eqb c2 "}" = false) as ->.
    { apply byte_eqb_neq. apply has_byte_false in Hbrace.
      inversion Hbrace as [|? ? _ H2]; subst. now inversion H2. }
    rewrite andb_false_r. exact Hscan.
Qed.

(** One step of the loop at a dollar sign that is followed by more of
    the template. *)
Lemma Expand_loop_dollar fuel d rest mapping :
  os.Expand_loop (S fuel) ("$"%char :: d :: rest) mapping (Some []) 0 0
  = '(name, w) ← os.getShellName (d :: rest);
    buf ← (if os.is_empty name && (0 <? w) then Ret []
           else if os.is_empty name then Ret ["$"%char]
           else v ← mapping name; Ret v);
    os.Expand_loop fuel ("$"%char :: d :: rest) mapping (Some buf) (w + 1) (w + 1).
Proof.
  cbn [os.Expand_loop]. pose proof (len_nonneg rest) as Hr.
  replace (0 <? len ("$"%char :: d :: rest)) with true
    by (symmetry; apply Z.ltb_lt; rewrite !len_cons; lia).
  rewrite (index_ok _ 0 "$"%char) by (reflexivity || lia).
  cbn [mbind Res_bind]. change (byte_eqb "$" "$") with true.
  replace (0 + 1 <? len ("$"%char :: d :: rest)) with true
    by (symmetry; apply Z.ltb_lt; rewrite !len_cons; lia).
  cbn [andb]. rewrite slice_ok by (rewrite ?len_cons; lia). cbn [mbind Res_bind].
  rewrite slice_from_ok by (rewrite ?len_cons; lia). cbn [mbind Res_bind].
  change (drop (Z.to_nat (0 + 1)) ("$"%char :: d :: rest)) with (d :: rest).
  destruct (os.getShellName (d :: rest)) as [[name w]|p]; [| reflexivity].
  cbn [mbind Res_bind]. unfold default. cbn [from_option id take app].
  change (Z.to_nat (0 - 0)) with 0%nat. cbn [take app].
  destruct (os.is_empty name && (0 <? w)); [reflexivity |].
  destruct (os.is_empty name); [reflexivity |].
  destruct (mapping name); reflexivity.
Qed.

(** What follows a variable of [w + 1] bytes is expanded on its own. *)
Lemma Expand_finish_after p t mapping fuel b :
  (length t <= fuel)%nat ->
  Expand_finish (p ++ t) (os.Expand_loop fuel (p ++ t) mapping (Some b) (len p) (len p))
  = r ← os.Expand t mapping; Ret (b ++ r).
Proof.
  intros Hfuel.
  pose proof (Expand_finish_shift p t mapping fuel b 0 0) as Hs.
  rewrite !Z.add_0_r in Hs. rewrite Hs by (pose proof (len_nonneg t); lia).
  rewrite (Expand_finish_fuel t mapping fuel (length t)) by (unfold len; lia).
  rewrite os_Expand_finish, Expand_finish_nil_buf.
  rewrite <- (app_nil_r b) at 1. apply Expand_finish_prefix.
Qed.

(** A placeholder, then the rest of the template. *)
Lemma os_Expand_app_placeholder body t mapping :
  body <> [] -> os.has_byte "}" body = false ->
  os.Expand (str "${" ++ body ++ str "}" ++ t) mapping
  = v ← mapping body; r ← os.Expand t mapping; Ret (v ++ r).
Proof.
  intros Hne Hbrace.
  change (str "${" ++ body ++ str "}" ++ t)
    with ("$"%char :: "{"%char :: body ++ "}"%char :: t).
  rewrite os_Expand_finish, Expand_finish_nil_buf.
  cbn [length]. rewrite Expand_loop_dollar.
  rewrite getShellName_placeholder by assumption. cbn [mbind Res_bind].
  assert (os.is_empty body = false) as ->.
  { unfold os.is_empty. apply Z.eqb_neq. unfold len.
    destruct body; [congruence | simpl; lia]. }
  cbn [andb]. destruct (mapping body) as [v|p]; [| reflexivity].
  cbn [mbind Res_bind].
  replace ("$"%char :: "{"%char :: body ++ "}"%char :: t)
    with ((str "${" ++ body ++ str "}") ++ t)
    by (cbn; now rewrite <- app_assoc).
  replace (len body + 2 + 1) with (len (str "${" ++ body ++ str "}")).
  - apply Expand_finish_after. simpl. rewrite length_app. simpl. lia.
  - cbn [str list_ascii_of_string app]. rewrite !len_cons, len_app.
    change (len ["}"%char]) with 1. lia.
Qed.

(** Empty braces are eaten. *)
Lemma os_Expand_app_empty_braces t mapping :
  os.Expand (str "${}" ++ t) mapping = os.Expand t mapping.
Proof.
  change (str "${}" ++ t) with ("$"%char :: "{"%char :: "}"%char :: t).
  rewrite os_Expand_finish, Expand_finish_nil_buf.
  cbn [length]. rewrite Expand_loop_dollar.
  assert (os.getShellName ("{"%char :: "}"%char :: t) = Ret ([], 2)) as ->.
  { unfold os.getShellName.
    rewrite (index_ok _ 0 "{"%char) by (reflexivity || lia).
    cbn [mbind Res_bind]. change (byte_eqb "{" "{") with true. cbv iota.
    assert (Hscan : os.scan_brace (length ("{"%char :: "}"%char :: t))
                      ("{"%char :: "}"%char :: t) 1 = Ret ([], 2)).
    { cbn [length os.scan_brace]. pose proof (len_nonneg t).
      replace (1 <? len ("{"%char :: "}"%char :: t)) with true
        by (symmetry; apply Z.ltb_lt; rewrite !len_cons; lia).
      rewrite (index_ok _ 1 "}"%char) by (reflexivity || lia). reflexivity. }
    destruct (2 <? len ("{"%char :: "}"%char :: t)) eqn:E2;
      cbn [mbind Res_bind]; [| exact Hscan].
    apply Z.ltb_lt in E2.
    rewrite (index_ok _ 1 "}"%char) by (reflexivity || lia).
    cbn [mbind Res_bind].
    destruct t as [|c2 t']; [rewrite !len_cons in E2; change (len []) with 0 in E2; lia |].
    rewrite (index_ok _ 2 c2) by (reflexivity || lia).
    cbn [mbind Res_bind Res_ret mret]. exact Hscan. }
  cbn [mbind Res_bind]. change (os.is_empty []) with true.
  change (0 <? 2) with true. cbn [andb mbind Res_bind].
  pose proof (Expand_finish_after (str "${}") t mapping (S (S (length t))) []) as H.
  change (len (str "${}")) with 3 in H. change (2 + 1) with 3.
  cbn [mbind Res_bind] in H.
  etransitivity; [apply H; lia |].
  destruct (os.Expand t mapping); reflexivity.
Qed.

(** ** Unbraced names *)

(** What the bytes of a name are not. *)
Lemma isAlphaNum_props c :
  os.isAlphaNum c = true ->
  byte_eqb c "{" = false /\ byte_eqb c "|" = false /\ byte_eqb c "}" = false
  /\ byte_val c < utf8.RuneSelf /\ strings.asciiSpace (byte_val c) = false.
Proof.
  destruct c as [[] [] [] [] [] [] [] []]; vm_compute; intros H;
    try discriminate H; repeat split; reflexivity.
Qed.

(** The scan of an unbraced name stops where the name ends. *)
Lemma scan_alnum_name name t :
  ends_name t = true ->
  forall rest pre fuel,
  name = pre ++ rest -> forallb os.isAlphaNum rest = true ->
  (length rest <= fuel)%nat ->
  os.scan_alnum fuel (name ++ t) (len pre) = Ret (len name).
Proof.
  intros Ht. induction rest as [|c rest IH]; intros pre fuel Hname Hall Hfuel.
  - rewrite app_nil_r in Hname. subst pre.
    destruct fuel as [|fuel]; [reflexivity |]. cbn [os.scan_alnum].
    destruct (len name <? len (name ++ t)) eqn:E; [| reflexivity].
    destruct t as [|d t'].
    + rewrite app_nil_r in E. apply Z.ltb_lt in E. lia.
    + rewrite index_middle. cbn [mbind Res_bind].
      unfold ends_name in Ht. apply negb_true_iff in Ht. now rewrite Ht.
  - destruct fuel as [|fuel]; [simpl in Hfuel; lia |]. cbn [os.scan_alnum].
    cbn [forallb] in Hall. apply andb_true_iff in Hall as [Hc Hall].
    pose proof (len_nonneg pre). pose proof (len_nonneg rest). pose proof (len_nonneg t).
    subst name.
    replace (len pre <? len ((pre ++ c :: rest) ++ t)) with true
      by (symmetry; apply Z.ltb_lt; rewrite !len_app, len_cons; lia).
    assert (index ((pre ++ c :: rest) ++ t) (len pre) = Ret c) as ->.
    { rewrite <- app_assoc, <- app_comm_cons. apply index_middle. }
    cbn [mbind Res_bind]. rewrite Hc.
    specialize (IH (pre ++ [c]) fuel).
    rewrite len_app in IH. change (len [c]) with 1 in IH.
    apply IH; [now rewrite <- app_assoc | assumption | simpl in Hfuel; lia].
Qed.

(** The name of ["NAME..."] is [NAME]. *)
Lemma getShellName_name name t :
  plain_name name = true -> ends_name t = true ->
  os.getShellName (name ++ t) = Ret (name, len name).
Proof.
  intros Hname Ht. destruct name as [|c name']; [discriminate |].
  unfold plain_name in Hname. apply andb_true_iff in Hname as [Hspecial Hall].
  apply negb_true_iff in Hspecial.
  assert (Hc : os.isAlphaNum c = true)
    by (cbn [forallb] in Hall; now apply andb_true_iff in Hall as [? _]).
  destruct (isAlphaNum_props c Hc) as (Hbrace & _).
  unfold os.getShellName. pose proof (len_nonneg name'). pose proof (len_nonneg t).
  rewrite (index_ok ((c :: name') ++ t) 0 c) by (reflexivity || lia).
  cbn [mbind Res_bind]. rewrite Hbrace, Hspecial.
  rewrite (scan_alnum_name (c :: name') t Ht (c :: name') [] _ eq_refl Hall)
    by (rewrite length_app; lia).
  cbn [mbind Res_bind]. pose proof (len_nonneg (c :: name')).
  rewrite slice_ok by (rewrite ?len_app; lia).
  cbn [mbind Res_bind]. do 2 f_equal.
  change (Z.to_nat 0) with 0%nat. rewrite drop_0, Z.sub_0_r.
  replace (Z.to_nat (len (c :: name'))) with (length (c :: name')) by (unfold len; lia).
  apply take_app_length.
Qed.

(** An unbraced name, then the rest of the template. *)
Lemma os_Expand_app_name name t mapping :
  plain_name name = true -> ends_name t = true ->
  os.Expand (str "$" ++ name ++ t) mapping
  = v ← mapping name; r ← os.Expand t mapping; Ret (v ++ r).
Proof.
  intros Hname Ht. destruct name as [|c name'] eqn:En; [discriminate |].
  rewrite <- En in *.
  change (str "$" ++ name ++ t) with ("$"%char :: name ++ t).
  assert (Es : name ++ t = c :: name' ++ t) by (now subst name).
  rewrite os_Expand_finish, Expand_finish_nil_buf.
  rewrite Es. cbn [length]. rewrite Expand_loop_dollar. rewrite <- Es.
  rewrite getShellName_name by assumption. cbn [mbind Res_bind].
  assert (os.is_empty name = false) as ->.
  { unfold os.is_empty. apply Z.eqb_neq. subst name. rewrite len_cons.
    pose proof (len_nonneg name'). lia. }
  cbn [andb]. destruct (mapping name) as [v|p]; [| reflexivity].
  cbn [mbind Res_bind].
  replace ("$"%char :: name ++ t) with ((str "$" ++ name) ++ t) by reflexivity.
  replace (len name + 1) with (len (str "$" ++ name)).
  - apply Expand_finish_after. rewrite length_app. lia.
  - cbn [str list_ascii_of_string app]. rewrite len_cons. lia.
Qed.

(** [TrimSpace] leaves a string of ASCII bytes that are no white space
    as it is. *)
Lemma TrimSpace_no_space (s : gostring) :
  Forall (fun c => byte_val c < utf8.RuneSelf
                   /\ strings.asciiSpace (byte_val c) = false) s ->
  strings.TrimSpace s = s.
Proof.
  intros Hall. destruct s as [|c s'] eqn:En; [reflexivity |].
  rewrite <- En in *. unfold strings.TrimSpace.
  assert (Hlen : 0 < len s)
    by (subst s; rewrite len_cons; pose proof (len_nonneg s'); lia).
  assert (Hlength : length s = S (length s')) by now subst s.
  assert (Hany : forall i, (i < length s)%nat ->
            byte_at s i < utf8.RuneSelf
            /\ strings.asciiSpace (byte_at s i) = false).
  { intros i Hi. rewrite Forall_forall in Hall.
    unfold byte_at. apply Hall. apply list_elem_of_In. apply nth_In. exact Hi. }
  rewrite Hlength. cbn [strings.TrimSpace_start].
  replace (0 <? len s) with true by (symmetry; now apply Z.ltb_lt).
  destruct (Hany 0%nat ltac:(lia)) as [H1 H2].
  change (Z.to_nat 0) with 0%nat.
  replace (utf8.RuneSelf <=? byte_at s 0) with false
    by (symmetry; apply Z.leb_gt; exact H1).
  rewrite H2. cbn [negb]. cbn [strings.TrimSpace_stop].
  replace (0 <? len s) with true by (symmetry; now apply Z.ltb_lt).
  destruct (Hany (Z.to_nat (len s - 1)) ltac:(unfold len in *; lia)) as [H3 H4].
  replace (utf8.RuneSelf <=? byte_at s (Z.to_nat (len s - 1))) with false
    by (symmetry; apply Z.leb_gt; exact H3).
  rewrite H4. cbn [negb]. rewrite drop_0, Z.sub_0_r.
  replace (Z.to_nat (len s)) with (length s) by (unfold len; lia).
  apply firstn_all.
Qed.

(** A body without a bar is one segment. *)
Lemma segments_no_bar s :
  os.has_byte "|" s = false -> forall escaped, Spec.segments escaped s = [s].
Proof.
  intros H. apply has_byte_false in H.
  induction H as [|c s Hc _ IH]; intros escaped; [reflexivity |].
  cbn [Spec.segments]. apply byte_eqb_neq in Hc. rewrite Hc. cbn [andb].
  now rewrite IH.
Qed.

(** A body without a bar is its own and only candidate key. *)
Lemma read_body_no_bar body :
  os.has_byte "|" body = false -> read_body body = Spec.KeySpec [body] None.
Proof.
  intros H. unfold read_body. pose proof (segments_no_bar body H false) as Hs.
  destruct body as [|c rest]; [reflexivity |].
  assert (byte_eqb c "|" = false) as ->.
  { apply has_byte_false in H. inversion H; subst. now apply byte_eqb_neq. }
  now rewrite Hs.
Qed.

(** The function literal of [Expand] on a body that trimming leaves as
    it is and that has no bar looks the body up as one key. *)
Lemma Expand_func1_one_key env key :
  key <> [] -> strings.TrimSpace key = key -> os.has_byte "|" key = false ->
  env.Expand_func1 env key = Ret (os.Getenv env key).
Proof.
  intros Hne Htrim Hbar.
  rewrite Expand_func1_resolve; rewrite Htrim.
  - f_equal. rewrite read_body_no_bar by assumption.
    unfold Spec.resolve. cbn [Spec.candidates Spec.default_value Spec.first_set].
    unfold os.Getenv. destruct (os.LookupEnv env key); reflexivity.
  - assumption.
  - destruct key as [|c key']; [congruence |].
    apply has_byte_false in Hbar. inversion Hbar; subst.
    assert (byte_eqb "|" c = false) as Hc
      by (rewrite byte_eqb_sym; now apply byte_eqb_neq).
    change (strings.HasPrefix (c :: key') (str "||"))
      with (byte_eqb "|" c && strings.HasPrefix key' ["|"%char]).
    now rewrite Hc.
Qed.

(** The bytes of the names that [getShellName] reads without braces. *)
Lemma name_byte_props c :
  os.isAlphaNum c || os.isShellSpecialVar c = true ->
  byte_eqb c "|" = false
  /\ byte_val c < utf8.RuneSelf /\ strings.asciiSpace (byte_val c) = false.
Proof.
  destruct c as [[] [] [] [] [] [] [] []]; vm_compute; intros H;
    try discriminate H; repeat split; reflexivity.
Qed.

(** The function literal of [Expand] on an unbraced name looks the
    name up. *)
Lemma Expand_func1_unbraced env name :
  name <> [] ->
  Forall (fun c => os.isAlphaNum c || os.isShellSpecialVar c = true) name ->
  env.Expand_func1 env name = Ret (os.Getenv env name).
Proof.
  intros Hne Hall. apply Expand_func1_one_key; [assumption | |].
  - apply TrimSpace_no_space. eapply Forall_impl; [exact Hall |].
    intros c Hc. now destruct (name_byte_props c Hc) as (_ & ? & ?).
  - apply has_byte_false. eapply Forall_impl; [exact Hall |].
    intros c Hc. destruct (name_byte_props c Hc) as (? & _).
    now apply byte_eqb_neq.
Qed.

(** The function literal of [Expand] on a plain name looks the name up. *)
Lemma Expand_func1_name env name :
  plain_name name = true ->
  env.Expand_func1 env name = Ret (os.Getenv env name).
Proof.
  intros Hname. destruct name as [|c name'] eqn:En; [discriminate |].
  rewrite <- En in *. apply Expand_func1_unbraced; [subst; discriminate |].
  unfold plain_name in Hname. rewrite En in Hname.
  apply andb_true_iff in Hname as [_ Hall]. rewrite <- En in Hall.
  apply Forall_forall. intros d Hd. apply list_elem_of_In in Hd.
  apply (proj1 (forallb_forall _ _) Hall) in Hd. now rewrite Hd.
Qed.

(** ** Keys written without an escaped bar *)

(** Undoing the escapes changes nothing in a string without one. *)
Lemma unescape_no_escape (k : gostring) :
  strings.Contains k (str "\|") = false -> Spec.unescape k = k.
Proof.
  induction k as [|c k IH]; [reflexivity |].
  cbn [strings.Contains]. intros H. apply orb_false_elim in H as [Hpre Hrest].
  cbn [Spec.unescape]. destruct k as [|d k']; [reflexivity |].
  change (strings.HasPrefix (c :: d :: k') (str "\|"))
    with (byte_eqb "\" c && (byte_eqb "|" d && strings.HasPrefix k' [])) in Hpre.
  rewrite HasPrefix_nil, andb_true_r in Hpre.
  rewrite (byte_eqb_sym c), (byte_eqb_sym d), Hpre.
  f_equal. now apply IH.
Qed.

(** The code reads the keys as they are written and the default value
    unescaped. *)
Lemma read_body_written (body : gostring) :
  read_body body
  = Spec.KeySpec (Spec.written_keys body)
                 (Spec.unescape <$> Spec.written_default body).
Proof.
  unfold read_body, Spec.written_keys, Spec.written_default.
  destruct body as [|c rest]; [reflexivity |].
  destruct (byte_eqb c "|"); cbn [orb]; [reflexivity |].
  now destruct (1 <? length (Spec.segments false (c :: rest)))%nat.
Qed.

(** For a body whose keys are written without an escaped bar, the code
    reads the key specification of section 4.1. *)
Lemma parse_read_body (body : gostring) :
  Forall (fun k => strings.Contains k (str "\|") = false) (Spec.written_keys body) ->
  Spec.parse body = read_body body.
Proof.
  intros H. rewrite read_body_written. unfold Spec.parse. f_equal.
  induction H as [|k ks Hk _ IH]; [reflexivity |].
  cbn [fmap list_fmap]. rewrite (unescape_no_escape k Hk). f_equal. exact IH.
Qed.

(** ** Templates without braces *)

Lemma index_Ret_lookup (s : gostring) i c :
  index s i = Ret c -> s !! Z.to_nat i = Some c.
Proof.
  unfold index. destruct (_ && _); [| discriminate].
  destruct (s !! Z.to_nat i); [| discriminate]. now intros [= ->].
Qed.

(** The bytes that the scan of an unbraced name passes are letters,
    digits and underscores. *)
Lemma scan_alnum_all s : forall fuel i j,
  0 <= i -> os.scan_alnum fuel s i = Ret j ->
  Forall (fun c => os.isAlphaNum c = true)
         (take (Z.to_nat (j - i)) (drop (Z.to_nat i) s)).
Proof.
  induction fuel as [|fuel IH]; intros i j Hi; cbn [os.scan_alnum].
  - intros [= <-]. rewrite Z.sub_diag. constructor.
  - destruct (i <? len s); [| intros [= <-]; rewrite Z.sub_diag; constructor].
    destruct (index s i) as [c|p] eqn:Ec; [| discriminate].
    cbn [mbind Res_bind].
    destruct (os.isAlphaNum c) eqn:Hc;
      [| intros [= <-]; rewrite Z.sub_diag; constructor].
    intros H. pose proof (scan_alnum_ge _ _ _ _ H) as Hge.
    apply IH in H; [| lia]. apply index_Ret_lookup in Ec.
    rewrite (drop_S s c (Z.to_nat i)) by exact Ec.
    replace (Z.to_nat (j - i)) with (S (Z.to_nat (j - (i + 1)))) by lia.
    cbn [take]. constructor; [exact Hc |].
    replace (S (Z.to_nat i)) with (Z.to_nat (i + 1)) by lia. exact H.
Qed.

(** The scan of an unbraced name reads inside the string. *)
Lemma scan_alnum_returns s : forall fuel i,
  0 <= i -> exists j, os.scan_alnum fuel s i = Ret j.
Proof.
  induction fuel as [|fuel IH]; intros i Hi; cbn [os.scan_alnum]; [now eexists |].
  destruct (Z.ltb_spec i (len s)) as [Hlt|Hge]; [| now eexists].
  destruct (lookup_lt_is_Some_2 s (Z.to_nat i) ltac:(unfold len in *; lia)) as [c Hc].
  rewrite (index_ok s i c) by assumption. cbn [mbind Res_bind].
  destruct (os.isAlphaNum c); [apply IH; lia | now eexists].
Qed.

(** After a dollar sign that no brace follows, [getShellName] returns:
    the name it reads is made of letters, digits, underscores and the
    shell's special characters. *)
Lemma getShellName_unbraced d rest :
  byte_eqb d "{" = false ->
  exists name w,
    os.getShellName (d :: rest) = Ret (name, w)
    /\ 0 <= w <= len (d :: rest)
    /\ Forall (fun c => os.isAlphaNum c || os.isShellSpecialVar c = true) name.
Proof.
  intros Hd. unfold os.getShellName. pose proof (len_nonneg rest) as Hr.
  rewrite (index_ok (d :: rest) 0 d) by (reflexivity || lia).
  cbn [mbind Res_bind]. rewrite Hd.
  destruct (os.isShellSpecialVar d) eqn:Hs.
  - rewrite slice_ok by (rewrite ?len_cons; lia). cbn [mbind Res_bind].
    eexists _, _. split; [reflexivity |]. split; [rewrite len_cons; lia |].
    change (Z.to_nat (1 - 0)) with 1%nat. change (Z.to_nat 0) with 0%nat.
    cbn [drop take]. constructor; [| constructor].
    rewrite Hs. apply orb_true_r.
  - destruct (os.scan_alnum (length (d :: rest)) (d :: rest) 0) as [i|p] eqn:E.
    + pose proof (scan_alnum_ge _ _ _ _ E) as Hge.
      assert (Hle : i <= len (d :: rest))
        by (eapply scan_alnum_le; [| exact E]; rewrite len_cons; lia).
      pose proof (scan_alnum_all _ _ _ _ (Z.le_refl 0) E) as Hall.
      cbn [mbind Res_bind]. rewrite slice_ok by lia. cbn [mbind Res_bind].
      eexists _, _. split; [reflexivity |]. split; [lia |].
      eapply Forall_impl; [exact Hall |]. intros c Hc. now rewrite Hc.
    + destruct (scan_alnum_returns (d :: rest) (length (d :: rest)) 0 (Z.le_refl 0))
        as [j Hj]. congruence.
Qed.

(** The loop of [os.Expand] over a template without an opening brace
    returns, when the mapping returns on every unbraced name. *)
Lemma Expand_loop_unbraced s mapping :
  os.has_byte "{" s = false ->
  (forall name, name <> [] ->
     Forall (fun c => os.isAlphaNum c || os.isShellSpecialVar c = true) name ->
     exists v, mapping name = Ret v) ->
  forall fuel buf i j,
  0 <= i <= j -> i <= len s ->
  exists buf' i',
    os.Expand_loop fuel s mapping buf i j = Ret (buf', i') /\ 0 <= i' <= len s.
Proof.
  intros Hbrace Hmap.
  induction fuel as [|fuel IH]; intros buf i j Hij Hi; cbn [os.Expand_loop].
  - eexists _, _. split; [reflexivity | lia].
  - destruct (Z.ltb_spec j (len s)) as [Hj|Hj];
      [| eexists _, _; split; [reflexivity | lia]].
    destruct (lookup_lt_is_Some_2 s (Z.to_nat j) ltac:(unfold len in *; lia)) as [c Hc].
    rewrite (index_ok s j c) by (assumption || lia). cbn [mbind Res_bind].
    destruct (byte_eqb c "$" && (j + 1 <? len s)) eqn:Ed; [| apply IH; lia].
    apply andb_true_iff in Ed as [_ Hj1]. apply Z.ltb_lt in Hj1.
    rewrite slice_ok by lia. cbn [mbind Res_bind].
    rewrite slice_from_ok by lia. cbn [mbind Res_bind].
    destruct (drop (Z.to_nat (j + 1)) s) as [|d rest] eqn:Erest.
    { apply (f_equal length) in Erest. rewrite length_drop in Erest.
      simpl in Erest. unfold len in *. lia. }
    assert (Hlen : len (d :: rest) = len s - (j + 1)).
    { rewrite <- Erest. unfold len in *. rewrite length_drop. lia. }
    assert (Hd : byte_eqb d "{" = false).
    { apply byte_eqb_neq. apply has_byte_false in Hbrace.
      rewrite Forall_forall in Hbrace. apply Hbrace.
      apply (list_elem_of_lookup_2 _ (Z.to_nat (j + 1))).
      rewrite <- (Nat.add_0_r (Z.to_nat (j + 1))), <- lookup_drop.
      now rewrite Erest. }
    destruct (getShellName_unbraced d rest Hd) as (name & w & -> & Hw & Hname).
    cbn [mbind Res_bind].
    destruct (os.is_empty name && (0 <? w)); cbn [mbind Res_bind];
      [apply IH; lia |].
    destruct (os.is_empty name) eqn:Ee; cbn [mbind Res_bind]; [apply IH; lia |].
    destruct (Hmap name) as [v ->]; [| assumption |].
    + intros ->. discriminate Ee.
    + cbn [mbind Res_bind]. apply IH; lia.
Qed.

(** ** Templates piece by piece *)

(** X11.  Text in which no dollar sign starts a name and that does not
    end in a dollar sign, followed by the rest of a template: [Expand]
    copies the text and expands the rest on its own; a panic of the
    rest is the panic of the whole. *)
Theorem Expand_text_then_rest (env : Env) (p t : gostring) :
  Spec.literal_dollars p = true -> ends_with_dollar p = false ->
  env.Expand env (p ++ t) = r ← env.Expand env t; Ret (p ++ r).
Proof.
  intros Hlit Hend. unfold env.Expand. now apply os_Expand_app_literal.
Qed.

Lemma Expand_text_then_rest_witness :
  env.Expand (<[str "PORT" := str "80"]> ∅) (str "cost 5$ at :" ++ str "$PORT")
  = r ← env.Expand (<[str "PORT" := str "80"]> ∅) (str "$PORT");
    Ret (str "cost 5$ at :" ++ r).
Proof.
  apply (Expand_text_then_rest (<[str "PORT" := str "80"]> ∅)
           (str "cost 5$ at :") (str "$PORT")); reflexivity.
Defined.

(** X12.  A placeholder [${body}] whose body has no closing brace, is
    not blank and does not start with two bars once trimmed, and whose
    candidate keys are written without an escaped bar, followed by the
    rest of a template: [Expand] writes the value that section 4.1
    gives the body and expands the rest on its own. *)
Theorem Expand_placeholder_then_rest (env : Env) (body t : gostring) :
  os.has_byte "}" body = false ->
  strings.TrimSpace body <> [] ->
  strings.HasPrefix (strings.TrimSpace body) (str "||") = false ->
  Forall (fun k => strings.Contains k (str "\|") = false)
         (Spec.written_keys (strings.TrimSpace body)) ->
  env.Expand env (str "${" ++ body ++ str "}" ++ t)
  = r ← env.Expand env t;
    Ret (Spec.resolve env (Spec.parse (strings.TrimSpace body)) ++ r).
Proof.
  intros Hbrace Hne Hbars Hkeys. unfold env.Expand.
  rewrite os_Expand_app_placeholder; [| | assumption].
  - rewrite Expand_func1_resolve by assumption.
    rewrite parse_read_body by exact Hkeys. reflexivity.
  - intros ->. now apply Hne.
Qed.

Lemma Expand_placeholder_then_rest_witness :
  env.Expand (<[str "B" := str "2"]> ∅)
    (str "${" ++ str " A|B|no\|ne " ++ str "}" ++ str "/${B}")
  = r ← env.Expand (<[str "B" := str "2"]> ∅) (str "/${B}");
    Ret (Spec.resolve (<[str "B" := str "2"]> ∅)
           (Spec.parse (strings.TrimSpace (str " A|B|no\|ne "))) ++ r).
Proof.
  apply (Expand_placeholder_then_rest (<[str "B" := str "2"]> ∅)
           (str " A|B|no\|ne ") (str "/${B}")).
  - reflexivity.
  - vm_compute. discriminate.
  - reflexivity.
  - vm_compute. repeat constructor.
Defined.

(** X13.  An unbraced [$NAME] of letters, digits and underscores that
    does not start with a digit, followed by text that does not
    continue the name: [Expand] writes the value of the variable
    [NAME], empty when it is not set, and expands the rest on its
    own. *)
Theorem Expand_name_then_rest (env : Env) (name t : gostring) :
  plain_name name = true -> ends_name t = true ->
  env.Expand env (str "$" ++ name ++ t)
  = r ← env.Expand env t; Ret (env.Get env name ++ r).
Proof.
  intros Hname Ht. unfold env.Expand.
  rewrite os_Expand_app_name by assumption.
  rewrite Expand_func1_name by assumption. reflexivity.
Qed.

Lemma Expand_name_then_rest_witness :
  env.Expand (<[str "HOME" := str "/root"]> ∅) (str "$" ++ str "HOME" ++ str "/bin:$X")
  = r ← env.Expand (<[str "HOME" := str "/root"]> ∅) (str "/bin:$X");
    Ret (env.Get (<[str "HOME" := str "/root"]> ∅) (str "HOME") ++ r).
Proof.
  apply (Expand_name_then_rest (<[str "HOME" := str "/root"]> ∅)
           (str "HOME") (str "/bin:$X")); reflexivity.
Defined.

(** X14.  Empty braces are dropped: a template that starts with [${}]
    expands as the template without it. *)
Theorem Expand_empty_braces_dropped (env : Env) (t : gostring) :
  env.Expand env (str "${}" ++ t) = env.Expand env t.
Proof.
  unfold env.Expand. apply os_Expand_app_empty_braces.
Qed.

(** X15.  A placeholder whose body, without a closing brace and not
    empty, is blank or starts with two bars once trimmed makes
    [Expand] panic with an index out of range, whatever follows it in
    the template. *)
Theorem Expand_placeholder_panics (env : Env) (body t : gostring) :
  body <> [] -> os.has_byte "}" body = false ->
  (strings.TrimSpace body = [] ->
   env.Expand env (str "${" ++ body ++ str "}" ++ t) = Panic (IndexOutOfRange 0 0))
  /\ (forall rest, strings.TrimSpace body = str "||" ++ rest ->
      env.Expand env (str "${" ++ body ++ str "}" ++ t)
      = Panic (IndexOutOfRange (-1) (len rest + 1))).
Proof.
  intros Hne Hbrace. unfold env.Expand.
  rewrite os_Expand_app_placeholder by assumption. split.
  - intros Hblank. now rewrite Expand_func1_blank.
  - intros rest Hbars. now rewrite (Expand_func1_two_bars env body rest).
Qed.

Lemma Expand_placeholder_panics_witness :
  env.Expand ∅ (str "${" ++ str "  " ++ str "}" ++ str " and more")
  = Panic (IndexOutOfRange 0 0)
  /\ env.Expand ∅ (str "${" ++ str " ||x" ++ str "}" ++ str " and more")
     = Panic (IndexOutOfRange (-1) (len (str "x") + 1)).
Proof.
  split.
  - apply (proj1 (Expand_placeholder_panics ∅ (str "  ") (str " and more")
                    ltac:(discriminate) eq_refl)).
    reflexivity.
  - apply (proj2 (Expand_placeholder_panics ∅ (str " ||x") (str " and more")
                    ltac:(discriminate) eq_refl) (str "x")).
    reflexivity.
Defined.

(** X16.  [Expand] does not panic on a template without an opening
    brace: it returns a string. *)
Theorem Expand_without_brace_returns (env : Env) (s : gostring) :
  os.has_byte "{" s = false -> exists v, env.Expand env s = Ret v.
Proof.
  intros Hbrace. unfold env.Expand, os.Expand.
  destruct (Expand_loop_unbraced s (env.Expand_func1 env) Hbrace) with
    (fuel := length s) (buf := @None gostring) (i := 0) (j := 0)
    as (buf & i & -> & Hi).
  - intros name Hne Hname. eexists. now apply Expand_func1_unbraced.
  - lia.
  - apply len_nonneg.
  - cbn [mbind Res_bind]. destruct buf as [buf|]; [| now eexists].
    rewrite slice_from_ok by lia. now eexists.
Qed.

Lemma Expand_without_brace_returns_witness :
  exists v, env.Expand (<[str "HOME" := str "/root"]> ∅) (str "$HOME/bin:$1:$") = Ret v.
Proof.
  apply (Expand_without_brace_returns (<[str "HOME" := str "/root"]> ∅)
           (str "$HOME/bin:$1:$")).
  reflexivity.
Defined.

(** ** What the loaders write *)

(** The scan of [os.Environ()] over well-formed entries collects their
    keys and nothing else. *)
Lemma current_keys_entries (l : list (gostring * gostring)) : forall acc,
  Forall (fun kv => os.has_byte "=" kv.1 = false) l ->
  env.current_keys ((fun kv : gostring * gostring => kv.1 ++ str "=" ++ kv.2) <$> l) acc
  = Ret (list_to_set l.*1 ∪ acc).
Proof.
  induction l as [|[k v] l IH]; intros acc Hwf.
  - cbn. f_equal. set_solver.
  - inversion Hwf as [|? ? Hk Hl]; subst. cbn [fmap list_fmap env.current_keys fst snd].
    cbn [fst snd] in Hk. rewrite SplitN2_entry by exact Hk.
    change (list_fmap _ _ ?f l) with (f <$> l). rewrite IH by exact Hl.
    f_equal. cbn [list_to_set]. set_solver.
Qed.

(** The snapshot [currentKeys] of [Load] is the set of the keys of the
    environment. *)
Lemma current_keys_dom (env : Env) :
  keys_well_formed env = true ->
  env.current_keys (os.Environ env) ∅ = Ret (dom env).
Proof.
  intros Hwf. unfold os.Environ. rewrite current_keys_entries.
  - f_equal. apply leibniz_equiv. rewrite dom_alt. set_solver.
  - unfold keys_well_formed in Hwf. rewrite forallb_forall in Hwf.
    apply Forall_forall. intros kv Hkv. apply negb_true_iff. apply Hwf.
    now apply list_elem_of_In.
Qed.

Lemma Load_dom (Read : gostring -> list (gostring * gostring) * error)
    (filenames : list gostring) (env : Env) :
  keys_well_formed env = true ->
  env.Load Read filenames env
  = env.Load_files Read (dom env) (loaded_files filenames) env.
Proof.
  intros Hwf. unfold env.Load. rewrite current_keys_dom by exact Hwf.
  destruct filenames; reflexivity.
Qed.

Lemma literal_entry_spec kv :
  literal_entry kv = true ->
  valid_key kv.1 = true /\ os.has_byte zero kv.2 = false
  /\ Spec.literal_dollars kv.2 = true.
Proof.
  unfold literal_entry. intros H.
  apply andb_true_iff in H as [H H3]. apply andb_true_iff in H as [H1 H2].
  apply negb_true_iff in H2. auto.
Qed.

(** A pair with a literal value is written as it is. *)
Lemma Set_literal (e : Env) k v :
  literal_entry (k, v) = true ->
  env.Expand e v = Ret v /\ env.Set_ k v e = (commit e (k, v), None).
Proof.
  intros H. apply literal_entry_spec in H as (Hk & Hv & Hlit). cbn [fst snd] in *.
  split.
  - unfold env.Expand. now apply os_Expand_literal.
  - unfold env.Set_. now apply Setenv_valid.
Qed.

Lemma Load_entries_literal (ck : gset gostring) envMap : forall e,
  Forall (fun kv => literal_entry kv = true) envMap ->
  env.Load_entries ck envMap e
  = (foldl (fun e kv => if decide (kv.1 ∈ ck) then e else commit e kv) e envMap,
     Ret None).
Proof.
  induction envMap as [|[k v] envMap IH]; intros e Hall; [reflexivity |].
  inversion Hall as [|? ? Hkv Hrest]; subst.
  cbn [env.Load_entries foldl fst].
  destruct (decide (k ∈ ck)); [now apply IH |].
  destruct (Set_literal e k v Hkv) as [-> ->]. now apply IH.
Qed.

Lemma Load_files_literal (Read : gostring -> list (gostring * gostring) * error)
    (ck : gset gostring) (filenames : list gostring) : forall e,
  readable Read filenames ->
  Forall (fun kv => literal_entry kv = true) (file_entries Read filenames) ->
  env.Load_files Read ck filenames e
  = (foldl (fun e kv => if decide (kv.1 ∈ ck) then e else commit e kv) e
       (file_entries Read filenames),
     Ret None).
Proof.
  induction filenames as [|f filenames IH]; intros e Hread Hall; [reflexivity |].
  inversion Hread as [|? ? Hf Hfs]; subst.
  unfold file_entries in *. cbn [flat_map] in *.
  apply Forall_app in Hall as [Hf1 Hrest].
  cbn [env.Load_files]. destruct (Read f) as [envMap err] eqn:Ef.
  cbn [fst snd] in *. subst err.
  rewrite Load_entries_literal by exact Hf1.
  rewrite foldl_app. now apply IH.
Qed.

Lemma Override_entries_literal envMap : forall e,
  Forall (fun kv => literal_entry kv = true) envMap ->
  env.Override_entries envMap e = (foldl commit e envMap, Ret None).
Proof.
  induction envMap as [|[k v] envMap IH]; intros e Hall; [reflexivity |].
  inversion Hall as [|? ? Hkv Hrest]; subst.
  cbn [env.Override_entries foldl].
  destruct (Set_literal e k v Hkv) as [_ Hset].
  apply literal_entry_spec in Hkv as (_ & _ & Hlit). cbn [snd] in Hlit.
  rewrite os_Expand_literal by exact Hlit. rewrite Hset. now apply IH.
Qed.

(** X17.  When every file can be read and every pair has a key that
    [os.Setenv] takes and a value without NUL in which no dollar sign
    starts a name, [Override] returns nil and leaves the environment
    with every pair written, in the order of the files: a later pair
    replaces an earlier one and a value that was there before. *)
Theorem Override_writes_literal_files
    (Read : gostring -> list (gostring * gostring) * error)
    (filenames : list gostring) (env : Env) :
  readable Read filenames ->
  Forall (fun kv => literal_entry kv = true) (file_entries Read filenames) ->
  env.Override Read filenames env
  = (foldl commit env (file_entries Read filenames), Ret None).
Proof.
  revert env. induction filenames as [|f filenames IH]; intros e Hread Hall;
    [reflexivity |].
  inversion Hread as [|? ? Hf Hfs]; subst.
  unfold file_entries in *. cbn [flat_map] in *.
  apply Forall_app in Hall as [Hf1 Hrest].
  cbn [env.Override]. destruct (Read f) as [envMap err] eqn:Ef.
  cbn [fst snd] in *. subst err.
  rewrite Override_entries_literal by exact Hf1.
  rewrite foldl_app. now apply IH.
Qed.

Lemma Override_writes_literal_files_witness :
  env.Override example_Read [str ".env.local"] (<[str "PORT" := str "80"]> ∅)
  = (foldl commit (<[str "PORT" := str "80"]> ∅)
       (file_entries example_Read [str ".env.local"]), Ret None).
Proof.
  apply (Override_writes_literal_files example_Read [str ".env.local"]
           (<[str "PORT" := str "80"]> ∅)).
  - repeat constructor.
  - repeat constructor.
Defined.

(** X18.  [Load] from an environment whose keys hold no ['='], under
    the same conditions on the files: it returns nil and leaves the
    environment with every pair written whose key was not a key at the
    start, in the order of the files.  A key of the start keeps its
    value; for a key that was not set, a later pair replaces an earlier
    one. *)
Theorem Load_writes_literal_files
    (Read : gostring -> list (gostring * gostring) * error)
    (filenames : list gostring) (env : Env) :
  keys_well_formed env = true ->
  readable Read (loaded_files filenames) ->
  Forall (fun kv => literal_entry kv = true)
         (file_entries Read (loaded_files filenames)) ->
  env.Load Read filenames env
  = (foldl (commit_absent env) env (file_entries Read (loaded_files filenames)),
     Ret None).
Proof.
  intros Hwf Hread Hall. rewrite Load_dom by exact Hwf.
  now apply Load_files_literal.
Qed.

Lemma Load_writes_literal_files_witness :
  env.Load example_Read [str ".env.local"; str ".env.local"] (<[str "A" := str "1"]> ∅)
  = (foldl (commit_absent (<[str "A" := str "1"]> ∅)) (<[str "A" := str "1"]> ∅)
       (file_entries example_Read
          (loaded_files [str ".env.local"; str ".env.local"])), Ret None).
Proof.
  apply (Load_writes_literal_files example_Read
           [str ".env.local"; str ".env.local"] (<[str "A" := str "1"]> ∅)).
  - reflexivity.
  - repeat constructor.
  - repeat constructor.
Defined.

(** ** What the loaders keep *)

Lemma written_from_mono (ck : gset gostring) entries entries' written :
  entries.*1 ⊆ entries'.*1 ->
  written_from ck entries written -> written_from ck entries' written.
Proof.
  intros Hsub. unfold written_from. intros H.
  eapply Forall_impl; [exact H |].
  intros kv (H1 & H2). split; [now apply Hsub | exact H2].
Qed.

Lemma written_from_app (ck : gset gostring) entries w1 w2 :
  written_from ck entries w1 -> written_from ck entries w2 ->
  written_from ck entries (w1 ++ w2).
Proof. unfold written_from. intros. now apply Forall_app. Qed.

(** The entries of a file, in [Load]: the environment afterwards is the
    one before with some of the pairs written, whatever the outcome. *)
Lemma Load_entries_written (ck : gset gostring) envMap : forall e,
  exists written,
    (env.Load_entries ck envMap e).1 = foldl commit e written
    /\ written_from ck envMap written.
Proof.
  induction envMap as [|[k v] envMap IH]; intros e.
  - exists []. split; [reflexivity | constructor].
  - cbn [env.Load_entries].
    assert (Hmono : forall w, written_from ck envMap w ->
                              written_from ck ((k, v) :: envMap) w).
    { intros w. apply written_from_mono. cbn [fmap list_fmap]. set_solver. }
    destruct (decide (k ∈ ck)) as [Hk|Hk].
    { destruct (IH e) as (w & Hw & Hfrom). exists w. split; auto. }
    destruct (env.Expand e v) as [x|p];
      [| exists []; split; [reflexivity | constructor]].
    unfold env.Set_. destruct (os.Setenv k x e) as [e' [err|]] eqn:Eset.
    + apply Setenv_failed in Eset. subst e'.
      exists []. split; [reflexivity | constructor].
    + apply Setenv_ok in Eset as (Hlen & Heq & ->).
      destruct (IH (<[k := x]> e)) as (w & Hw & Hfrom).
      exists ((k, x) :: w). split; [exact Hw |].
      constructor; [| now apply Hmono].
      cbn [fst fmap list_fmap]. repeat split; auto. set_solver.
Qed.

(** The same for the entries of a file in [Override]. *)
Lemma Override_entries_written envMap : forall e,
  exists written,
    (env.Override_entries envMap e).1 = foldl commit e written
    /\ written_from ∅ envMap written.
Proof.
  induction envMap as [|[k v] envMap IH]; intros e.
  - exists []. split; [reflexivity | constructor].
  - cbn [env.Override_entries].
    assert (Hmono : forall w, written_from ∅ envMap w ->
                              written_from ∅ ((k, v) :: envMap) w).
    { intros w. apply written_from_mono. cbn [fmap list_fmap]. set_solver. }
    destruct (os.Expand v (env.Expand e)) as [x|p];
      [| exists []; split; [reflexivity | constructor]].
    unfold env.Set_. destruct (os.Setenv k x e) as [e' [err|]] eqn:Eset.
    + apply Setenv_failed in Eset. subst e'.
      exists []. split; [reflexivity | constructor].
    + apply Setenv_ok in Eset as (Hlen & Heq & ->).
      destruct (IH (<[k := x]> e)) as (w & Hw & Hfrom).
      exists ((k, x) :: w). split; [exact Hw |].
      constructor; [| now apply Hmono].
      cbn [fst fmap list_fmap]. repeat split; auto; set_solver.
Qed.

Lemma file_entries_cons (Read : gostring -> list (gostring * gostring) * error)
    (f : gostring) (filenames : list gostring) :
  file_entries Read (f :: filenames) = (Read f).1 ++ file_entries Read filenames.
Proof. reflexivity. Qed.

Lemma Load_files_written (Read : gostring -> list (gostring * gostring) * error)
    (ck : gset gostring) (filenames : list gostring) : forall e,
  exists written,
    (env.Load_files Read ck filenames e).1 = foldl commit e written
    /\ written_from ck (file_entries Read filenames) written.
Proof.
  induction filenames as [|f filenames IH]; intros e.
  - exists []. split; [reflexivity | constructor].
  - cbn [env.Load_files]. rewrite file_entries_cons.
    destruct (Read f) as [envMap [err|]] eqn:Ef;
      [exists []; split; [reflexivity | constructor] |].
    cbn [fst].
    destruct (Load_entries_written ck envMap e) as (w1 & Hw1 & Hfrom1).
    assert (Hfrom1' : written_from ck (envMap ++ file_entries Read filenames) w1).
    { revert Hfrom1. apply written_from_mono. rewrite fmap_app. set_solver. }
    destruct (env.Load_entries ck envMap e) as [e1 [[err|]|p]] eqn:E1;
      cbn [fst] in Hw1; try (exists w1; split; [exact Hw1 | exact Hfrom1']).
    destruct (IH e1) as (w2 & Hw2 & Hfrom2).
    exists (w1 ++ w2). split.
    + rewrite Hw2, Hw1. now rewrite foldl_app.
    + apply written_from_app; [exact Hfrom1' |].
      revert Hfrom2. apply written_from_mono. rewrite fmap_app. set_solver.
Qed.

Lemma Override_written (Read : gostring -> list (gostring * gostring) * error)
    (filenames : list gostring) : forall e,
  exists written,
    (env.Override Read filenames e).1 = foldl commit e written
    /\ written_from ∅ (file_entries Read filenames) written.
Proof.
  induction filenames as [|f filenames IH]; intros e.
  - exists []. split; [reflexivity | constructor].
  - cbn [env.Override]. rewrite file_entries_cons.
    destruct (Read f) as [envMap [err|]] eqn:Ef;
      [exists []; split; [reflexivity | constructor] |].
    cbn [fst].
    destruct (Override_entries_written envMap e) as (w1 & Hw1 & Hfrom1).
    assert (Hfrom1' : written_from ∅ (envMap ++ file_entries Read filenames) w1).
    { revert Hfrom1. apply written_from_mono. rewrite fmap_app. set_solver. }
    destruct (env.Override_entries envMap e) as [e1 [[err|]|p]] eqn:E1;
      cbn [fst] in Hw1; try (exists w1; split; [exact Hw1 | exact Hfrom1']).
    destruct (IH e1) as (w2 & Hw2 & Hfrom2).
    exists (w1 ++ w2). split.
    + rewrite Hw2, Hw1. now rewrite foldl_app.
    + apply written_from_app; [exact Hfrom1' |].
      revert Hfrom2. apply written_from_mono. rewrite fmap_app. set_solver.
Qed.

Lemma Load_written (Read : gostring -> list (gostring * gostring) * error)
    (filenames : list gostring) (env : Env) :
  exists ck written,
    (env.Load Read filenames env).1 = foldl commit env written
    /\ written_from ck (file_entries Read (loaded_files filenames)) written.
Proof.
  destruct (Load_unfold Read filenames env) as (ck & _ & _ & ->).
  exists ck. apply Load_files_written.
Qed.

(** Writing pairs changes no other key, unsets nothing and keeps the
    keys well formed. *)
Lemma foldl_commit_other written : forall (e : Env) K,
  (K ∉ written.*1) -> foldl commit e written !! K = e !! K.
Proof.
  induction written as [|[k x] written IH]; intros e K HK; [reflexivity |].
  cbn [foldl]. cbn [fmap list_fmap fst] in HK.
  rewrite IH by set_solver. unfold commit. cbn [fst snd].
  apply lookup_insert_ne. set_solver.
Qed.

Lemma foldl_commit_is_Some written : forall (e : Env) K,
  is_Some (e !! K) -> is_Some (foldl commit e written !! K).
Proof.
  induction written as [|[k x] written IH]; intros e K HK; [exact HK |].
  cbn [foldl]. apply IH. unfold commit. cbn [fst snd].
  destruct (decide (K = k)) as [->|Hne].
  - rewrite lookup_insert_eq. now eexists.
  - now rewrite lookup_insert_ne by congruence.
Qed.

Lemma foldl_commit_written written : forall (e : Env) K,
  K ∈ written.*1 -> is_Some (foldl commit e written !! K).
Proof.
  induction written as [|[k x] written IH]; intros e K HK; [inversion HK |].
  cbn [foldl]. cbn [fmap list_fmap fst] in HK.
  apply elem_of_cons in HK as [-> | HK]; [| now apply IH].
  apply foldl_commit_is_Some. unfold commit. cbn [fst snd].
  rewrite lookup_insert_eq. now eexists.
Qed.

Lemma keys_well_formed_iff (e : Env) :
  keys_well_formed e = true
  <-> forall k v, e !! k = Some v -> os.has_byte "=" k = false.
Proof.
  split.
  - intros H k v. now apply keys_well_formed_lookup.
  - intros H. unfold keys_well_formed. apply forallb_forall. intros [k v] Hkv.
    apply list_elem_of_In, elem_of_map_to_list in Hkv.
    apply negb_true_iff. cbn [fst]. eauto.
Qed.

Lemma foldl_commit_well_formed (ck : gset gostring) entries written : forall e : Env,
  written_from ck entries written ->
  keys_well_formed e = true -> keys_well_formed (foldl commit e written) = true.
Proof.
  induction written as [|[k x] written IH]; intros e Hfrom Hwf; [exact Hwf |].
  inversion Hfrom as [|? ? (_ & _ & _ & Hk) Hrest]; subst. cbn [fst] in Hk.
  cbn [foldl]. apply IH; [exact Hrest |].
  apply keys_well_formed_iff. intros k' v'. unfold commit. cbn [fst snd].
  destruct (decide (k' = k)) as [->|Hne]; [auto |].
  rewrite lookup_insert_ne by congruence.
  now apply keys_well_formed_iff.
Qed.

Lemma written_from_keys (ck : gset gostring) entries written K :
  written_from ck entries written -> K ∈ written.*1 -> K ∈ entries.*1 /\ (K ∉ ck).
Proof.
  unfold written_from. rewrite Forall_forall. intros Hfrom HK.
  apply list_elem_of_fmap in HK as ([k x] & -> & Hkx).
  destruct (Hfrom _ Hkx) as (H1 & H2 & _). auto.
Qed.

(** X19.  [Load] and [Override] change no variable that the files do
    not name, whatever they return: a key that is in none of the files
    has afterwards the value it had, or is still unset. *)
Theorem loaders_touch_only_file_keys
    (Read : gostring -> list (gostring * gostring) * error)
    (filenames : list gostring) (env : Env) (K : gostring) :
  (K ∉ (file_entries Read (loaded_files filenames)).*1) ->
  (env.Load Read filenames env).1 !! K = env !! K
  /\ (env.Override Read filenames env).1 !! K = env !! K.
Proof.
  intros HK. split.
  - destruct (Load_written Read filenames env) as (ck & w & -> & Hfrom).
    apply foldl_commit_other. intros Hin.
    now apply (written_from_keys _ _ _ _ Hfrom) in Hin as [? _].
  - destruct (Override_written Read filenames env) as (w & -> & Hfrom).
    apply foldl_commit_other. intros Hin.
    apply (written_from_keys _ _ _ _ Hfrom) in Hin as [Hin _].
    destruct filenames; [inversion Hin | now apply HK].
Qed.

Lemma loaders_touch_only_file_keys_witness :
  (env.Load example_Read [str ".env"] (<[str "HOME" := str "/root"]> ∅)).1
    !! str "HOME"
  = (<[str "HOME" := str "/root"]> ∅ : Env) !! str "HOME"
  /\ (env.Override example_Read [str ".env"] (<[str "HOME" := str "/root"]> ∅)).1
       !! str "HOME"
     = (<[str "HOME" := str "/root"]> ∅ : Env) !! str "HOME".
Proof.
  apply (loaders_touch_only_file_keys example_Read [str ".env"]
           (<[str "HOME" := str "/root"]> ∅) (str "HOME")).
  intros H. apply list_elem_of_In in H. vm_compute in H.
  destruct H as [H | []]. discriminate H.
Defined.

(** X20.  [Load] and [Override] keep the keys of the environment free
    of ['='], whatever they return. *)
Theorem loaders_keep_keys_well_formed
    (Read : gostring -> list (gostring * gostring) * error)
    (filenames : list gostring) (env : Env) :
  keys_well_formed env = true ->
  keys_well_formed (env.Load Read filenames env).1 = true
  /\ keys_well_formed (env.Override Read filenames env).1 = true.
Proof.
  intros Hwf. split.
  - destruct (Load_written Read filenames env) as (ck & w & -> & Hfrom).
    now apply (foldl_commit_well_formed _ _ _ _ Hfrom).
  - destruct (Override_written Read filenames env) as (w & -> & Hfrom).
    now apply (foldl_commit_well_formed _ _ _ _ Hfrom).
Qed.

Lemma loaders_keep_keys_well_formed_witness :
  keys_well_formed
    (env.Load example_Read [] (<[str "HOME" := str "/root"]> ∅)).1 = true
  /\ keys_well_formed
       (env.Override example_Read [] (<[str "HOME" := str "/root"]> ∅)).1 = true.
Proof.
  apply (loaders_keep_keys_well_formed example_Read []
           (<[str "HOME" := str "/root"]> ∅)).
  reflexivity.
Defined.

(** A file of [Load] that went through: each of its keys was in the
    snapshot or is set afterwards. *)
Lemma Load_entries_success (ck : gset gostring) envMap : forall e e',
  env.Load_entries ck envMap e = (e', Ret None) ->
  forall K, K ∈ envMap.*1 -> K ∈ ck \/ is_Some (e' !! K).
Proof.
  induction envMap as [|[k v] envMap IH]; intros e e' Hload K HK;
    [inversion HK |].
  cbn [env.Load_entries] in Hload. cbn [fmap list_fmap fst] in HK.
  destruct (decide (k ∈ ck)) as [Hk|Hk].
  { apply elem_of_cons in HK as [-> | HK]; [now left | eauto]. }
  destruct (env.Expand e v) as [x|p]; [| discriminate].
  unfold env.Set_ in Hload.
  destruct (os.Setenv k x e) as [e1 [err|]] eqn:Eset; [discriminate |].
  apply Setenv_ok in Eset as (_ & _ & ->).
  apply elem_of_cons in HK as [-> | HK]; [| eauto].
  right. destruct (Load_entries_written ck envMap (<[k := x]> e)) as (w & Hw & _).
  rewrite Hload in Hw. cbn [fst] in Hw. rewrite Hw.
  apply foldl_commit_is_Some. rewrite lookup_insert_eq. now eexists.
Qed.

Lemma Load_files_success (Read : gostring -> list (gostring * gostring) * error)
    (ck : gset gostring) (filenames : list gostring) : forall e e',
  env.Load_files Read ck filenames e = (e', Ret None) ->
  readable Read filenames
  /\ forall K, K ∈ (file_entries Read filenames).*1 -> K ∈ ck \/ is_Some (e' !! K).
Proof.
  induction filenames as [|f filenames IH]; intros e e' Hload.
  - split; [constructor | intros K HK; inversion HK].
  - cbn [env.Load_files] in Hload. rewrite file_entries_cons.
    destruct (Read f) as [envMap [err|]] eqn:Ef; [discriminate |].
    destruct (env.Load_entries ck envMap e) as [e1 [[err|]|p]] eqn:E1;
      try discriminate.
    destruct (IH _ _ Hload) as (Hread & Hkeys).
    split; [constructor; [now rewrite Ef | exact Hread] |].
    intros K HK. cbn [fst] in HK. rewrite fmap_app in HK.
    apply elem_of_app in HK as [HK | HK]; [| auto].
    destruct (Load_entries_success _ _ _ _ E1 K HK) as [? | Hsome]; [now left |].
    right. destruct (Load_files_written Read ck filenames e1) as (w & Hw & _).
    rewrite Hload in Hw. cbn [fst] in Hw. rewrite Hw.
    now apply foldl_commit_is_Some.
Qed.

(** Files whose keys are all in the snapshot change nothing. *)
Lemma Load_entries_present (ck : gset gostring)
    (envMap : list (gostring * gostring)) (e : Env) :
  (forall K, K ∈ envMap.*1 -> K ∈ ck) ->
  env.Load_entries ck envMap e = (e, Ret None).
Proof.
  induction envMap as [|[k v] envMap IH]; intros Hall; [reflexivity |].
  cbn [env.Load_entries]. cbn [fmap list_fmap fst] in Hall.
  destruct (decide (k ∈ ck)) as [Hk|Hk]; [| exfalso; apply Hk, Hall; set_solver].
  apply IH. intros K HK. apply Hall. set_solver.
Qed.

Lemma Load_files_present (Read : gostring -> list (gostring * gostring) * error)
    (ck : gset gostring) (filenames : list gostring) (e : Env) :
  readable Read filenames ->
  (forall K, K ∈ (file_entries Read filenames).*1 -> K ∈ ck) ->
  env.Load_files Read ck filenames e = (e, Ret None).
Proof.
  induction filenames as [|f filenames IH]; intros Hread Hall; [reflexivity |].
  inversion Hread as [|? ? Hf Hfs]; subst.
  rewrite file_entries_cons, fmap_app in Hall.
  cbn [env.Load_files]. destruct (Read f) as [envMap err] eqn:Ef.
  cbn [fst snd] in *. subst err.
  rewrite Load_entries_present by (intros K HK; apply Hall; set_solver).
  apply IH; [exact Hfs |]. intros K HK. apply Hall. set_solver.
Qed.

Lemma Load_success_keys (Read : gostring -> list (gostring * gostring) * error)
    (filenames : list gostring) (env env' : Env) :
  keys_well_formed env = true ->
  env.Load Read filenames env = (env', Ret None) ->
  keys_well_formed env' = true
  /\ readable Read (loaded_files filenames)
  /\ forall K, K ∈ (file_entries Read (loaded_files filenames)).*1 ->
       is_Some (env' !! K).
Proof.
  intros Hwf Hload. rewrite Load_dom in Hload by exact Hwf.
  destruct (Load_files_written Read (dom env) (loaded_files filenames) env)
    as (w & Hw & Hfrom).
  rewrite Hload in Hw. cbn [fst] in Hw.
  destruct (Load_files_success _ _ _ _ _ Hload) as (Hread & Hkeys).
  split; [| split; [exact Hread |]].
  - rewrite Hw. now apply (foldl_commit_well_formed _ _ _ _ Hfrom).
  - intros K HK. destruct (Hkeys K HK) as [Hdom | Hsome]; [| exact Hsome].
    rewrite Hw. apply foldl_commit_is_Some. now apply elem_of_dom.
Qed.

(** X21.  After a [Load] that returned nil, from an environment whose
    keys hold no ['='], every file has been read and every key of the
    files is a key of the environment. *)
Theorem Load_sets_file_keys
    (Read : gostring -> list (gostring * gostring) * error)
    (filenames : list gostring) (env env' : Env) :
  keys_well_formed env = true ->
  env.Load Read filenames env = (env', Ret None) ->
  readable Read (loaded_files filenames)
  /\ forall K, K ∈ (file_entries Read (loaded_files filenames)).*1 ->
       is_Some (env' !! K).
Proof.
  intros Hwf Hload. now destruct (Load_success_keys Read filenames env env' Hwf Hload).
Qed.

Lemma Load_sets_file_keys_witness :
  readable example_Read (loaded_files [str ".env.local"])
  /\ forall K, K ∈ (file_entries example_Read (loaded_files [str ".env.local"])).*1 ->
       is_Some ((<[str "PORT" := str "8080"]> ∅ : Env) !! K).
Proof.
  apply (Load_sets_file_keys example_Read [str ".env.local"] ∅
           (<[str "PORT" := str "8080"]> ∅)).
  - reflexivity.
  - vm_compute. reflexivity.
Defined.

(** X22.  [Load] is idempotent: after a [Load] that returned nil, from
    an environment whose keys hold no ['='], a second [Load] of the
    same files returns nil and changes nothing.  The second reading may
    visit the pairs in another order and find other values, as long as
    the files can be read and bring no new key. *)
Theorem Load_idempotent
    (Read Read' : gostring -> list (gostring * gostring) * error)
    (filenames : list gostring) (env env' : Env) :
  keys_well_formed env = true ->
  env.Load Read filenames env = (env', Ret None) ->
  readable Read' (loaded_files filenames) ->
  (file_entries Read' (loaded_files filenames)).*1
    ⊆ (file_entries Read (loaded_files filenames)).*1 ->
  env.Load Read' filenames env' = (env', Ret None).
Proof.
  intros Hwf Hload Hread' Hsub.
  destruct (Load_success_keys Read filenames env env' Hwf Hload)
    as (Hwf' & _ & Hkeys).
  rewrite Load_dom by exact Hwf'.
  apply Load_files_present; [exact Hread' |].
  intros K HK. apply elem_of_dom. apply Hkeys. now apply Hsub.
Qed.

Lemma Load_idempotent_witness :
  env.Load example_Read [str ".env.local"] (<[str "PORT" := str "8080"]> ∅)
  = (<[str "PORT" := str "8080"]> ∅, Ret None).
Proof.
  apply (Load_idempotent example_Read example_Read [str ".env.local"] ∅
           (<[str "PORT" := str "8080"]> ∅)).
  - reflexivity.
  - vm_compute. reflexivity.
  - repeat constructor.
  - reflexivity.
Defined.

(** X23.  [Override] does not resolve a placeholder: it hands the body
    to [Expand] as if it were a template, so a body in which no dollar
    sign starts a name comes back as it is.  A pair whose value is
    [${body}] followed by such text is written as the body followed by
    the text, whatever the variables hold. *)
Theorem Override_writes_placeholder_body
    (Read : gostring -> list (gostring * gostring) * error)
    (f K body t : gostring) (env : Env) :
  Read f = ([(K, str "${" ++ body ++ str "}" ++ t)], None) ->
  valid_key K = true ->
  body <> [] -> os.has_byte "}" body = false ->
  Spec.literal_dollars body = true -> Spec.literal_dollars t = true ->
  os.has_byte zero (body ++ t) = false ->
  env.Override Read [f] env = (<[K := body ++ t]> env, Ret None).
Proof.
  intros Hread HK Hne Hbrace Hbody Ht Hzero.
  cbn [env.Override]. rewrite Hread. cbn [env.Override_entries].
  rewrite os_Expand_app_placeholder by assumption.
  assert (E : env.Expand env body = Ret body)
    by (unfold env.Expand; now apply os_Expand_literal).
  rewrite E.
  cbn [mbind Res_bind]. rewrite (os_Expand_literal t) by exact Ht.
  cbn [mbind Res_bind]. unfold env.Set_.
  now rewrite Setenv_valid by assumption.
Qed.

Lemma Override_writes_placeholder_body_witness :
  env.Override example_Read [str ".env"] (<[str "HOME" := str "/root"]> ∅)
  = (<[str "K" := str "HOME" ++ []]> (<[str "HOME" := str "/root"]> ∅), Ret None).
Proof.
  apply (Override_writes_placeholder_body example_Read (str ".env") (str "K")
           (str "HOME") [] (<[str "HOME" := str "/root"]> ∅)).
  - reflexivity.
  - reflexivity.
  - discriminate.
  - reflexivity.
  - reflexivity.
  - reflexivity.
  - reflexivity.
Defined.
